(** * Fracture visualization: the deformity transform and its measurement form

  A shallow embedding of [src/components/FractureVisualization.tsx]
  (the typed variant; the untyped one has the same three functions line for
  line) and the properties of its specification.

  The component has three pieces of logic:
  - [updateBoneGeometries], which rebuilds the two bone meshes;
  - the [useEffect] on [measurements], which rebuilds the bones and then
    places the distal one through a temporary pivot object;
  - [handleMeasurementChange], which parses one edited form field.

  Beside them the development covers the scene graph the mount effect sets
  up, its guard on the container, the camera, and [toggleView], which only
  the typed variant has.

  Numbers.  Form handling is modelled on IEEE 754 binary64 values (the
  Standard Library's [spec_float] at precision 53), because that is where NaN
  and the [||] fallback live.  The scene graph is modelled in exact real
  arithmetic: three.js's matrices, and [Math.sin]/[Math.cos], are idealised
  by their mathematical counterparts, so statements about poses are
  statements about the geometry the code computes, free of rounding.

  three.js.  The library is not part of the repository.  The model below
  follows the documented behaviour of the methods the component calls
  ([Object3D.add], [remove], [attach], [applyMatrix4], [lookAt],
  [localToWorld], [Matrix4.compose], [decompose], [invert], [multiply],
  [Matrix4.lookAt], [Vector3.normalize], [crossVectors], [Euler] in its
  default order XYZ). An
  object's orientation is stored by three.js as a unit quaternion; the model
  stores the rotation matrix that quaternion denotes. *)

From Stdlib Require Import Reals Lra ZArith NArith String Ascii.
From Stdlib Require Import Floats.SpecFloat.
From stdpp Require Import base option list gmap.

Open Scope R_scope.

(* ====================================================================== *)
(** * The measurement set                                                   *)
(* ====================================================================== *)

(** [typeof initialMeasurements]: eight numeric fields.  The record is
    parametric in the number type: binary64 values in the form, reals in the
    scene. *)
Record Measurements (num : Type) := mkMeasurements {
  fractureLength : num;
  fracturePosition : num;
  medialDisplacement : num;
  anteriorDisplacement : num;
  proximalDisplacement : num;
  valgusAngulation : num;
  anteversionAngulation : num;
  rotationalAngulation : num }.

Arguments mkMeasurements {num}.
Arguments fractureLength {num}.
Arguments fracturePosition {num}.
Arguments medialDisplacement {num}.
Arguments anteriorDisplacement {num}.
Arguments proximalDisplacement {num}.
Arguments valgusAngulation {num}.
Arguments anteversionAngulation {num}.
Arguments rotationalAngulation {num}.

(** [keyof typeof initialMeasurements]. *)
Inductive MeasurementKey :=
| KfractureLength | KfracturePosition
| KmedialDisplacement | KanteriorDisplacement | KproximalDisplacement
| KvalgusAngulation | KanteversionAngulation | KrotationalAngulation.

#[global] Instance MeasurementKey_eq_dec : EqDecision MeasurementKey.
Proof. solve_decision. Defined.

Definition allKeys : list MeasurementKey :=
  [KfractureLength; KfracturePosition;
   KmedialDisplacement; KanteriorDisplacement; KproximalDisplacement;
   KvalgusAngulation; KanteversionAngulation; KrotationalAngulation].

Section Fields.
Context {num : Type}.

(** [m[key]]. *)
Definition getField (key : MeasurementKey) (m : Measurements num) : num :=
  match key with
  | KfractureLength => fractureLength m
  | KfracturePosition => fracturePosition m
  | KmedialDisplacement => medialDisplacement m
  | KanteriorDisplacement => anteriorDisplacement m
  | KproximalDisplacement => proximalDisplacement m
  | KvalgusAngulation => valgusAngulation m
  | KanteversionAngulation => anteversionAngulation m
  | KrotationalAngulation => rotationalAngulation m
  end.

(** [{ ...prev, [key]: v }]. *)
Definition setField (key : MeasurementKey) (v : num) (prev : Measurements num)
    : Measurements num :=
  let '(mkMeasurements fl fp md ad pd va aa ra) := prev in
  match key with
  | KfractureLength => mkMeasurements v fp md ad pd va aa ra
  | KfracturePosition => mkMeasurements fl v md ad pd va aa ra
  | KmedialDisplacement => mkMeasurements fl fp v ad pd va aa ra
  | KanteriorDisplacement => mkMeasurements fl fp md v pd va aa ra
  | KproximalDisplacement => mkMeasurements fl fp md ad v va aa ra
  | KvalgusAngulation => mkMeasurements fl fp md ad pd v aa ra
  | KanteversionAngulation => mkMeasurements fl fp md ad pd va v ra
  | KrotationalAngulation => mkMeasurements fl fp md ad pd va aa v
  end.

(** [initialMeasurements], given how an integer literal is read. *)
Definition initialMeasurementsOf (lit : Z -> num) : Measurements num :=
  mkMeasurements (lit 300%Z) (lit 150%Z)
    (lit 0%Z) (lit 0%Z) (lit 0%Z) (lit 0%Z) (lit 0%Z) (lit 0%Z).
End Fields.

(* ====================================================================== *)
(** * Part I: the three.js objects the component uses, over the reals      *)
(* ====================================================================== *)

Module Vector3.
Record t := mk { x : R; y : R; z : R }.

Definition zero : t := mk 0 0 0.
Definition one : t := mk 1 1 1.
Definition add (a b : t) : t := mk (x a + x b) (y a + y b) (z a + z b).
Definition sub (a b : t) : t := mk (x a - x b) (y a - y b) (z a - z b).
Definition negate (a : t) : t := mk (- x a) (- y a) (- z a).
Definition length (a : t) : R := sqrt (x a * x a + y a * y a + z a * z a).
Definition lengthSq (a : t) : R := x a * x a + y a * y a + z a * z a.
Definition multiplyScalar (s : R) (a : t) : t := mk (x a * s) (y a * s) (z a * s).
Definition divideScalar (s : R) (a : t) : t := multiplyScalar (1 / s) a.

(** [normalize()] is [divideScalar(length() || 1)]. *)
Definition normalize (a : t) : t :=
  let l := length a in
  divideScalar (if Req_dec_T l 0 then 1 else l) a.

Definition crossVectors (a b : t) : t :=
  mk (y a * z b - z a * y b) (z a * x b - x a * z b) (x a * y b - y a * x b).

Definition setX (v : R) (a : t) : t := mk v (y a) (z a).
Definition setY (v : R) (a : t) : t := mk (x a) v (z a).
Definition setZ (v : R) (a : t) : t := mk (x a) (y a) v.

End Vector3.

(** The upper-left 3x3 block of a [Matrix4], entries named row then column as
  in [Matrix4.set(n11, n12, ...)]. *)
Module Matrix3.
Record t := mk {
  n11 : R; n12 : R; n13 : R;
  n21 : R; n22 : R; n23 : R;
  n31 : R; n32 : R; n33 : R }.

Definition identity : t := mk 1 0 0  0 1 0  0 0 1.

Definition multiply (a b : t) : t :=
  mk (n11 a * n11 b + n12 a * n21 b + n13 a * n31 b)
     (n11 a * n12 b + n12 a * n22 b + n13 a * n32 b)
     (n11 a * n13 b + n12 a * n23 b + n13 a * n33 b)
     (n21 a * n11 b + n22 a * n21 b + n23 a * n31 b)
     (n21 a * n12 b + n22 a * n22 b + n23 a * n32 b)
     (n21 a * n13 b + n22 a * n23 b + n23 a * n33 b)
     (n31 a * n11 b + n32 a * n21 b + n33 a * n31 b)
     (n31 a * n12 b + n32 a * n22 b + n33 a * n32 b)
     (n31 a * n13 b + n32 a * n23 b + n33 a * n33 b).

Definition apply (a : t) (v : Vector3.t) : Vector3.t :=
  Vector3.mk
    (n11 a * Vector3.x v + n12 a * Vector3.y v + n13 a * Vector3.z v)
    (n21 a * Vector3.x v + n22 a * Vector3.y v + n23 a * Vector3.z v)
    (n31 a * Vector3.x v + n32 a * Vector3.y v + n33 a * Vector3.z v).

Definition determinant (a : t) : R :=
  n11 a * (n22 a * n33 a - n23 a * n32 a)
  - n12 a * (n21 a * n33 a - n23 a * n31 a)
  + n13 a * (n21 a * n32 a - n22 a * n31 a).

(** Adjugate over determinant; like [Matrix4.invert], the zero matrix when
    the determinant is 0 (in Rocq's reals [/ 0 = 0]). *)
Definition invert (a : t) : t :=
  let d := / determinant a in
  mk ((n22 a * n33 a - n23 a * n32 a) * d)
     ((n13 a * n32 a - n12 a * n33 a) * d)
     ((n12 a * n23 a - n13 a * n22 a) * d)
     ((n23 a * n31 a - n21 a * n33 a) * d)
     ((n11 a * n33 a - n13 a * n31 a) * d)
     ((n13 a * n21 a - n11 a * n23 a) * d)
     ((n21 a * n32 a - n22 a * n31 a) * d)
     ((n12 a * n31 a - n11 a * n32 a) * d)
     ((n11 a * n22 a - n12 a * n21 a) * d).

(** Column [j] scaled by [s j]: the linear part of [compose]. *)
Definition scaleColumns (a : t) (s : Vector3.t) : t :=
  mk (n11 a * Vector3.x s) (n12 a * Vector3.y s) (n13 a * Vector3.z s)
     (n21 a * Vector3.x s) (n22 a * Vector3.y s) (n23 a * Vector3.z s)
     (n31 a * Vector3.x s) (n32 a * Vector3.y s) (n33 a * Vector3.z s).

Definition column1 (a : t) := Vector3.mk (n11 a) (n21 a) (n31 a).
Definition column2 (a : t) := Vector3.mk (n12 a) (n22 a) (n32 a).
Definition column3 (a : t) := Vector3.mk (n13 a) (n23 a) (n33 a).

(** The three single-axis rotations, angle in radians. *)
Definition makeRotationX (a : R) : t :=
  mk 1 0 0   0 (cos a) (- sin a)   0 (sin a) (cos a).
Definition makeRotationY (a : R) : t :=
  mk (cos a) 0 (sin a)   0 1 0   (- sin a) 0 (cos a).
Definition makeRotationZ (a : R) : t :=
  mk (cos a) (- sin a) 0   (sin a) (cos a) 0   0 0 1.

End Matrix3.

(** [Euler] with the library's default order ['XYZ']. *)
Module Euler.
Record t := mk { x : R; y : R; z : R }.

Definition zero : t := mk 0 0 0.
Definition setX (v : R) (e : t) : t := mk v (y e) (z e).
Definition setY (v : R) (e : t) : t := mk (x e) v (z e).
Definition setZ (v : R) (e : t) : t := mk (x e) (y e) v.

(** [Matrix4.makeRotationFromEuler], case ['XYZ'], written entry by entry as
    the library does, with a = cos x, b = sin x, c = cos y, d = sin y,
    e = cos z, f = sin z. *)
Definition makeRotationFromEuler (eu : t) : Matrix3.t :=
  let a := cos (x eu) in let b := sin (x eu) in
  let c := cos (y eu) in let d := sin (y eu) in
  let e := cos (z eu) in let f := sin (z eu) in
  Matrix3.mk
    (c * e)              (- (c * f))          d
    (a * f + b * e * d)  (a * e - b * f * d)  (- (b * c))
    (b * f - a * e * d)  (b * e + a * f * d)  (a * c).

(** [Math.atan2] on the reals (signed zeros are not distinguished). *)
Definition atan2 (py px : R) : R :=
  if Rlt_dec 0 px then atan (py / px)
  else if Rlt_dec px 0 then
    (if Rle_dec 0 py then atan (py / px) + PI else atan (py / px) - PI)
  else if Rlt_dec 0 py then PI / 2
  else if Rlt_dec py 0 then - (PI / 2)
  else 0.

Definition clamp (v lo hi : R) : R := Rmax lo (Rmin hi v).

(** [Euler.setFromRotationMatrix], case ['XYZ']. *)
Definition setFromRotationMatrix (m : Matrix3.t) : t :=
  let ey := asin (clamp (Matrix3.n13 m) (-1) 1) in
  if Rlt_dec (Rabs (Matrix3.n13 m)) (9999999 / 10000000) then
    mk (atan2 (- Matrix3.n23 m) (Matrix3.n33 m)) ey
       (atan2 (- Matrix3.n12 m) (Matrix3.n11 m))
  else
    mk (atan2 (Matrix3.n32 m) (Matrix3.n22 m)) ey 0.
End Euler.

(** An affine [Matrix4]: linear part and translation column; the last row is
  (0, 0, 0, 1) for every matrix the component builds. *)
Module Matrix4.
Record t := mk { linear : Matrix3.t; translation : Vector3.t }.

Definition identity : t := mk Matrix3.identity Vector3.zero.

(** [a.multiply(b)] = a * b. *)
Definition multiply (a b : t) : t :=
  mk (Matrix3.multiply (linear a) (linear b))
     (Vector3.add (Matrix3.apply (linear a) (translation b)) (translation a)).

Definition invert (a : t) : t :=
  let i := Matrix3.invert (linear a) in
  mk i (Vector3.negate (Matrix3.apply i (translation a))).

(** [compose(position, quaternion, scale)]. *)
Definition compose (position : Vector3.t) (quaternion : Matrix3.t)
    (scale : Vector3.t) : t :=
  mk (Matrix3.scaleColumns quaternion scale) position.

(** [decompose]: position, rotation and scale.  The scale is the length of
    each column, the first negated when the determinant is negative; the
    rotation is the linear part with each column divided by its scale. *)
Definition decompose (m : t) : Vector3.t * Matrix3.t * Vector3.t :=
  let l := linear m in
  let sx0 := Vector3.length (Matrix3.column1 l) in
  let sy := Vector3.length (Matrix3.column2 l) in
  let sz := Vector3.length (Matrix3.column3 l) in
  let sx := if Rlt_dec (Matrix3.determinant l) 0 then - sx0 else sx0 in
  (translation m,
   Matrix3.scaleColumns l (Vector3.mk (/ sx) (/ sy) (/ sz)),
   Vector3.mk sx sy sz).

(** [lookAt(eye, target, up)]: the rotation whose third column points from
    [target] to [eye], its first column orthogonal to [up]; the two
    degenerate cases are nudged as the library does. *)
Definition lookAt (eye target up : Vector3.t) : Matrix3.t :=
  let z0 := Vector3.sub eye target in
  let z1 :=
    if Req_dec_T (Vector3.lengthSq z0) 0 then Vector3.setZ 1 z0 else z0 in
  let z2 := Vector3.normalize z1 in
  let x0 := Vector3.crossVectors up z2 in
  let z3 :=
    if Req_dec_T (Vector3.lengthSq x0) 0 then
      Vector3.normalize
        (if Req_dec_T (Rabs (Vector3.z up)) 1
         then Vector3.setX (Vector3.x z2 + 1 / 10000) z2
         else Vector3.setZ (Vector3.z z2 + 1 / 10000) z2)
    else z2 in
  let x1 :=
    if Req_dec_T (Vector3.lengthSq x0) 0 then Vector3.crossVectors up z3
    else x0 in
  let x2 := Vector3.normalize x1 in
  let y2 := Vector3.crossVectors z3 x2 in
  Matrix3.mk (Vector3.x x2) (Vector3.x y2) (Vector3.x z3)
             (Vector3.y x2) (Vector3.y y2) (Vector3.y z3)
             (Vector3.z x2) (Vector3.z y2) (Vector3.z z3).
End Matrix4.

(* ====================================================================== *)
(** * Part II: the scene graph as a store of objects                       *)
(* ====================================================================== *)

(** The parameters a [CylinderGeometry] is built from. *)
Record CylinderGeometry := mkCylinderGeometry {
  radiusTop : R;
  radiusBottom : R;
  height : R;
  radialSegments : nat }.

(** Objects are identified by their address in the store. *)
Abbreviation address := nat (only parsing).

(** [Object3D] (a [Mesh] when it carries a geometry).  [rotation] and
    [quaternion] are the two views of the orientation that the library keeps
    in step: writing one rewrites the other. *)
Record Object3D := mkObject3D {
  parent : option address;
  children : list address;
  position : Vector3.t;
  rotation : Euler.t;
  quaternion : Matrix3.t;
  scale : Vector3.t;
  geometry : option CylinderGeometry }.

Definition newObject3D (g : option CylinderGeometry) : Object3D :=
  mkObject3D None [] Vector3.zero Euler.zero Matrix3.identity Vector3.one g.

Definition setParent (p : option address) (o : Object3D) : Object3D :=
  mkObject3D p (children o) (position o) (rotation o) (quaternion o)
    (scale o) (geometry o).
Definition setChildren (c : list address) (o : Object3D) : Object3D :=
  mkObject3D (parent o) c (position o) (rotation o) (quaternion o)
    (scale o) (geometry o).
Definition setPosition (p : Vector3.t) (o : Object3D) : Object3D :=
  mkObject3D (parent o) (children o) p (rotation o) (quaternion o)
    (scale o) (geometry o).
Definition setScale (s : Vector3.t) (o : Object3D) : Object3D :=
  mkObject3D (parent o) (children o) (position o) (rotation o) (quaternion o)
    s (geometry o).

(** Writing the Euler angles recomputes the quaternion
    ([Quaternion.setFromEuler]). *)
Definition setRotation (e : Euler.t) (o : Object3D) : Object3D :=
  mkObject3D (parent o) (children o) (position o) e
    (Euler.makeRotationFromEuler e) (scale o) (geometry o).

(** Writing the quaternion recomputes the Euler angles
    ([Euler.setFromQuaternion]). *)
Definition setQuaternion (q : Matrix3.t) (o : Object3D) : Object3D :=
  mkObject3D (parent o) (children o) (position o)
    (Euler.setFromRotationMatrix q) q (scale o) (geometry o).

(** [object.matrix] after [updateMatrix()]. *)
Definition matrix (o : Object3D) : Matrix4.t :=
  Matrix4.compose (position o) (quaternion o) (scale o).

(** [object.applyMatrix4(m)]: premultiply the local matrix and decompose. *)
Definition applyMatrix4 (m : Matrix4.t) (o : Object3D) : Object3D :=
  let '(p, q, s) := Matrix4.decompose (Matrix4.multiply m (matrix o)) in
  setScale s (setQuaternion q (setPosition p o)).

(** The component's state: the React state [measurements], the refs, and the
    store the refs point into. *)
Record State := mkState {
  measurements : Measurements R;
  heap : gmap nat Object3D;
  nextId : nat;
  sceneRef : option address;
  proximalBoneRef : option address;
  distalBoneRef : option address }.

Definition setHeap (h : gmap nat Object3D) (n : nat) (s : State) : State :=
  mkState (measurements s) h n (sceneRef s) (proximalBoneRef s)
    (distalBoneRef s).
Definition setSceneRef (r : option address) (s : State) : State :=
  mkState (measurements s) (heap s) (nextId s) r (proximalBoneRef s)
    (distalBoneRef s).
Definition setProximalBoneRef (r : option address) (s : State) : State :=
  mkState (measurements s) (heap s) (nextId s) (sceneRef s) r
    (distalBoneRef s).
Definition setDistalBoneRef (r : option address) (s : State) : State :=
  mkState (measurements s) (heap s) (nextId s) (sceneRef s)
    (proximalBoneRef s) r.
Definition setMeasurementsField (m : Measurements R) (s : State) : State :=
  mkState m (heap s) (nextId s) (sceneRef s) (proximalBoneRef s)
    (distalBoneRef s).

(** Computations on the state.  [None] stands for a run that does not
    return: a dereference of [null] or a parent chain that never ends. *)
Definition M (A : Type) : Type := State -> option (A * State).

Definition ret {A} (a : A) : M A := fun s => Some (a, s).
Definition bind {A B} (c : M A) (k : A -> M B) : M B :=
  fun s => match c s with Some (a, s') => k a s' | None => None end.
Definition fail {A} : M A := fun _ => None.
Definition get : M State := fun s => Some (s, s).
Definition modify (f : State -> State) : M unit := fun s => Some (tt, f s).

Notation "'let*' x ':=' c 'in' k" := (bind c (fun x => k))
  (at level 10, x name, c at level 100, k at level 200).
Notation "c1 ';;' c2" := (bind c1 (fun _ => c2))
  (at level 100, c2 at level 200, right associativity).

(** [new THREE.Object3D()], [new THREE.Mesh(g, _)]: a fresh address. *)
Definition alloc (o : Object3D) : M address := fun s =>
  Some (nextId s, setHeap (<[nextId s := o]> (heap s)) (S (nextId s)) s).

Definition read (i : address) : M Object3D := fun s =>
  match heap s !! i with Some o => Some (o, s) | None => None end.

Definition update (i : address) (f : Object3D -> Object3D) : M unit := fun s =>
  match heap s !! i with
  | Some o => Some (tt, setHeap (<[i := f o]> (heap s)) (nextId s) s)
  | None => None
  end.

(** [children.splice(children.indexOf(object), 1)]. *)
Fixpoint spliceFirst (object : address) (c : list address) : list address :=
  match c with
  | [] => []
  | i :: c' => if Nat.eqb i object then c' else i :: spliceFirst object c'
  end.

(** [this.remove(object)]. *)
Definition remove (this object : address) : M unit :=
  let* t := read this in
  if existsb (Nat.eqb object) (children t) then
    update object (setParent None) ;;
    update this (fun o => setChildren (spliceFirst object (children o)) o)
  else ret tt.

(** [object.removeFromParent()]. *)
Definition removeFromParent (object : address) : M unit :=
  let* o := read object in
  match parent o with
  | Some p => remove p object
  | None => ret tt
  end.

(** [this.add(object)]; adding an object to itself is refused. *)
Definition add (this object : address) : M unit :=
  if Nat.eqb object this then ret tt
  else
    removeFromParent object ;;
    update object (setParent (Some this)) ;;
    update this (fun o => setChildren (children o ++ [object]) o).

(** [matrixWorld] after [updateWorldMatrix(true, false)]: the local matrices
    along the parent chain, multiplied from the root down. *)
Fixpoint matrixWorld (h : gmap nat Object3D) (fuel : nat) (i : address)
    : option Matrix4.t :=
  match fuel with
  | O => None
  | S fuel' =>
    match h !! i with
    | None => None
    | Some o =>
      match parent o with
      | None => Some (matrix o)
      | Some p =>
        match matrixWorld h fuel' p with
        | Some pw => Some (Matrix4.multiply pw (matrix o))
        | None => None
        end
      end
    end
  end.

(** A chain of distinct objects is no longer than the number of addresses
    handed out, which is the fuel. *)
Definition updateWorldMatrix (i : address) : M Matrix4.t := fun s =>
  match matrixWorld (heap s) (nextId s) i with
  | Some m => Some (m, s)
  | None => None
  end.

(** [this.attach(object)]: reparent [object] under [this] keeping its world
    transform. *)
Definition attach (this object : address) : M unit :=
  let* mw := updateWorldMatrix this in
  let* o := read object in
  let* m1 :=
    match parent o with
    | Some p =>
      let* pw := updateWorldMatrix p in
      ret (Matrix4.multiply (Matrix4.invert mw) pw)
    | None => ret (Matrix4.invert mw)
    end in
  update object (applyMatrix4 m1) ;;
  removeFromParent object ;;
  update object (setParent (Some this)) ;;
  update this (fun o' => setChildren (children o' ++ [object]) o').

(** [object.getWorldPosition()], [object.getWorldQuaternion()]. *)
Definition worldPose (s : State) (i : address) : option (Vector3.t * Matrix3.t) :=
  match matrixWorld (heap s) (nextId s) i with
  | Some m => let '(p, q, _) := Matrix4.decompose m in Some (p, q)
  | None => None
  end.

(** [object.localToWorld(v)]. *)
Definition localToWorld (s : State) (i : address) (v : Vector3.t)
    : option Vector3.t :=
  match matrixWorld (heap s) (nextId s) i with
  | Some m =>
    Some (Vector3.add (Matrix3.apply (Matrix4.linear m) v)
            (Matrix4.translation m))
  | None => None
  end.

(** [Object3D.DEFAULT_UP]. *)
Definition DEFAULT_UP : Vector3.t := Vector3.mk 0 1 0.

(** [camera.lookAt(x, y, z)] on a camera that has no parent, so that its
    world position is its position. *)
Definition lookAt (target : Vector3.t) (camera : Object3D) : Object3D :=
  setQuaternion (Matrix4.lookAt (position camera) target DEFAULT_UP) camera.

(* ====================================================================== *)
(** * Part III: the component                                              *)
(* ====================================================================== *)

Definition initialMeasurements : Measurements R := initialMeasurementsOf IZR.

Definition radius : R := 15.
Definition radialSegmentsOfBone : nat := 32.

(** [new THREE.Mesh(new THREE.CylinderGeometry(top, bottom, h, segments), _)].
    The material only colours the mesh and is left out. *)
Definition newMesh (top bottom h : R) (segments : nat) : M address :=
  alloc (newObject3D (Some (mkCylinderGeometry top bottom h segments))).

Definition setPositionY (v : R) (o : Object3D) : Object3D :=
  setPosition (Vector3.setY v (position o)) o.

(** [updateBoneGeometries(scene)], lines 33-79.  It reads [measurements]
    from the render it was created in, which is the current state. *)
Definition updateBoneGeometries (scene : address) : M unit :=
  let* s := get in
  let m := measurements s in
  (* Remove existing bones if they exist *)
  match proximalBoneRef s with Some b => remove scene b | None => ret tt end ;;
  match distalBoneRef s with Some b => remove scene b | None => ret tt end ;;
  (* Create proximal bone *)
  let* proximalBone :=
    newMesh radius (radius * (9 / 10)) (fracturePosition m)
      radialSegmentsOfBone in
  update proximalBone (setPositionY (- fracturePosition m / 2)) ;;
  add scene proximalBone ;;
  modify (setProximalBoneRef (Some proximalBone)) ;;
  (* Create distal bone *)
  let distalLength := fractureLength m - fracturePosition m in
  let* distalBone :=
    newMesh (radius * (9 / 10)) (radius * (8 / 10)) distalLength
      radialSegmentsOfBone in
  update distalBone
    (setPositionY (- fracturePosition m - distalLength / 2)) ;;
  add scene distalBone ;;
  modify (setDistalBoneRef (Some distalBone)).

Definition toRad (deg : R) : R := (deg * PI) / 180.

(** The placement of the distal bone, lines 147-177 of the effect on
    [measurements] (what the specification calls [applyDeformity]). *)
Definition applyDeformity (scene distalBone : address) : M unit :=
  let* s := get in
  let m := measurements s in
  (* Create pivot point at fracture position *)
  let* pivot := alloc (newObject3D None) in
  update pivot (setPositionY (- fracturePosition m)) ;;
  add scene pivot ;;
  (* Reset distal bone position to anatomical position *)
  let distalLength := fractureLength m - fracturePosition m in
  update distalBone
    (setPosition (Vector3.mk 0 (- fracturePosition m - distalLength / 2) 0)) ;;
  update distalBone (setRotation (Euler.mk 0 0 0)) ;;
  (* Attach distal bone to pivot for rotations *)
  attach pivot distalBone ;;
  (* Apply rotations to pivot *)
  update pivot (fun o =>
    setRotation (Euler.setZ (toRad (valgusAngulation m)) (rotation o)) o) ;;
  update pivot (fun o =>
    setRotation (Euler.setX (toRad (anteversionAngulation m)) (rotation o)) o) ;;
  update pivot (fun o =>
    setRotation (Euler.setY (toRad (rotationalAngulation m)) (rotation o)) o) ;;
  (* Apply displacements *)
  update distalBone (fun o =>
    setPosition (Vector3.setX (Vector3.x (position o) + medialDisplacement m)
                   (position o)) o) ;;
  update distalBone (fun o =>
    setPosition (Vector3.setZ (Vector3.z (position o) + anteriorDisplacement m)
                   (position o)) o) ;;
  update distalBone (fun o =>
    setPosition (Vector3.setY (Vector3.y (position o) - proximalDisplacement m)
                   (position o)) o) ;;
  (* Re-attach to scene *)
  attach scene distalBone ;;
  remove scene pivot.

(** The effect on [measurements], lines 141-179. *)
Definition measurementsEffect : M unit :=
  let* s := get in
  match sceneRef s, distalBoneRef s with
  | Some scene, Some _ =>
    updateBoneGeometries scene ;;
    let* s' := get in
    match distalBoneRef s' with
    | Some distalBone => applyDeformity scene distalBone
    | None => fail
    end
  | _, _ => ret tt
  end.

(** The mount effect, lines 81-138, as far as the scene graph goes: the scene,
    two lights, the grid and axes helpers, and the first pair of bones.  The
    camera and the renderer are never added to the scene. *)
Definition setupEffect : M unit :=
  let* scene := alloc (newObject3D None) in
  modify (setSceneRef (Some scene)) ;;
  let* ambientLight := alloc (newObject3D None) in
  add scene ambientLight ;;
  let* directionalLight := alloc (newObject3D None) in
  update directionalLight (setPosition (Vector3.mk 0 1 0)) ;;
  add scene directionalLight ;;
  let* gridHelper := alloc (newObject3D None) in
  update gridHelper (fun o =>
    setRotation (Euler.setX (PI / 2) (rotation o)) o) ;;
  add scene gridHelper ;;
  let* axesHelper := alloc (newObject3D None) in
  add scene axesHelper ;;
  updateBoneGeometries scene.

Definition initialState : State :=
  mkState initialMeasurements ∅ 0 None None None.

(** First render: both effects run, in the order they are declared. *)
Definition mount : option State :=
  match (setupEffect ;; measurementsEffect) initialState with
  | Some (_, s) => Some s
  | None => None
  end.

(** [setMeasurements(m)]: the next render has [measurements = m], and the
    effect that depends on it runs. *)
Definition setMeasurements (m : Measurements R) (s : State) : option State :=
  match (modify (setMeasurementsField m) ;; measurementsEffect) s with
  | Some (_, s') => Some s'
  | None => None
  end.

(** The state after mounting and then a sequence of measurement sets. *)
Fixpoint runFrom (s : State) (ms : list (Measurements R)) : option State :=
  match ms with
  | [] => Some s
  | m :: ms' =>
    match setMeasurements m s with
    | Some s' => runFrom s' ms'
    | None => None
    end
  end.

Definition run (ms : list (Measurements R)) : option State :=
  match mount with
  | Some s => runFrom s ms
  | None => None
  end.

(** World pose of the bone a ref points to. *)
Definition bonePose (ref : State -> option address) (s : State)
    : option (Vector3.t * Matrix3.t) :=
  match ref s with
  | Some b => worldPose s b
  | None => None
  end.

(** The placement of the distal bone in its three stages.  Lines 147-163:
    the pivot is created at the fracture site and added to the scene, the
    distal bone is reset and attached to the pivot. *)
Definition hangOnPivot (scene distalBone : address) : M address :=
  let* s := get in
  let m := measurements s in
  let* pivot := alloc (newObject3D None) in
  update pivot (setPositionY (- fracturePosition m)) ;;
  add scene pivot ;;
  let distalLength := fractureLength m - fracturePosition m in
  update distalBone
    (setPosition (Vector3.mk 0 (- fracturePosition m - distalLength / 2) 0)) ;;
  update distalBone (setRotation (Euler.mk 0 0 0)) ;;
  attach pivot distalBone ;;
  ret pivot.

(** Lines 165-173: the rotations of the pivot and the displacements of the
    bone under it. *)
Definition rotateAndDisplace (pivot distalBone : address) : M unit :=
  let* s := get in
  let m := measurements s in
  update pivot (fun o =>
    setRotation (Euler.setZ (toRad (valgusAngulation m)) (rotation o)) o) ;;
  update pivot (fun o =>
    setRotation (Euler.setX (toRad (anteversionAngulation m)) (rotation o)) o) ;;
  update pivot (fun o =>
    setRotation (Euler.setY (toRad (rotationalAngulation m)) (rotation o)) o) ;;
  update distalBone (fun o =>
    setPosition (Vector3.setX (Vector3.x (position o) + medialDisplacement m)
                   (position o)) o) ;;
  update distalBone (fun o =>
    setPosition (Vector3.setZ (Vector3.z (position o) + anteriorDisplacement m)
                   (position o)) o) ;;
  update distalBone (fun o =>
    setPosition (Vector3.setY (Vector3.y (position o) - proximalDisplacement m)
                   (position o)) o).

(** Lines 175-177: the bone goes back under the scene and the pivot is
    removed. *)
Definition backToScene (scene pivot distalBone : address) : M unit :=
  attach scene distalBone ;;
  remove scene pivot.

(** The mount effect with its guard on the container, line 82: without a
    container it returns before anything is created. *)
Definition setupEffectIn (container : bool) : M unit :=
  if container then setupEffect else ret tt.

Definition mountIn (container : bool) : option State :=
  match (setupEffectIn container ;; measurementsEffect) initialState with
  | Some (_, s) => Some s
  | None => None
  end.

Definition runIn (container : bool) (ms : list (Measurements R))
    : option State :=
  match mountIn container with
  | Some s => runFrom s ms
  | None => None
  end.

(** The camera.  It is never added to the scene, and [cameraRef] holds the
    only reference to it, so it is kept as a value beside the store, together
    with the React state [isAnteriorView] (typed variant, line 335). *)
Record View := mkView {
  isAnteriorView : bool;
  cameraRef : option Object3D }.

Definition initialView : View := mkView true None.

(** Camera setup in the mount effect, lines 90-98. *)
Definition setupCamera (v : View) : View :=
  let camera := setPosition (Vector3.mk 0 0 500) (newObject3D None) in
  mkView (isAnteriorView v) (Some (lookAt (Vector3.mk 0 (-150) 0) camera)).

(** [toggleView], lines 494-508 of the typed variant.  [isAnteriorView] is
    the value of the render the handler was created in; the state update
    takes effect in the next render. *)
Definition toggleView (v : View) : View :=
  match cameraRef v with
  | None => v
  | Some camera =>
    let camera1 :=
      if isAnteriorView v then setPosition (Vector3.mk 500 0 0) camera
      else setPosition (Vector3.mk 0 0 500) camera in
    mkView (negb (isAnteriorView v))
      (Some (lookAt (Vector3.mk 0 (-150) 0) camera1))
  end.

(* ====================================================================== *)
(** * Part IV: the measurement form                                        *)
(* ====================================================================== *)

(** The JavaScript built-ins that [handleMeasurementChange] calls. *)
Module JS.

(** A Number value: IEEE 754 binary64. *)
Definition number := spec_float.
Definition prec : Z := 53.
Definition emax : Z := 1024.

Definition NaN : number := S754_nan.
Definition zero : number := S754_zero false.

(** An integer literal. *)
Definition ofZ (z : Z) : number := binary_normalize prec emax z 0 false.

Definition isNaN (x : number) : bool :=
  match x with S754_nan => true | _ => false end.

(** [ToBoolean]: NaN, +0 and -0 are falsy. *)
Definition ToBoolean (x : number) : bool :=
  match x with
  | S754_nan | S754_zero _ => false
  | _ => true
  end.

(** [x || y] on numbers. *)
Definition logicalOr (x y : number) : number :=
  if ToBoolean x then x else y.

(** A String value: its UTF-16 code units. *)
Definition JSString := list N.

Definition ofString (s : string) : JSString :=
  map N_of_ascii (list_ascii_of_string s).

(** WhiteSpace and LineTerminator code units, as [TrimString] strips
    them. *)
Definition isWhiteSpace (c : N) : bool :=
  existsb (N.eqb c)
    [9; 10; 11; 12; 13; 32; 160; 5760; 8192; 8193; 8194; 8195; 8196; 8197;
     8198; 8199; 8200; 8201; 8202; 8232; 8233; 8239; 8287; 12288; 65279]%N.

Fixpoint trimStart (s : JSString) : JSString :=
  match s with
  | c :: s' => if isWhiteSpace c then trimStart s' else s
  | [] => []
  end.

Definition isDigit (c : N) : bool := (48 <=? c)%N && (c <=? 57)%N.

Fixpoint takeDigits (s : JSString) : list N * JSString :=
  match s with
  | c :: s' =>
    if isDigit c then let '(ds, r) := takeDigits s' in ((c - 48)%N :: ds, r)
    else ([], s)
  | [] => ([], [])
  end.

Definition digitsValue (ds : list N) : N :=
  fold_left (fun acc d => (10 * acc + d)%N) ds 0%N.

Fixpoint startsWith (p s : JSString) : bool :=
  match p, s with
  | [], _ => true
  | a :: p', b :: s' => N.eqb a b && startsWith p' s'
  | _ :: _, [] => false
  end.

(** DecimalDigits, as an integer. *)
Definition unsignedInteger (s : JSString) : option Z :=
  match takeDigits s with
  | ([], _) => None
  | (ds, _) => Some (Z.of_N (digitsValue ds))
  end.

(** The value of the ExponentPart at the head of [s]; 0 when there is none
    (an [e] that no digit follows is not part of the literal). *)
Definition scanExponent (s : JSString) : Z :=
  match s with
  | c :: s1 =>
    if N.eqb c 101 || N.eqb c 69 then
      match s1 with
      | 43%N :: s2 => match unsignedInteger s2 with Some v => v | None => 0%Z end
      | 45%N :: s2 =>
        match unsignedInteger s2 with Some v => (- v)%Z | None => 0%Z end
      | _ => match unsignedInteger s1 with Some v => v | None => 0%Z end
      end
    else 0%Z
  | [] => 0%Z
  end.

(** What the longest StrUnsignedDecimalLiteral prefix denotes:
    [mantissa * 10 ^ exponent], or Infinity. *)
Inductive literal :=
| LitInfinity
| LitDecimal (mantissa : N) (exponent : Z).

Definition scanUnsigned (s : JSString) : option literal :=
  if startsWith (ofString "Infinity") s then Some LitInfinity
  else
    let '(ip, r1) := takeDigits s in
    match r1 with
    | 46%N :: r2 =>
      let '(fp, r3) := takeDigits r2 in
      match ip, fp with
      | [], [] => None
      | _, _ =>
        Some (LitDecimal (digitsValue (ip ++ fp))
                (scanExponent r3 - Z.of_nat (List.length fp)))
      end
    | _ =>
      match ip with
      | [] => None
      | _ => Some (LitDecimal (digitsValue ip) (scanExponent r1))
      end
    end.

(** The Number value of [(-1)^neg * m * 10^e]: round to nearest, ties to
    even. *)
Definition decimalToNumber (neg : bool) (m : N) (e : Z) : number :=
  match m with
  | N0 => S754_zero neg
  | Npos p =>
    match e with
    | Zneg k =>
      let '(q, e', l) :=
        SFdiv_core_binary prec emax (Zpos p) 0 (Z.pow_pos 10 k) 0 in
      binary_round_aux prec emax neg q e' l
    | _ => binary_round prec emax neg (Pos.mul p (Z.to_pos (10 ^ e))) 0
    end
  end.

(** The optional sign of a StrDecimalLiteral: whether it is [-], and what
    follows it. *)
Definition stripSign (t : JSString) : bool * JSString :=
  match t with
  | 43%N :: r => (false, r)
  | 45%N :: r => (true, r)
  | _ => (false, t)
  end.

(** The global [parseFloat]: trim leading white space, read the longest
    prefix that is a StrDecimalLiteral, NaN when there is none. *)
Definition parseFloat (s : JSString) : number :=
  let '(neg, u) := stripSign (trimStart s) in
  match scanUnsigned u with
  | None => NaN
  | Some LitInfinity => S754_infinity neg
  | Some (LitDecimal m e) => decimalToNumber neg m e
  end.

End JS.

(** [handleMeasurementChange(key, value)], lines 181-186: the updater passed
    to [setMeasurements], applied to the previous state. *)
Definition handleMeasurementChange (key : MeasurementKey) (value : JS.JSString)
    (prev : Measurements JS.number) : Measurements JS.number :=
  setField key (JS.logicalOr (JS.parseFloat value) JS.zero) prev.

Definition initialMeasurementsJS : Measurements JS.number :=
  initialMeasurementsOf JS.ofZ.

(** The form state after a sequence of edits. *)
Definition afterEdits (edits : list (MeasurementKey * JS.JSString))
    : Measurements JS.number :=
  fold_left (fun m e => handleMeasurementChange (fst e) (snd e) m) edits
    initialMeasurementsJS.

(* ====================================================================== *)
(** * Part V: vocabulary of the specification                              *)
(* ====================================================================== *)

Definition transpose (a : Matrix3.t) : Matrix3.t :=
  Matrix3.mk (Matrix3.n11 a) (Matrix3.n21 a) (Matrix3.n31 a)
             (Matrix3.n12 a) (Matrix3.n22 a) (Matrix3.n32 a)
             (Matrix3.n13 a) (Matrix3.n23 a) (Matrix3.n33 a).

(** Proper rotations: orthonormal columns and determinant 1. *)
Definition isRotation (q : Matrix3.t) : Prop :=
  Matrix3.multiply (transpose q) q = Matrix3.identity /\
  Matrix3.determinant q = 1.

(** The scene itself: no parent and the identity transform. *)
Definition isRoot (o : Object3D) : Prop :=
  parent o = None /\ position o = Vector3.zero /\
  quaternion o = Matrix3.identity /\ scale o = Vector3.one.

(** What every state of the mounted component satisfies: [sceneRef] points
    to the scene, whose children are allocated, and the store holds exactly
    the addresses handed out so far. *)
Definition Inv (sc : address) (s : State) : Prop :=
  sceneRef s = Some sc /\
  (exists root, heap s !! sc = Some root /\ isRoot root /\
     Forall (fun i => (i < nextId s)%nat) (children root)) /\
  (forall i : nat, is_Some (heap s !! i) <-> (i < nextId s)%nat).

(** The fracture site, where the pivot is put. *)
Definition pivotPosition (m : Measurements R) : Vector3.t :=
  Vector3.mk 0 (- fracturePosition m) 0.

(** The undisplaced position of the distal bone. *)
Definition anatomicalPosition (m : Measurements R) : Vector3.t :=
  Vector3.mk 0
    (- fracturePosition m - (fractureLength m - fracturePosition m) / 2) 0.

(** The pivot's Euler angles once its three components are written. *)
Definition pivotEuler (m : Measurements R) : Euler.t :=
  Euler.mk (toRad (anteversionAngulation m)) (toRad (rotationalAngulation m))
    (toRad (valgusAngulation m)).

Definition pivotRotation (m : Measurements R) : Matrix3.t :=
  Euler.makeRotationFromEuler (pivotEuler m).

(** The three displacements as the code adds them to the local position. *)
Definition displacement (m : Measurements R) : Vector3.t :=
  Vector3.mk (medialDisplacement m) (- proximalDisplacement m)
    (anteriorDisplacement m).

(** Position of the distal bone in the pivot's frame, displacements added. *)
Definition distalLocalPosition (m : Measurements R) : Vector3.t :=
  Vector3.add (Vector3.sub (anatomicalPosition m) (pivotPosition m))
    (displacement m).

Definition distalWorldPosition (m : Measurements R) : Vector3.t :=
  Vector3.add (Matrix3.apply (pivotRotation m) (distalLocalPosition m))
    (pivotPosition m).

(** The distal bone [od] once placed: a child of the scene again. *)
Definition placed (sc : address) (m : Measurements R) (od : Object3D) : Object3D :=
  setParent (Some sc)
    (setScale Vector3.one
       (setQuaternion (pivotRotation m)
          (setPosition (distalWorldPosition m) od))).

(** The two meshes as [updateBoneGeometries] leaves them. *)
Definition proximalMesh (sc : address) (m : Measurements R) : Object3D :=
  mkObject3D (Some sc) [] (Vector3.mk 0 (- fracturePosition m / 2) 0)
    Euler.zero Matrix3.identity Vector3.one
    (Some (mkCylinderGeometry radius (radius * (9 / 10)) (fracturePosition m)
             radialSegmentsOfBone)).

Definition distalMesh (sc : address) (m : Measurements R) : Object3D :=
  mkObject3D (Some sc) [] (anatomicalPosition m)
    Euler.zero Matrix3.identity Vector3.one
    (Some (mkCylinderGeometry (radius * (9 / 10)) (radius * (8 / 10))
             (fractureLength m - fracturePosition m) radialSegmentsOfBone)).

(** A state in which the effect on [measurements] has run. *)
Definition Good (sc p d : address) (s : State) : Prop :=
  Inv sc s /\ proximalBoneRef s = Some p /\ distalBoneRef s = Some d /\
  heap s !! p = Some (proximalMesh sc (measurements s)) /\
  heap s !! d =
    Some (placed sc (measurements s) (distalMesh sc (measurements s))) /\
  (exists root, heap s !! sc = Some root /\ In d (children root)).

(** The object a ref points to. *)
Definition boneObject (ref : State -> option address) (s : State)
    : option Object3D :=
  match ref s with
  | Some b => heap s !! b
  | None => None
  end.

(** [updateBoneGeometries] run on its own in a render whose measurement set
    is [m] (the specification's [rebuildGeometry]). *)
Definition rebuildGeometry (m : Measurements R) (s : State) : option State :=
  match sceneRef s with
  | Some scene =>
    match updateBoneGeometries scene (setMeasurementsField m s) with
    | Some (_, s') => Some s'
    | None => None
    end
  | None => None
  end.

(** World poses of the two bones once the component has been mounted and has
    gone through the measurement sets [ms]. *)
Definition proximalPoseAfter (ms : list (Measurements R))
    : option (Vector3.t * Matrix3.t) :=
  match run ms with
  | Some s => bonePose proximalBoneRef s
  | None => None
  end.

Definition distalPoseAfter (ms : list (Measurements R))
    : option (Vector3.t * Matrix3.t) :=
  match run ms with
  | Some s => bonePose distalBoneRef s
  | None => None
  end.

(** The composition the specification words: Z (valgus), then X
    (anteversion), then Y (long-axis rotation).  Read about the fixed axes of
    the parent frame the later rotation multiplies on the left, read about
    the axes the object carries along it multiplies on the right. *)
Definition specRotationFixedAxes (m : Measurements R) : Matrix3.t :=
  Matrix3.multiply (Matrix3.makeRotationY (toRad (rotationalAngulation m)))
    (Matrix3.multiply
       (Matrix3.makeRotationX (toRad (anteversionAngulation m)))
       (Matrix3.makeRotationZ (toRad (valgusAngulation m)))).

Definition specRotationMovingAxes (m : Measurements R) : Matrix3.t :=
  Matrix3.multiply (Matrix3.makeRotationZ (toRad (valgusAngulation m)))
    (Matrix3.multiply
       (Matrix3.makeRotationX (toRad (anteversionAngulation m)))
       (Matrix3.makeRotationY (toRad (rotationalAngulation m)))).

(** The six products of the three single-axis rotations of a measurement
    set, named by the order of the factors. *)
Inductive AxisOrder := XYZ | XZY | YXZ | YZX | ZXY | ZYX.

Definition composeInOrder (o : AxisOrder) (m : Measurements R) : Matrix3.t :=
  let rx := Matrix3.makeRotationX (toRad (anteversionAngulation m)) in
  let ry := Matrix3.makeRotationY (toRad (rotationalAngulation m)) in
  let rz := Matrix3.makeRotationZ (toRad (valgusAngulation m)) in
  match o with
  | XYZ => Matrix3.multiply rx (Matrix3.multiply ry rz)
  | XZY => Matrix3.multiply rx (Matrix3.multiply rz ry)
  | YXZ => Matrix3.multiply ry (Matrix3.multiply rx rz)
  | YZX => Matrix3.multiply ry (Matrix3.multiply rz rx)
  | ZXY => Matrix3.multiply rz (Matrix3.multiply rx ry)
  | ZYX => Matrix3.multiply rz (Matrix3.multiply ry rx)
  end.

(** The three components of [pivot.rotation], and the assignment the effect
    makes to each of them (lines 166-168). *)
Inductive Axis := AxisX | AxisY | AxisZ.

Definition assignRotation (a : Axis) (m : Measurements R) (o : Object3D)
    : Object3D :=
  match a with
  | AxisX =>
    setRotation (Euler.setX (toRad (anteversionAngulation m)) (rotation o)) o
  | AxisY =>
    setRotation (Euler.setY (toRad (rotationalAngulation m)) (rotation o)) o
  | AxisZ =>
    setRotation (Euler.setZ (toRad (valgusAngulation m)) (rotation o)) o
  end.

(** An order read as an order of assignment: first, second and third
    component written. *)
Definition axesOf (o : AxisOrder) : Axis * Axis * Axis :=
  match o with
  | XYZ => (AxisX, AxisY, AxisZ)
  | XZY => (AxisX, AxisZ, AxisY)
  | YXZ => (AxisY, AxisX, AxisZ)
  | YZX => (AxisY, AxisZ, AxisX)
  | ZXY => (AxisZ, AxisX, AxisY)
  | ZYX => (AxisZ, AxisY, AxisX)
  end.

(** The placement with the three components of [pivot.rotation] assigned in
    the order [order]; the source assigns z, then x, then y, which is
    [applyDeformityAssigning ZXY]. *)
Definition applyDeformityAssigning (order : AxisOrder)
    (scene distalBone : address) : M unit :=
  let '(a1, a2, a3) := axesOf order in
  let* s := get in
  let m := measurements s in
  let* pivot := alloc (newObject3D None) in
  update pivot (setPositionY (- fracturePosition m)) ;;
  add scene pivot ;;
  let distalLength := fractureLength m - fracturePosition m in
  update distalBone
    (setPosition (Vector3.mk 0 (- fracturePosition m - distalLength / 2) 0)) ;;
  update distalBone (setRotation (Euler.mk 0 0 0)) ;;
  attach pivot distalBone ;;
  update pivot (assignRotation a1 m) ;;
  update pivot (assignRotation a2 m) ;;
  update pivot (assignRotation a3 m) ;;
  update distalBone (fun o =>
    setPosition (Vector3.setX (Vector3.x (position o) + medialDisplacement m)
                   (position o)) o) ;;
  update distalBone (fun o =>
    setPosition (Vector3.setZ (Vector3.z (position o) + anteriorDisplacement m)
                   (position o)) o) ;;
  update distalBone (fun o =>
    setPosition (Vector3.setY (Vector3.y (position o) - proximalDisplacement m)
                   (position o)) o) ;;
  attach scene distalBone ;;
  remove scene pivot.

(** [m] with its three displacement fields set to 0. *)
Definition withoutDisplacement (m : Measurements R) : Measurements R :=
  mkMeasurements (fractureLength m) (fracturePosition m) 0 0 0
    (valgusAngulation m) (anteversionAngulation m) (rotationalAngulation m).

(** A measurement set with all three angulations at 90 degrees. *)
Definition combined90 : Measurements R :=
  mkMeasurements 300 150 0 0 0 90 90 90.

(** The two meshes [rebuildGeometry] leaves behind when it runs for [m]
    after the measurement sets [ms]. *)
Definition rebuiltBones (ms : list (Measurements R)) (m : Measurements R)
    : option (Object3D * Object3D) :=
  match run ms with
  | Some s0 =>
    match rebuildGeometry m s0 with
    | Some s1 =>
      match boneObject proximalBoneRef s1, boneObject distalBoneRef s1 with
      | Some p, Some d => Some (p, d)
      | _, _ => None
      end
    | None => None
    end
  | None => None
  end.

(** The pivot once the placement is over: detached, without children, still
    at the fracture site and turned by the three angulations. *)
Definition spentPivot (m : Measurements R) : Object3D :=
  mkObject3D None [] (pivotPosition m) (pivotEuler m) (pivotRotation m)
    Vector3.one None.

(** The four objects the mount effect adds to the scene before the bones. *)
Definition ambientLight (sc : address) : Object3D :=
  setParent (Some sc) (newObject3D None).
Definition directionalLight (sc : address) : Object3D :=
  setParent (Some sc) (setPosition (Vector3.mk 0 1 0) (newObject3D None)).
Definition gridHelper (sc : address) : Object3D :=
  setParent (Some sc)
    (setRotation (Euler.setX (PI / 2) Euler.zero) (newObject3D None)).
Definition axesHelper (sc : address) : Object3D :=
  setParent (Some sc) (newObject3D None).

(** A scene graph without leftovers: the scene (address 0) has exactly six
    children, the two lights and the two helpers as they were created and the
    two bones the refs point to; every other object, the scene apart, has no
    parent; and no object other than the scene has children. *)
Definition Tidy (p d : address) (s : State) : Prop :=
  sceneRef s = Some 0%nat /\ proximalBoneRef s = Some p /\
  distalBoneRef s = Some d /\ (4 < p)%nat /\ (p < d)%nat /\
  (d < nextId s)%nat /\
  (exists root, heap s !! 0%nat = Some root /\ isRoot root /\
                children root = [1; 2; 3; 4; p; d]%nat) /\
  heap s !! 1%nat = Some (ambientLight 0) /\
  heap s !! 2%nat = Some (directionalLight 0) /\
  heap s !! 3%nat = Some (gridHelper 0) /\
  heap s !! 4%nat = Some (axesHelper 0) /\
  (forall (i : nat) o, heap s !! i = Some o -> i <> 0%nat ->
     children o = [] /\
     parent o = if existsb (Nat.eqb i) [1; 2; 3; 4; p; d]%nat
                then Some 0%nat else None) /\
  (forall i : nat, is_Some (heap s !! i) <-> (i < nextId s)%nat).

(** The centres of the two end caps of a cylinder, in its own frame: the cap
    of radius [radiusTop] is at y = height / 2. *)
Definition topCentre (g : CylinderGeometry) : Vector3.t :=
  Vector3.mk 0 (height g / 2) 0.
Definition bottomCentre (g : CylinderGeometry) : Vector3.t :=
  Vector3.mk 0 (- (height g / 2)) 0.

(** Where in the world an end of a bone is, once the component has been
    mounted and has gone through the measurement sets [ms]. *)
Definition boneEndAfter (ref : State -> option address)
    (e : CylinderGeometry -> Vector3.t) (ms : list (Measurements R))
    : option Vector3.t :=
  match run ms with
  | Some s =>
    match boneObject ref s, ref s with
    | Some o, Some b =>
      match geometry o with
      | Some g => localToWorld s b (e g)
      | None => None
      end
    | _, _ => None
    end
  | None => None
  end.


(** The measurement set of the mirror image in the plane x = 0: medial and
    lateral, valgus and varus, and the two senses of the long-axis rotation
    change places. *)
Definition mirrored (m : Measurements R) : Measurements R :=
  mkMeasurements (fractureLength m) (fracturePosition m)
    (- medialDisplacement m) (anteriorDisplacement m) (proximalDisplacement m)
    (- valgusAngulation m) (anteversionAngulation m)
    (- rotationalAngulation m).

Definition reflectX (v : Vector3.t) : Vector3.t :=
  Vector3.mk (- Vector3.x v) (Vector3.y v) (Vector3.z v).

(** A rotation seen in that mirror: S * q * S with S = diag(-1, 1, 1). *)
Definition reflectRotationX (q : Matrix3.t) : Matrix3.t :=
  Matrix3.mk (Matrix3.n11 q) (- Matrix3.n12 q) (- Matrix3.n13 q)
             (- Matrix3.n21 q) (Matrix3.n22 q) (Matrix3.n23 q)
             (- Matrix3.n31 q) (Matrix3.n32 q) (Matrix3.n33 q).

(** The two places of the camera, and its distance from the point
    (0, -150, 0) it is aimed at in both. *)
Definition viewPosition (anterior : bool) : Vector3.t :=
  if anterior then Vector3.mk 0 0 500 else Vector3.mk 500 0 0.

Definition viewDistance : R := sqrt 272500.

(** A camera put at [p] and aimed at (0, -150, 0). *)
Definition cameraAt (p : Vector3.t) : Object3D :=
  lookAt (Vector3.mk 0 (-150) 0) (setPosition p (newObject3D None)).

(** The string of the last edit to the field [k], if there was one. *)
Definition lastEdit (k : MeasurementKey)
    (edits : list (MeasurementKey * JS.JSString)) : option JS.JSString :=
  fold_left (fun acc e => if decide (fst e = k) then Some (snd e) else acc)
    edits None.

(** Whether the code unit [x] can continue a literal that so far consists of
    digits: a digit, the decimal point, or the [e] of an exponent. *)
Definition continuesLiteral (x : N) : bool :=
  JS.isDigit x || N.eqb x 46 || N.eqb x 101 || N.eqb x 69.

(* ====================================================================== *)
(** * Part VI: lemmas                                                     *)
(* ====================================================================== *)

(* ---------------------------------------------------------------------- *)
(** ** Vectors, matrices and rotations *)
(* ---------------------------------------------------------------------- *)

(** Records of reals are equal when their fields are. *)
Lemma Vector3_ext (a b : Vector3.t) :
  Vector3.x a = Vector3.x b -> Vector3.y a = Vector3.y b ->
  Vector3.z a = Vector3.z b -> a = b.
Proof. destruct a, b; simpl; intros; subst; reflexivity. Qed.

Lemma Matrix3_ext (a b : Matrix3.t) :
  Matrix3.n11 a = Matrix3.n11 b -> Matrix3.n12 a = Matrix3.n12 b ->
  Matrix3.n13 a = Matrix3.n13 b -> Matrix3.n21 a = Matrix3.n21 b ->
  Matrix3.n22 a = Matrix3.n22 b -> Matrix3.n23 a = Matrix3.n23 b ->
  Matrix3.n31 a = Matrix3.n31 b -> Matrix3.n32 a = Matrix3.n32 b ->
  Matrix3.n33 a = Matrix3.n33 b -> a = b.
Proof. destruct a, b; simpl; intros; subst; reflexivity. Qed.

Ltac mat3 := apply Matrix3_ext; cbn -[cos sin PI Rplus Rmult Rminus Ropp Rinv Rdiv IZR]; try ring.

Ltac vec3 := apply Vector3_ext; cbn -[cos sin PI Rplus Rmult Rminus Ropp Rinv Rdiv IZR]; try ring.

Lemma multiply_assoc a b c :
  Matrix3.multiply (Matrix3.multiply a b) c = Matrix3.multiply a (Matrix3.multiply b c).
Proof. mat3. Qed.

Lemma multiply_identity_l a : Matrix3.multiply Matrix3.identity a = a.
Proof. mat3. Qed.

Lemma multiply_identity_r a : Matrix3.multiply a Matrix3.identity = a.
Proof. mat3. Qed.

Lemma transpose_multiply a b :
  transpose (Matrix3.multiply a b) = Matrix3.multiply (transpose b) (transpose a).
Proof. mat3. Qed.

Lemma determinant_multiply a b :
  Matrix3.determinant (Matrix3.multiply a b) = Matrix3.determinant a * Matrix3.determinant b.
Proof. unfold Matrix3.determinant. cbn. ring. Qed.

Lemma apply_identity v : Matrix3.apply Matrix3.identity v = v.
Proof. vec3. Qed.

Lemma scaleColumns_one a : Matrix3.scaleColumns a Vector3.one = a.
Proof. mat3. Qed.

Lemma isRotation_identity : isRotation Matrix3.identity.
Proof. split; [mat3 | unfold Matrix3.determinant; cbn; ring]. Qed.

Lemma isRotation_multiply a b : isRotation a -> isRotation b -> isRotation (Matrix3.multiply a b).
Proof.
  intros [Ha Da] [Hb Db]. split.
  - rewrite transpose_multiply, multiply_assoc, <- (multiply_assoc (transpose a)), Ha,
      multiply_identity_l. exact Hb.
  - rewrite determinant_multiply, Da, Db. ring.
Qed.

Lemma sin_cos_squares a : sin a * sin a + cos a * cos a = 1.
Proof. exact (sin2_cos2 a). Qed.

Lemma isRotation_X a : isRotation (Matrix3.makeRotationX a).
Proof.
  pose proof (sin_cos_squares a).
  split; [apply Matrix3_ext; cbn; try ring; lra | unfold Matrix3.determinant; cbn; lra].
Qed.

Lemma isRotation_Y a : isRotation (Matrix3.makeRotationY a).
Proof.
  pose proof (sin_cos_squares a).
  split; [apply Matrix3_ext; cbn; try ring; lra | unfold Matrix3.determinant; cbn; lra].
Qed.

Lemma isRotation_Z a : isRotation (Matrix3.makeRotationZ a).
Proof.
  pose proof (sin_cos_squares a).
  split; [apply Matrix3_ext; cbn; try ring; lra | unfold Matrix3.determinant; cbn; lra].
Qed.

(** The matrix of an Euler triple in order XYZ is the product of the three
    single-axis rotations with the X rotation on the left. *)
Lemma makeRotationFromEuler_XYZ e :
  Euler.makeRotationFromEuler e =
  Matrix3.multiply (Matrix3.makeRotationX (Euler.x e))
    (Matrix3.multiply (Matrix3.makeRotationY (Euler.y e))
       (Matrix3.makeRotationZ (Euler.z e))).
Proof. apply Matrix3_ext; cbn; ring. Qed.

Lemma isRotation_Euler e : isRotation (Euler.makeRotationFromEuler e).
Proof.
  rewrite makeRotationFromEuler_XYZ.
  auto using isRotation_multiply, isRotation_X, isRotation_Y, isRotation_Z.
Qed.

Lemma makeRotationFromEuler_zero :
  Euler.makeRotationFromEuler (Euler.mk 0 0 0) = Matrix3.identity.
Proof.
  unfold Euler.makeRotationFromEuler. cbn [Euler.x Euler.y Euler.z].
  rewrite cos_0, sin_0. apply Matrix3_ext; cbn; ring.
Qed.

(** A rigid matrix decomposes into its own parts, with unit scale. *)
Lemma decompose_rotation q t :
  isRotation q -> Matrix4.decompose (Matrix4.mk q t) = (t, q, Vector3.one).
Proof.
  intros [Ho Hd]. unfold Matrix4.decompose. cbn [Matrix4.linear Matrix4.translation].
  assert (H1 : Vector3.length (Matrix3.column1 q) = 1).
  { unfold Vector3.length; cbn.
    apply (f_equal Matrix3.n11) in Ho. cbn in Ho. rewrite Ho. apply sqrt_1. }
  assert (H2 : Vector3.length (Matrix3.column2 q) = 1).
  { unfold Vector3.length; cbn.
    apply (f_equal Matrix3.n22) in Ho. cbn in Ho. rewrite Ho. apply sqrt_1. }
  assert (H3 : Vector3.length (Matrix3.column3 q) = 1).
  { unfold Vector3.length; cbn.
    apply (f_equal Matrix3.n33) in Ho. cbn in Ho. rewrite Ho. apply sqrt_1. }
  rewrite H1, H2, H3, Hd.
  destruct (Rlt_dec 1 0) as [Hlt|_]; [lra|].
  rewrite Rinv_1. f_equal. f_equal. apply Matrix3_ext; cbn; ring.
Qed.

Lemma invert_identity : Matrix3.invert Matrix3.identity = Matrix3.identity.
Proof.
  unfold Matrix3.invert, Matrix3.determinant. cbn.
  replace (1 * (1 * 1 - 0 * 0) - 0 * (0 * 1 - 0 * 0) + 0 * (0 * 0 - 1 * 0)) with 1 by ring.
  rewrite Rinv_1. apply Matrix3_ext; cbn; ring.
Qed.

Lemma Matrix4_invert_translation t :
  Matrix4.invert (Matrix4.mk Matrix3.identity t) = Matrix4.mk Matrix3.identity (Vector3.negate t).
Proof.
  unfold Matrix4.invert. cbn [Matrix4.linear Matrix4.translation].
  rewrite invert_identity, apply_identity. reflexivity.
Qed.

Lemma Matrix4_multiply_identity_l m : Matrix4.multiply Matrix4.identity m = m.
Proof.
  destruct m as [l t]. unfold Matrix4.multiply, Matrix4.identity.
  cbn [Matrix4.linear Matrix4.translation]. rewrite multiply_identity_l, apply_identity.
  f_equal. apply Vector3_ext; cbn; ring.
Qed.

Lemma Matrix4_multiply_id_l m :
  Matrix4.multiply (Matrix4.mk Matrix3.identity (Vector3.mk 0 0 0)) m = m.
Proof. apply Matrix4_multiply_identity_l. Qed.

Lemma matrix_rigid o :
  scale o = Vector3.one -> matrix o = Matrix4.mk (quaternion o) (position o).
Proof.
  intros Hs. unfold matrix, Matrix4.compose. rewrite Hs, scaleColumns_one. reflexivity.
Qed.

Lemma matrix_root r : isRoot r -> matrix r = Matrix4.identity.
Proof.
  intros (_ & Hp & Hq & Hs). rewrite matrix_rigid by exact Hs. rewrite Hp, Hq. reflexivity.
Qed.

(** [applyMatrix4] by a rigid matrix on a rigid object. *)
Lemma applyMatrix4_rigid q t o :
  isRotation q -> isRotation (quaternion o) -> scale o = Vector3.one ->
  applyMatrix4 (Matrix4.mk q t) o =
  setScale Vector3.one
    (setQuaternion (Matrix3.multiply q (quaternion o))
       (setPosition (Vector3.add (Matrix3.apply q (position o)) t) o)).
Proof.
  intros Hq Ho Hs. unfold applyMatrix4. rewrite (matrix_rigid o Hs).
  unfold Matrix4.multiply. cbn [Matrix4.linear Matrix4.translation].
  rewrite decompose_rotation by (apply isRotation_multiply; assumption).
  reflexivity.
Qed.

(** The matrix [attach] applies when the new parent is only translated. *)
Lemma applyMatrix4_from_translated ta qb tb o :
  isRotation qb -> quaternion o = Matrix3.identity -> scale o = Vector3.one ->
  applyMatrix4
    (Matrix4.multiply (Matrix4.invert (Matrix4.mk Matrix3.identity ta))
       (Matrix4.mk qb tb)) o =
  setScale Vector3.one
    (setQuaternion qb
       (setPosition
          (Vector3.add (Matrix3.apply qb (position o)) (Vector3.sub tb ta)) o)).
Proof.
  intros Hq Ho Hs. rewrite Matrix4_invert_translation.
  unfold Matrix4.multiply. cbn [Matrix4.linear Matrix4.translation].
  rewrite multiply_identity_l, apply_identity.
  rewrite applyMatrix4_rigid; [ | exact Hq | rewrite Ho; apply isRotation_identity | exact Hs ].
  rewrite Ho, multiply_identity_r. reflexivity.
Qed.

(* ---------------------------------------------------------------------- *)
(** ** Running the operations of the store *)
(* ---------------------------------------------------------------------- *)

(** Symbolic execution.  [st] computes the projections of an explicit state
    and [ob] those of explicit objects; [norm] does both and merges repeated
    writes to one address; [lk] solves a lookup in a store given by writes. *)
Ltac st := cbv beta iota delta [heap nextId measurements sceneRef proximalBoneRef
  distalBoneRef setHeap setSceneRef setProximalBoneRef setDistalBoneRef
  setMeasurementsField].

Ltac ob := cbv beta iota delta [newObject3D setParent setChildren setPosition
  setPositionY setRotation setQuaternion setScale parent children position
  rotation quaternion scale geometry Vector3.setX Vector3.setY Vector3.setZ
  Vector3.x Vector3.y Vector3.z Euler.setX Euler.setY Euler.setZ Euler.x
  Euler.y Euler.z Euler.zero Vector3.zero Vector3.one Vector3.add
  Vector3.sub Vector3.negate].

Ltac norm := st; ob; rewrite ?insert_insert_eq.

Ltac st_in_all := cbv beta iota delta [heap nextId measurements sceneRef
  proximalBoneRef distalBoneRef setHeap setSceneRef setProximalBoneRef
  setDistalBoneRef setMeasurementsField] in *.

Ltac lk := st;
  repeat first [ rewrite lookup_insert_eq | rewrite lookup_insert_ne by lia ];
  first [ reflexivity | eassumption ].

(** One step of a computation: run [c], continue with [k]. *)
Lemma bind_run {A B} (c : M A) (k : A -> M B) s a s1 r :
  c s = Some (a, s1) -> k a s1 = r -> bind c k s = r.
Proof. intros H1 H2. unfold bind. rewrite H1. exact H2. Qed.

Lemma update_run i f s o :
  heap s !! i = Some o ->
  update i f s = Some (tt, setHeap (<[i := f o]> (heap s)) (nextId s) s).
Proof. intros H. unfold update. rewrite H. reflexivity. Qed.

Lemma read_run i s o : heap s !! i = Some o -> read i s = Some (o, s).
Proof. intros H. unfold read. rewrite H. reflexivity. Qed.

Lemma existsb_eqb_In (b : nat) l : existsb (Nat.eqb b) l = true <-> In b l.
Proof.
  rewrite existsb_exists. split.
  - intros [x [Hin Heq]]. apply Nat.eqb_eq in Heq. subst. exact Hin.
  - intros Hin. exists b. split; [exact Hin | apply Nat.eqb_refl].
Qed.

Lemma Forall_spliceFirst (P : nat -> Prop) b l : Forall P l -> Forall P (spliceFirst b l).
Proof.
  induction 1 as [|x l Hx Hl IH]; simpl; [constructor|].
  destruct (Nat.eqb x b); [exact Hl | constructor; assumption].
Qed.

Lemma In_spliceFirst_ne (x b : nat) l : x <> b -> In x l -> In x (spliceFirst b l).
Proof.
  intros Hne. induction l as [|y l IH]; simpl; [tauto|].
  intros [->|Hin].
  - rewrite (proj2 (Nat.eqb_neq x b) Hne). left. reflexivity.
  - destruct (Nat.eqb y b); [exact Hin | right; apply IH; exact Hin].
Qed.

Lemma isRoot_setParent_None o : isRoot o -> isRoot (setParent None o).
Proof. intros (?&?&?&?). repeat split; assumption. Qed.

Lemma isRoot_setChildren c o : isRoot o -> isRoot (setChildren c o).
Proof. intros (?&?&?&?). repeat split; assumption. Qed.

Lemma setHeap_id s : setHeap (heap s) (nextId s) s = s.
Proof. destruct s; reflexivity. Qed.

Lemma dom_insert_existing (h : gmap nat Object3D) (n : nat) i o :
  is_Some (h !! i) ->
  (forall j : nat, is_Some (h !! j) <-> (j < n)%nat) ->
  forall j : nat, is_Some (<[i := o]> h !! j) <-> (j < n)%nat.
Proof.
  intros Hi Hdom j. rewrite lookup_insert_is_Some. rewrite <- Hdom.
  split.
  - intros [->|[_ H]]; assumption.
  - intros H. destruct (decide (i = j)); [left; assumption | right; split; assumption].
Qed.

Lemma matrixWorld_root (h : gmap nat Object3D) fuel sc root :
  h !! sc = Some root -> parent root = None ->
  matrixWorld h (S fuel) sc = Some (matrix root).
Proof. intros H1 H2. cbn [matrixWorld]. rewrite H1, H2. reflexivity. Qed.

Lemma matrixWorld_child (h : gmap nat Object3D) fuel i o p pw :
  h !! i = Some o -> parent o = Some p -> matrixWorld h fuel p = Some pw ->
  matrixWorld h (S fuel) i = Some (Matrix4.multiply pw (matrix o)).
Proof. intros H1 H2 H3. cbn [matrixWorld]. rewrite H1, H2, H3. reflexivity. Qed.

Lemma updateWorldMatrix_run i s m :
  matrixWorld (heap s) (nextId s) i = Some m -> updateWorldMatrix i s = Some (m, s).
Proof. intros H. unfold updateWorldMatrix. rewrite H. reflexivity. Qed.

Lemma remove_in_run this object s t o :
  heap s !! this = Some t -> In object (children t) -> object <> this ->
  heap s !! object = Some o ->
  remove this object s =
  Some (tt, setHeap
    (<[this := setChildren (spliceFirst object (children t)) t]>
       (<[object := setParent None o]> (heap s))) (nextId s) s).
Proof.
  intros Ht Hin Hne Ho. unfold remove.
  eapply bind_run; [apply read_run; exact Ht|].
  rewrite (proj2 (existsb_eqb_In object (children t)) Hin).
  eapply bind_run; [apply update_run; exact Ho|].
  erewrite update_run by (st; rewrite lookup_insert_ne by exact Hne; exact Ht).
  destruct s; reflexivity.
Qed.

Lemma add_fresh_run this object s t o :
  object <> this -> heap s !! object = Some o -> parent o = None ->
  heap s !! this = Some t ->
  add this object s =
  Some (tt, setHeap
    (<[this := setChildren (children t ++ [object]) t]>
       (<[object := setParent (Some this) o]> (heap s))) (nextId s) s).
Proof.
  intros Hne Ho Hp Ht. unfold add.
  rewrite (proj2 (Nat.eqb_neq object this) Hne).
  eapply bind_run.
  { unfold removeFromParent. eapply bind_run; [apply read_run; exact Ho|].
    rewrite Hp. reflexivity. }
  eapply bind_run; [apply update_run; exact Ho|].
  erewrite update_run by (st; rewrite lookup_insert_ne by exact Hne; exact Ht).
  destruct s; reflexivity.
Qed.

(** [attach] when [object] is a child of [p], a different object from
    [this]: [o'] is [object] after [applyMatrix4]. *)
Lemma attach_run this object s mw o p pw po t o' :
  matrixWorld (heap s) (nextId s) this = Some mw ->
  heap s !! object = Some o -> parent o = Some p ->
  matrixWorld (heap s) (nextId s) p = Some pw ->
  heap s !! p = Some po -> In object (children po) ->
  heap s !! this = Some t ->
  object <> p -> object <> this -> this <> p ->
  applyMatrix4 (Matrix4.multiply (Matrix4.invert mw) pw) o = o' ->
  attach this object s =
  Some (tt, setHeap
    (<[this := setChildren (children t ++ [object]) t]>
       (<[object := setParent (Some this) o']>
          (<[p := setChildren (spliceFirst object (children po)) po]>
             (heap s)))) (nextId s) s).
Proof.
  intros Hmw Ho Hp Hpw Hpo Hin Ht Hop Hot Htp Happ. unfold attach.
  eapply bind_run; [apply updateWorldMatrix_run; exact Hmw|].
  eapply bind_run; [apply read_run; exact Ho|].
  rewrite Hp.
  eapply bind_run.
  { eapply bind_run; [apply updateWorldMatrix_run; exact Hpw | reflexivity]. }
  eapply bind_run; [apply update_run; exact Ho|].
  rewrite Happ.
  assert (Hp1 : parent o' = Some p).
  { subst o'. unfold applyMatrix4.
    destruct (Matrix4.decompose _) as [[? ?] ?]. exact Hp. }
  eapply bind_run.
  { unfold removeFromParent. eapply bind_run; [apply read_run; lk|].
    rewrite Hp1. apply remove_in_run with (t := po) (o := o').
    - st. rewrite lookup_insert_ne by lia. exact Hpo.
    - exact Hin.
    - exact Hop.
    - lk. }
  eapply bind_run.
  { apply update_run. st. rewrite lookup_insert_ne by lia.
    rewrite lookup_insert_eq. reflexivity. }
  erewrite update_run.
  2:{ st. rewrite lookup_insert_ne by lia.
      rewrite lookup_insert_ne by lia.
      rewrite lookup_insert_ne by lia.
      rewrite lookup_insert_ne by lia. exact Ht. }
  destruct s as [m h n scr pr dr]. st.
  apply (f_equal (fun H => Some (tt, mkState m H n scr pr dr))).
  apply map_eq. intros i. rewrite !lookup_insert.
  repeat case_decide; subst; try lia; reflexivity.
Qed.

(** removing anything from the scene keeps the invariant and touches the heap only *)
Lemma remove_Inv sc b s :
  Inv sc s ->
  exists h', remove sc b s = Some (tt, setHeap h' (nextId s) s) /\
             Inv sc (setHeap h' (nextId s) s).
Proof.
  intros (Hsc & (root & Hroot & Hr & Hch) & Hdom).
  unfold remove, bind. rewrite (read_run _ _ _ Hroot).
  destruct (existsb (Nat.eqb b) (children root)) eqn:E.
  - apply existsb_eqb_In in E.
    assert (Hb : (b < nextId s)%nat).
    { rewrite Forall_forall in Hch. apply Hch. apply list_elem_of_In. exact E. }
    destruct (proj2 (Hdom b) Hb) as [ob Hob].
    rewrite (update_run _ _ _ _ Hob).
    set (s1 := setHeap _ _ s).
    assert (exists r1, heap s1 !! sc = Some r1 /\ isRoot r1 /\ children r1 = children root)
      as (r1 & Hr1 & Hroot1 & Hc1).
    { subst s1. destruct s as [m h n scr pr dr]; cbn [heap setHeap] in *.
      destruct (decide (b = sc)) as [->|Hne].
      - rewrite lookup_insert_eq. assert (ob = root) as -> by congruence.
        eexists; split; [reflexivity|]. split; [apply isRoot_setParent_None; exact Hr | reflexivity].
      - rewrite lookup_insert_ne by exact Hne. eauto. }
    rewrite (update_run _ _ _ _ Hr1).
    subst s1. destruct s as [m h n scr pr dr]; st_in_all.
    eexists. split; [reflexivity|].
    split; [exact Hsc|]. split.
    + eexists. st. rewrite lookup_insert_eq. split; [reflexivity|].
      split; [apply isRoot_setChildren; exact Hroot1|].
      cbn [children setChildren]. rewrite Hc1. apply Forall_spliceFirst. exact Hch.
    + apply dom_insert_existing.
      * rewrite Hr1. eauto.
      * apply dom_insert_existing; [rewrite Hob; eauto | exact Hdom].
  - exists (heap s). rewrite setHeap_id. split; [reflexivity|].
    split; [exact Hsc|]. split; [eauto | exact Hdom].
Qed.

Lemma maybe_remove_Inv sc (r : option address) s :
  Inv sc s ->
  exists h',
    (match r with Some b => remove sc b | None => ret tt end) s =
      Some (tt, setHeap h' (nextId s) s) /\
    Inv sc (setHeap h' (nextId s) s).
Proof.
  intros HI. destruct r as [b|].
  - apply remove_Inv. exact HI.
  - exists (heap s). rewrite setHeap_id. split; [reflexivity | exact HI].
Qed.

Lemma worldPose_child sc s b root o :
  heap s !! sc = Some root -> isRoot root ->
  heap s !! b = Some o -> parent o = Some sc ->
  scale o = Vector3.one -> isRotation (quaternion o) ->
  (2 <= nextId s)%nat ->
  worldPose s b = Some (position o, quaternion o).
Proof.
  intros Hroot Hr Hb Hp Hs Hq Hn. unfold worldPose.
  destruct (nextId s) as [|[|k]]; [lia | lia |].
  rewrite (matrixWorld_child _ _ b o sc (matrix root) Hb Hp)
    by (apply matrixWorld_root; [exact Hroot | apply Hr]).
  rewrite (matrix_root root Hr), Matrix4_multiply_identity_l.
  rewrite (matrix_rigid o Hs), (decompose_rotation _ _ Hq). reflexivity.
Qed.

(* ---------------------------------------------------------------------- *)
(** ** Running the component *)
(* ---------------------------------------------------------------------- *)

Lemma applyDeformity_run sc d s root od :
  heap s !! sc = Some root -> isRoot root ->
  (sc < nextId s)%nat -> (d < nextId s)%nat ->
  heap s !! d = Some od -> parent od = Some sc -> In d (children root) ->
  scale od = Vector3.one ->
  exists pv ch,
    applyDeformity sc d s =
    Some (tt, setHeap
      (<[sc := setChildren ch root]>
         (<[d := placed sc (measurements s) od]>
            (<[nextId s := pv]> (heap s)))) (S (nextId s)) s)
    /\ Forall (fun i => In i (children root) \/ i = nextId s) ch /\ In d ch.
Proof.
  intros Hroot Hr Hsc Hd Hod Hpar Hin Hscale.
  assert (Hdsc : d <> sc).
  { intros ->. destruct Hr as (Hp & _). congruence. }
  destruct s as [m h n scr pr dr]. st_in_all.
  destruct n as [|n0]; [lia|]. set (n := S n0) in *.
  destruct Hr as (Hrp & Hrpos & Hrq & Hrs).
  destruct root as [rp rc rpos rrot rq rs rg].
  destruct od as [odp odc odpos odrot odq ods odg].
  cbn [parent position quaternion scale children] in *. subst rp rpos rq rs odp ods.
  unfold applyDeformity. do 2 eexists. split.
  eapply bind_run; [reflexivity|]. norm.
  eapply bind_run; [reflexivity|]. norm.
  eapply bind_run; [apply update_run; lk|]. norm.
  eapply bind_run.
  { eapply add_fresh_run; [lia | lk | reflexivity | lk]. }
  norm.
  eapply bind_run; [apply update_run; lk|]. norm.
  eapply bind_run; [apply update_run; lk|]. norm.
  rewrite makeRotationFromEuler_zero.
  eapply bind_run.
  { eapply attach_run with (p := sc); st.
    - eapply matrixWorld_child; [lk | reflexivity |].
      eapply matrixWorld_root; [lk | reflexivity].
    - lk.
    - reflexivity.
    - eapply matrixWorld_root; [lk | reflexivity].
    - lk.
    - ob. apply in_or_app. left. exact Hin.
    - lk.
    - lia.
    - lia.
    - lia.
    - rewrite !matrix_rigid by reflexivity. ob.
      rewrite Matrix4_multiply_id_l.
      rewrite applyMatrix4_from_translated;
        [ | apply isRotation_identity | reflexivity | reflexivity ].
      rewrite apply_identity. reflexivity. }
  norm.
  eapply bind_run; [apply update_run; lk|]. norm.
  eapply bind_run; [apply update_run; lk|]. norm.
  eapply bind_run; [apply update_run; lk|]. norm.
  eapply bind_run; [apply update_run; lk|]. norm.
  eapply bind_run; [apply update_run; lk|]. norm.
  eapply bind_run; [apply update_run; lk|]. norm.
  eapply bind_run.
  { eapply attach_run with (p := n); st.
    - eapply matrixWorld_root; [lk | reflexivity].
    - lk.
    - reflexivity.
    - eapply matrixWorld_child; [lk | reflexivity |].
      eapply matrixWorld_root; [lk | reflexivity].
    - lk.
    - ob. simpl. left. reflexivity.
    - lk.
    - lia.
    - lia.
    - lia.
    - rewrite !matrix_rigid by reflexivity. ob.
      rewrite Matrix4_multiply_id_l.
      rewrite applyMatrix4_from_translated;
        [ | apply isRotation_Euler | reflexivity | reflexivity ].
      reflexivity. }
  norm.
  erewrite remove_in_run; [ | lk | | lia | lk ].
  2:{ ob. apply in_or_app. left. apply In_spliceFirst_ne; [lia|].
      apply in_or_app. right. left. reflexivity. }
  norm.
  apply (f_equal (fun H => Some (tt, mkState m H (S n) scr pr dr))).
  apply map_eq. intros i. rewrite !lookup_insert.
  repeat case_decide; subst; try lia; try reflexivity.
  - f_equal. unfold placed. ob. f_equal.
    apply Vector3_ext; cbn; ring.
  - split.
    + apply Forall_spliceFirst. apply Forall_app. split.
      * apply Forall_spliceFirst. apply Forall_app. split.
        -- apply Forall_forall. intros x Hx. left. apply list_elem_of_In. exact Hx.
        -- constructor; [right; reflexivity | constructor].
      * constructor; [left; exact Hin | constructor].
    + apply In_spliceFirst_ne; [lia|]. apply in_or_app. right. left. reflexivity.
Qed.

(** applyDeformity on a state where [d] is a rigid child of the scene *)
Lemma applyDeformity_frame sc d s od :
  Inv sc s -> heap s !! d = Some od -> parent od = Some sc ->
  scale od = Vector3.one ->
  (exists root, heap s !! sc = Some root /\ In d (children root)) ->
  exists s',
    applyDeformity sc d s = Some (tt, s') /\
    Inv sc s' /\
    measurements s' = measurements s /\
    proximalBoneRef s' = proximalBoneRef s /\
    distalBoneRef s' = distalBoneRef s /\
    heap s' !! d = Some (placed sc (measurements s) od) /\
    (exists root, heap s' !! sc = Some root /\ In d (children root)) /\
    (forall i o, heap s !! i = Some o -> i <> d -> i <> sc ->
                 heap s' !! i = Some o).
Proof.
  intros (Hscr & (root & Hroot & Hr & Hch) & Hdom) Hd Hp Hs (root' & Hroot' & Hin).
  assert (root' = root) as -> by congruence.
  assert (Hsc : (sc < nextId s)%nat) by (apply Hdom; rewrite Hroot; eauto).
  assert (Hdn : (d < nextId s)%nat) by (apply Hdom; rewrite Hd; eauto).
  assert (Hdsc : d <> sc).
  { intros ->. destruct Hr as (Hrp & _). congruence. }
  destruct (applyDeformity_run sc d s root od Hroot Hr Hsc Hdn Hd Hp Hin Hs)
    as (pv & ch & Hrun & Hchf & Hinf).
  eexists. split; [exact Hrun|].
  destruct s as [m h n scr pr dr].
  cbv beta iota delta [heap nextId measurements sceneRef proximalBoneRef
    distalBoneRef setHeap] in *.
  split; [|split; [reflexivity|split; [reflexivity|split; [reflexivity|]]]].
  - unfold Inv.
    cbv beta iota delta [heap nextId measurements sceneRef proximalBoneRef
      distalBoneRef setHeap].
    split; [exact Hscr|]. split.
    + eexists. rewrite lookup_insert_eq. split; [reflexivity|]. split.
      * destruct Hr as (?&?&?&?). repeat split; assumption.
      * cbn [children setChildren]. eapply Forall_impl; [exact Hchf|].
        cbn beta. intros i [Hi| ->]; [|lia].
        rewrite Forall_forall in Hch. specialize (Hch i).
        rewrite list_elem_of_In in Hch. specialize (Hch Hi). lia.
    + intros i. rewrite !lookup_insert_is_Some. rewrite Hdom. split.
      * intros H. lia.
      * intros H. destruct (decide (sc = i)); [lia|].
        destruct (decide (d = i)); [lia|]. destruct (decide (n = i)); [lia|].
        right. split; [assumption|]. right. split; [assumption|].
        right. split; [assumption|]. lia.
  - split; [|split].
    + rewrite lookup_insert_ne by lia. rewrite lookup_insert_eq. reflexivity.
    + eexists. rewrite lookup_insert_eq. split; [reflexivity|]. exact Hinf.
    + intros i o Hi Hid Hisc.
      assert ((i < n)%nat) by (apply Hdom; rewrite Hi; eauto).
      rewrite !lookup_insert_ne by lia. exact Hi.
Qed.

Lemma updateBoneGeometries_run sc s :
  Inv sc s ->
  exists h2 root2,
    updateBoneGeometries sc s =
    Some (tt, mkState (measurements s)
      (<[sc := setChildren (children root2 ++ [nextId s; S (nextId s)]) root2]>
         (<[S (nextId s) := distalMesh sc (measurements s)]>
            (<[nextId s := proximalMesh sc (measurements s)]> h2)))
      (S (S (nextId s))) (sceneRef s) (Some (nextId s)) (Some (S (nextId s))))
    /\ h2 !! sc = Some root2 /\ isRoot root2
    /\ Forall (fun i => (i < nextId s)%nat) (children root2)
    /\ (forall i : nat, is_Some (h2 !! i) <-> (i < nextId s)%nat).
Proof.
  intros HI.
  destruct (maybe_remove_Inv sc (proximalBoneRef s) s HI) as (h1 & E1 & HI1).
  destruct (maybe_remove_Inv sc (distalBoneRef s) _ HI1) as (h2 & E2 & HI2).
  destruct s as [m h n scr pr dr]. st_in_all.
  destruct HI2 as (_ & (root2 & Hroot2 & Hr2 & Hch2) & Hdom2). st_in_all.
  exists h2, root2. split; [|auto].
  assert (Hsc : (sc < n)%nat) by (apply Hdom2; rewrite Hroot2; eauto).
  unfold updateBoneGeometries.
  eapply bind_run; [reflexivity|]. st.
  eapply bind_run; [exact E1|].
  eapply bind_run; [exact E2|].
  destruct Hr2 as (Hrp & Hrpos & Hrq & Hrs).
  destruct root2 as [rp rc rpos rrot rq rs rg].
  cbn [parent position quaternion scale children] in *. subst rp rpos rq rs.
  unfold newMesh.
  eapply bind_run; [reflexivity|]. norm.
  eapply bind_run; [apply update_run; lk|]. norm.
  eapply bind_run.
  { eapply add_fresh_run; [lia | lk | reflexivity | lk]. }
  norm.
  eapply bind_run; [reflexivity|]. norm.
  eapply bind_run; [reflexivity|]. norm.
  eapply bind_run; [apply update_run; lk|]. norm.
  eapply bind_run.
  { eapply add_fresh_run; [lia | lk | reflexivity | lk]. }
  norm. unfold modify. norm.
  apply (f_equal (fun H => Some (tt, mkState m H (S (S n)) scr (Some n) (Some (S n))))).
  apply map_eq. intros i. rewrite !lookup_insert.
  repeat case_decide; subst; try lia; try reflexivity.
  rewrite <- app_assoc. reflexivity.
Qed.

Lemma updateBoneGeometries_Inv sc s :
  Inv sc s ->
  exists s',
    updateBoneGeometries sc s = Some (tt, s') /\ Inv sc s' /\
    is_Some (distalBoneRef s') /\ measurements s' = measurements s.
Proof.
  intros HI.
  destruct (updateBoneGeometries_run sc s HI)
    as (h2 & root2 & Hrun & Hroot2 & Hr2 & Hch2 & Hdom2).
  destruct HI as (Hscr & _ & _).
  eexists. split; [exact Hrun|]. destruct s as [m h n scr pr dr]. st_in_all.
  split; [|split; [eauto | reflexivity]].
  unfold Inv. st. split; [exact Hscr|]. split.
  - eexists. rewrite lookup_insert_eq. split; [reflexivity|]. split.
    + destruct Hr2 as (?&?&?&?). repeat split; assumption.
    + cbn [children setChildren]. apply Forall_app. split.
      * eapply Forall_impl; [exact Hch2|]. cbn beta. intros; lia.
      * repeat constructor; lia.
  - intros i. rewrite !lookup_insert_is_Some. rewrite Hdom2.
    assert (Hsc : (sc < n)%nat) by (apply Hdom2; rewrite Hroot2; eauto).
    split.
    + intros H. lia.
    + intros H.
      destruct (decide (sc = i)); [lia|]. destruct (decide (S n = i)); [lia|].
      destruct (decide (n = i)); [lia|].
      right. split; [assumption|]. right. split; [assumption|].
      right. split; [assumption|]. lia.
Qed.

Lemma rebuild_facts sc s :
  Inv sc s ->
  exists s1,
    updateBoneGeometries sc s = Some (tt, s1) /\ Inv sc s1 /\
    measurements s1 = measurements s /\
    proximalBoneRef s1 = Some (nextId s) /\
    distalBoneRef s1 = Some (S (nextId s)) /\
    heap s1 !! nextId s = Some (proximalMesh sc (measurements s)) /\
    heap s1 !! S (nextId s) = Some (distalMesh sc (measurements s)) /\
    (exists root, heap s1 !! sc = Some root /\
                  In (S (nextId s)) (children root)).
Proof.
  intros HI.
  destruct (updateBoneGeometries_Inv sc s HI) as (s1 & Hrun & HI1 & _ & Hm).
  destruct (updateBoneGeometries_run sc s HI)
    as (h2 & root2 & Hrun' & Hroot2 & Hr2 & Hch2 & Hdom2).
  rewrite Hrun in Hrun'. injection Hrun' as Hs1.
  assert (Hsc : (sc < nextId s)%nat) by (apply Hdom2; rewrite Hroot2; eauto).
  exists s1. split; [exact Hrun|]. split; [exact HI1|]. split; [exact Hm|].
  rewrite Hs1. cbn [proximalBoneRef distalBoneRef heap].
  split; [reflexivity|]. split; [reflexivity|]. split; [|split].
  - rewrite lookup_insert_ne by lia. rewrite lookup_insert_ne by lia.
    rewrite lookup_insert_eq. reflexivity.
  - rewrite lookup_insert_ne by lia. rewrite lookup_insert_eq. reflexivity.
  - eexists. rewrite lookup_insert_eq. split; [reflexivity|].
    cbn [children setChildren]. apply in_or_app. right. right. left. reflexivity.
Qed.

Lemma measurementsEffect_unfold sc d0 s s1 d s2 :
  sceneRef s = Some sc -> distalBoneRef s = Some d0 ->
  updateBoneGeometries sc s = Some (tt, s1) ->
  distalBoneRef s1 = Some d ->
  applyDeformity sc d s1 = Some (tt, s2) ->
  measurementsEffect s = Some (tt, s2).
Proof.
  intros Hsc Hd0 Hrun Hd Happ. unfold measurementsEffect.
  eapply bind_run; [reflexivity|]. rewrite Hsc, Hd0.
  eapply bind_run; [exact Hrun|].
  eapply bind_run; [reflexivity|]. rewrite Hd. exact Happ.
Qed.

(** One run of the effect on [measurements] from any state of the mounted
    component. *)
Lemma measurementsEffect_run sc s :
  Inv sc s -> is_Some (distalBoneRef s) ->
  exists s',
    measurementsEffect s = Some (tt, s') /\
    Good sc (nextId s) (S (nextId s)) s' /\
    measurements s' = measurements s.
Proof.
  intros HI [d0 Hd0].
  destruct (rebuild_facts sc s HI)
    as (s1 & Hrun1 & HI1 & Hm1 & Hp1 & Hd1 & Hpo1 & Hdo1 & Hroot1).
  destruct (applyDeformity_frame sc (S (nextId s)) s1 _ HI1 Hdo1)
    as (s2 & Happ & HI2 & Hm2 & Hp2 & Hd2 & Hdo2 & Hroot2 & Hframe);
    [reflexivity | reflexivity | exact Hroot1 |].
  assert (Hsc : (sc < nextId s)%nat).
  { destruct HI as (_ & (root & Hroot & _) & Hdom). apply Hdom.
    rewrite Hroot. eauto. }
  exists s2. split.
  { eapply measurementsEffect_unfold;
      [apply HI | exact Hd0 | exact Hrun1 | exact Hd1 | exact Happ]. }
  split; [|congruence].
  unfold Good. split; [exact HI2|]. split; [congruence|].
  split; [congruence|]. rewrite Hm2, Hm1.
  split; [|split; [rewrite Hdo2, Hm1; reflexivity | exact Hroot2]].
  apply Hframe; [exact Hpo1 | lia | lia].
Qed.

Lemma setupEffect_run :
  exists s,
    setupEffect initialState = Some (tt, s) /\ Inv 0%nat s /\
    is_Some (distalBoneRef s) /\ measurements s = initialMeasurements.
Proof.
  unfold setupEffect, initialState.
  assert (exists s4, Inv 0%nat s4 /\ measurements s4 = initialMeasurements /\
            forall r, updateBoneGeometries 0%nat s4 = r ->
                      setupEffect initialState = r) as (s4 & HI & Hm & Hk).
  { eexists. split; [|split; [|intros r Hr]].
    3:{ unfold setupEffect, initialState.
        eapply bind_run; [reflexivity|]. norm.
        eapply bind_run; [reflexivity|]. norm.
        eapply bind_run; [reflexivity|]. norm.
        eapply bind_run.
        { eapply add_fresh_run; [lia | lk | reflexivity | lk]. }
        norm.
        eapply bind_run; [reflexivity|]. norm.
        eapply bind_run; [apply update_run; lk|]. norm.
        eapply bind_run.
        { eapply add_fresh_run; [lia | lk | reflexivity | lk]. }
        norm.
        eapply bind_run; [reflexivity|]. norm.
        eapply bind_run; [apply update_run; lk|]. norm.
        eapply bind_run.
        { eapply add_fresh_run; [lia | lk | reflexivity | lk]. }
        norm.
        eapply bind_run; [reflexivity|]. norm.
        eapply bind_run.
        { eapply add_fresh_run; [lia | lk | reflexivity | lk]. }
        norm. exact Hr. }
    - unfold Inv. st. split; [reflexivity|]. split.
      + eexists. rewrite lookup_insert_eq. split; [reflexivity|]. split.
        * repeat split.
        * ob. repeat constructor.
      + intros i. rewrite !lookup_insert_is_Some, lookup_empty. split.
        * intros H. repeat (destruct H as [H|[_ H]]; [lia|]).
          destruct H as [? H]. discriminate H.
        * intros H. destruct i as [|[|[|[|[|i]]]]]; try lia;
            repeat first [ left; lia | right; split; [lia|] ].
    - reflexivity. }
  destruct (updateBoneGeometries_Inv 0%nat s4 HI) as (s5 & Hrun & HI5 & Hd5 & Hm5).
  exists s5. split; [apply Hk; exact Hrun|]. split; [exact HI5|].
  split; [exact Hd5 | congruence].
Qed.

(* ---------------------------------------------------------------------- *)
(** ** Mounting and sequences of measurement sets *)
(* ---------------------------------------------------------------------- *)

Lemma Good_two sc p d s : Good sc p d s -> (2 <= nextId s)%nat /\ d <> sc.
Proof.
  intros ((_ & (root & Hroot & Hr & _) & Hdom) & _ & _ & _ & Hd & _).
  assert (d <> sc).
  { intros ->. rewrite Hroot in Hd. injection Hd as Hd.
    destruct Hr as (Hp & _). rewrite Hd in Hp. discriminate Hp. }
  assert ((sc < nextId s)%nat) by (apply Hdom; rewrite Hroot; eauto).
  assert ((d < nextId s)%nat) by (apply Hdom; rewrite Hd; eauto).
  split; [lia | assumption].
Qed.

Lemma Good_poses sc p d s :
  Good sc p d s ->
  bonePose proximalBoneRef s =
    Some (Vector3.mk 0 (- fracturePosition (measurements s) / 2) 0,
          Matrix3.identity) /\
  bonePose distalBoneRef s =
    Some (distalWorldPosition (measurements s), pivotRotation (measurements s)).
Proof.
  intros HG. destruct (Good_two _ _ _ _ HG) as (Hn & _).
  destruct HG as ((_ & (root & Hroot & Hr & _) & _) & Hp & Hd & Hpo & Hdo & _).
  unfold bonePose. rewrite Hp, Hd. split.
  - rewrite (worldPose_child sc s p root _ Hroot Hr Hpo);
      [reflexivity | reflexivity | reflexivity | apply isRotation_identity | exact Hn].
  - rewrite (worldPose_child sc s d root _ Hroot Hr Hdo);
      [reflexivity | reflexivity | reflexivity | apply isRotation_Euler | exact Hn].
Qed.

Lemma setMeasurements_Good sc p d m s :
  Good sc p d s ->
  exists s', setMeasurements m s = Some s' /\
             Good sc (nextId s) (S (nextId s)) s' /\ measurements s' = m.
Proof.
  intros (HI & _ & Hd & _).
  destruct (measurementsEffect_run sc (setMeasurementsField m s))
    as (s' & Hrun & HG & Hm).
  { exact HI. }
  { cbn [distalBoneRef setMeasurementsField]. rewrite Hd. eauto. }
  exists s'. unfold setMeasurements.
  erewrite bind_run; [ | reflexivity | exact Hrun ].
  split; [reflexivity|]. split; [exact HG | exact Hm].
Qed.

Lemma mount_Good :
  exists s p d, mount = Some s /\ Good 0%nat p d s /\
                measurements s = initialMeasurements.
Proof.
  destruct setupEffect_run as (s0 & Hrun0 & HI0 & Hd0 & Hm0).
  destruct (measurementsEffect_run 0%nat s0 HI0 Hd0) as (s & Hrun & HG & Hm).
  exists s, (nextId s0), (S (nextId s0)). unfold mount.
  erewrite bind_run; [ | exact Hrun0 | exact Hrun ].
  split; [reflexivity|]. split; [exact HG | congruence].
Qed.

Lemma last_cons {A} (x : A) l : forall d, List.last (x :: l) d = List.last l x.
Proof.
  revert x. induction l as [|y l IH]; intros x d; [reflexivity|].
  change (List.last (x :: y :: l) d) with (List.last (y :: l) d).
  rewrite !IH. reflexivity.
Qed.

Lemma runFrom_Good sc ms : forall p d s,
  Good sc p d s ->
  exists s' p' d', runFrom s ms = Some s' /\ Good sc p' d' s' /\
                   measurements s' = List.last ms (measurements s).
Proof.
  induction ms as [|m ms IH]; intros p d s HG.
  - exists s, p, d. auto.
  - destruct (setMeasurements_Good sc p d m s HG) as (s1 & Hs1 & HG1 & Hm1).
    destruct (IH _ _ _ HG1) as (s' & p' & d' & Hrun & HG' & Hm').
    exists s', p', d'. cbn [runFrom]. rewrite Hs1. split; [exact Hrun|].
    split; [exact HG'|]. rewrite Hm', Hm1, last_cons. reflexivity.
Qed.

Lemma run_Good ms :
  exists s p d, run ms = Some s /\ Good 0%nat p d s /\
                measurements s = List.last ms initialMeasurements.
Proof.
  destruct mount_Good as (s0 & p0 & d0 & Hm & HG & Hms).
  destruct (runFrom_Good 0%nat ms _ _ _ HG) as (s & p & d & Hrun & HG' & Hm').
  exists s, p, d. unfold run. rewrite Hm. split; [exact Hrun|].
  split; [exact HG' | congruence].
Qed.

Lemma run_last ms m :
  exists s p d, run (ms ++ [m]) = Some s /\ Good 0%nat p d s /\ measurements s = m.
Proof.
  destruct (run_Good (ms ++ [m])) as (s & p & d & Hrun & HG & Hm).
  exists s, p, d. split; [exact Hrun|]. split; [exact HG|].
  rewrite Hm. apply last_last.
Qed.

Lemma proximalPoseAfter_last ms m :
  proximalPoseAfter (ms ++ [m]) =
  Some (Vector3.mk 0 (- fracturePosition m / 2) 0, Matrix3.identity).
Proof.
  destruct (run_last ms m) as (s & p & d & Hrun & HG & Hm).
  unfold proximalPoseAfter. rewrite Hrun.
  rewrite (proj1 (Good_poses _ _ _ _ HG)), Hm. reflexivity.
Qed.

Lemma distalPoseAfter_last ms m :
  distalPoseAfter (ms ++ [m]) = Some (distalWorldPosition m, pivotRotation m).
Proof.
  destruct (run_last ms m) as (s & p & d & Hrun & HG & Hm).
  unfold distalPoseAfter. rewrite Hrun.
  rewrite (proj2 (Good_poses _ _ _ _ HG)), Hm. reflexivity.
Qed.

Lemma runFrom_app ms1 : forall s ms2,
  runFrom s (ms1 ++ ms2) =
  match runFrom s ms1 with Some s' => runFrom s' ms2 | None => None end.
Proof.
  induction ms1 as [|m ms1 IH]; intros s ms2; [reflexivity|].
  cbn [runFrom app]. destruct (setMeasurements m s); [apply IH | reflexivity].
Qed.

Lemma run_snoc ms m s0 :
  run ms = Some s0 -> run (ms ++ [m]) = setMeasurements m s0.
Proof.
  unfold run. destruct mount as [sm|]; [|discriminate].
  intros H. rewrite runFrom_app, H. cbn [runFrom].
  destruct (setMeasurements m s0); reflexivity.
Qed.

(** The effect on measurements, split at the call of updateBoneGeometries. *)
Lemma setMeasurements_split ms m :
  exists s0 s1 s2 scene proximalBone distalBone,
    run ms = Some s0 /\ rebuildGeometry m s0 = Some s1 /\
    sceneRef s1 = Some scene /\ proximalBoneRef s1 = Some proximalBone /\
    distalBoneRef s1 = Some distalBone /\
    heap s1 !! proximalBone = Some (proximalMesh scene m) /\
    heap s1 !! distalBone = Some (distalMesh scene m) /\
    proximalBone <> distalBone /\ proximalBone <> scene /\
    applyDeformity scene distalBone s1 = Some (tt, s2) /\
    run (ms ++ [m]) = Some s2 /\
    proximalBoneRef s2 = Some proximalBone /\
    distalBoneRef s2 = Some distalBone /\
    heap s1 !! nextId s1 = None /\
    Inv scene s1 /\ Inv scene s2 /\
    (forall i o, heap s1 !! i = Some o -> i <> distalBone -> i <> scene ->
                 heap s2 !! i = Some o).
Proof.
  destruct (run_Good ms) as (s0 & p0 & d0 & Hrun0 & HG0 & _).
  destruct HG0 as (HI0 & _ & Hd0 & _).
  destruct (rebuild_facts 0%nat (setMeasurementsField m s0) HI0)
    as (s1 & Hrun1 & HI1 & Hm1 & Hp1 & Hd1 & Hpo1 & Hdo1 & Hroot1).
  cbn [measurements nextId setMeasurementsField] in *.
  destruct (applyDeformity_frame 0%nat (S (nextId s0)) s1 _ HI1 Hdo1)
    as (s2 & Happ & HI2 & Hm2 & Hp2 & Hd2 & Hdo2 & _ & Hframe);
    [reflexivity | reflexivity | exact Hroot1 |].
  assert (Hsc0 : (0 < nextId s0)%nat).
  { destruct HI0 as (_ & (root & Hroot & _) & Hdom). apply Hdom.
    cbn [heap setMeasurementsField] in Hroot. rewrite Hroot. eauto. }
  exists s0, s1, s2, 0%nat, (nextId s0), (S (nextId s0)).
  split; [exact Hrun0|]. split.
  { unfold rebuildGeometry. rewrite (proj1 HI0), Hrun1. reflexivity. }
  split; [apply HI1|]. split; [exact Hp1|]. split; [exact Hd1|].
  split; [exact Hpo1|]. split; [exact Hdo1|].
  split; [lia|]. split; [lia|]. split; [exact Happ|]. split.
  { rewrite (run_snoc ms m s0 Hrun0). unfold setMeasurements.
    erewrite bind_run;
      [ | reflexivity
      | eapply measurementsEffect_unfold;
          [apply HI0 | exact Hd0 | exact Hrun1 | exact Hd1 | exact Happ] ].
    reflexivity. }
  split; [congruence|]. split; [congruence|].
  split; [|split; [exact HI1 | split; [exact HI2 | exact Hframe]]].
  destruct HI1 as (_ & _ & Hdom1).
  destruct (heap s1 !! nextId s1) eqn:E; [|reflexivity].
  assert ((nextId s1 < nextId s1)%nat) by (apply Hdom1; rewrite E; eauto). lia.
Qed.

Lemma rebuiltBones_eq ms m :
  exists scene,
    rebuiltBones ms m = Some (proximalMesh scene m, distalMesh scene m).
Proof.
  destruct (setMeasurements_split ms m)
    as (s0 & s1 & s2 & sc & p & d & H0 & H1 & Hsc & Hp1 & Hd1 & Hpo & Hdo & _).
  exists sc. unfold rebuiltBones, boneObject.
  rewrite H0, H1, Hp1, Hd1, Hpo, Hdo. reflexivity.
Qed.

(* ---------------------------------------------------------------------- *)
(** ** Particular angles *)
(* ---------------------------------------------------------------------- *)

Lemma toRad_0 : toRad 0 = 0.
Proof. unfold toRad. lra. Qed.

Lemma toRad_90 : toRad 90 = PI / 2.
Proof. unfold toRad. lra. Qed.

Ltac trig := rewrite ?toRad_0, ?toRad_90, ?cos_0, ?sin_0, ?cos_PI2, ?sin_PI2.

Lemma pivotRotation_zero fl fp md ad pd :
  pivotRotation (mkMeasurements fl fp md ad pd 0 0 0) = Matrix3.identity.
Proof.
  unfold pivotRotation, pivotEuler.
  cbn [valgusAngulation anteversionAngulation rotationalAngulation].
  rewrite toRad_0. apply makeRotationFromEuler_zero.
Qed.

Lemma pivotRotation_long_axis_90 fl fp md ad pd :
  pivotRotation (mkMeasurements fl fp md ad pd 0 0 90) =
  Matrix3.mk 0 0 1  0 1 0  (-1) 0 0.
Proof.
  unfold pivotRotation, pivotEuler, Euler.makeRotationFromEuler.
  cbn [valgusAngulation anteversionAngulation rotationalAngulation
       Euler.x Euler.y Euler.z].
  trig. apply Matrix3_ext; cbn; ring.
Qed.

Lemma makeRotationX_90 : Matrix3.makeRotationX (toRad 90) = Matrix3.mk 1 0 0  0 0 (-1)  0 1 0.
Proof. unfold Matrix3.makeRotationX. trig. apply Matrix3_ext; cbn; ring. Qed.

Lemma makeRotationY_90 : Matrix3.makeRotationY (toRad 90) = Matrix3.mk 0 0 1  0 1 0  (-1) 0 0.
Proof. unfold Matrix3.makeRotationY. trig. apply Matrix3_ext; cbn; ring. Qed.

Lemma makeRotationZ_90 : Matrix3.makeRotationZ (toRad 90) = Matrix3.mk 0 (-1) 0  1 0 0  0 0 1.
Proof. unfold Matrix3.makeRotationZ. trig. apply Matrix3_ext; cbn; ring. Qed.

Lemma composeInOrder_combined90 (o : AxisOrder) :
  composeInOrder o combined90 =
  match o with
  | XYZ => Matrix3.mk 0 0 1  0 (-1) 0  1 0 0
  | XZY => Matrix3.mk 0 (-1) 0  1 0 0  0 0 1
  | YXZ => Matrix3.mk 1 0 0  0 0 (-1)  0 1 0
  | YZX => Matrix3.mk 0 1 0  1 0 0  0 0 (-1)
  | ZXY => Matrix3.mk (-1) 0 0  0 0 1  0 1 0
  | ZYX => Matrix3.mk 0 0 1  0 1 0  (-1) 0 0
  end.
Proof.
  unfold composeInOrder, combined90.
  cbn [valgusAngulation anteversionAngulation rotationalAngulation].
  rewrite makeRotationX_90, makeRotationY_90, makeRotationZ_90.
  destruct o; apply Matrix3_ext; cbn; ring.
Qed.

Lemma pivotRotation_XYZ m : pivotRotation m = composeInOrder XYZ m.
Proof. unfold pivotRotation. rewrite makeRotationFromEuler_XYZ. reflexivity. Qed.

Lemma specRotationFixedAxes_YXZ m : specRotationFixedAxes m = composeInOrder YXZ m.
Proof. reflexivity. Qed.

Lemma specRotationMovingAxes_ZXY m : specRotationMovingAxes m = composeInOrder ZXY m.
Proof. reflexivity. Qed.

(* ---------------------------------------------------------------------- *)
(** ** Numbers and the form *)
(* ---------------------------------------------------------------------- *)

Lemma getField_setField_same {num} (k : MeasurementKey) (v : num) m :
  getField k (setField k v m) = v.
Proof. destruct m, k; reflexivity. Qed.

Lemma getField_setField_other {num} (k k' : MeasurementKey) (v : num) m :
  k' <> k -> getField k' (setField k v m) = getField k' m.
Proof. intros H. destruct m, k, k'; try reflexivity; congruence. Qed.

Lemma logicalOr_zero_not_NaN x : JS.isNaN (JS.logicalOr x JS.zero) = false.
Proof. destruct x; reflexivity. Qed.

Lemma logicalOr_NaN x y : JS.isNaN x = true -> JS.logicalOr x y = y.
Proof. destruct x; simpl; try discriminate. reflexivity. Qed.

Lemma handleMeasurementChange_not_NaN key value prev :
  (forall k, JS.isNaN (getField k prev) = false) ->
  forall k, JS.isNaN (getField k (handleMeasurementChange key value prev)) = false.
Proof.
  intros Hprev k. unfold handleMeasurementChange.
  destruct (decide (k = key)) as [->|Hne].
  - rewrite getField_setField_same. apply logicalOr_zero_not_NaN.
  - rewrite getField_setField_other by exact Hne. apply Hprev.
Qed.

Lemma initialMeasurementsJS_not_NaN k :
  JS.isNaN (getField k initialMeasurementsJS) = false.
Proof. destruct k; vm_compute; reflexivity. Qed.

(** [parseFloat] on a few strings. *)
Example parseFloat_empty : JS.parseFloat [] = JS.NaN.
Proof. reflexivity. Qed.

Example parseFloat_letters : JS.parseFloat (JS.ofString "abc") = JS.NaN.
Proof. reflexivity. Qed.

Example parseFloat_decimal :
  JS.parseFloat (JS.ofString "12.5") =
  S754_finite false 7036874417766400 (-49).
Proof. vm_compute. reflexivity. Qed.

Example parseFloat_prefix :
  JS.parseFloat (JS.ofString " 42px") = JS.parseFloat (JS.ofString "42").
Proof. vm_compute. reflexivity. Qed.

Example parseFloat_tenth :
  JS.parseFloat (JS.ofString "0.1") =
  S754_finite false 7205759403792794 (-56).
Proof. vm_compute. reflexivity. Qed.

Example parseFloat_overflow :
  JS.parseFloat (JS.ofString "-1e400") = S754_infinity true.
Proof. vm_compute. reflexivity. Qed.

(** An edit to "-0" stores +0, and an edit to "Infinity" stores Infinity. *)
Example edit_negative_zero :
  getField KvalgusAngulation
    (handleMeasurementChange KvalgusAngulation (JS.ofString "-0")
       initialMeasurementsJS) = JS.zero.
Proof. vm_compute. reflexivity. Qed.

Example edit_infinity :
  getField KfractureLength
    (handleMeasurementChange KfractureLength (JS.ofString "Infinity")
       initialMeasurementsJS) = S754_infinity false.
Proof. vm_compute. reflexivity. Qed.

(** The values the specification tests the geometry on come out the same in
    binary64 as in the reals: 300 - 150 = 150, 300 - 300 = 0, and the radii
    15 * 0.9 = 13.5 and 15 * 0.8 = 12. *)
Example geometry_values_binary64 :
  SFsub JS.prec JS.emax (JS.ofZ 300) (JS.ofZ 150) = JS.ofZ 150 /\
  SFsub JS.prec JS.emax (JS.ofZ 300) (JS.ofZ 300) = JS.zero /\
  SFmul JS.prec JS.emax (JS.ofZ 15) (JS.parseFloat (JS.ofString "0.9")) =
    JS.parseFloat (JS.ofString "13.5") /\
  SFmul JS.prec JS.emax (JS.ofZ 15) (JS.parseFloat (JS.ofString "0.8")) =
    JS.ofZ 12.
Proof. vm_compute. repeat split. Qed.

(** The conversion of a decimal literal never yields NaN: the mantissa stays
    non-negative through the shifts and the rounding. *)
Section NumberConversion.
Local Open Scope Z_scope.

Lemma shr_1_nonneg mrs : 0 <= shr_m mrs -> 0 <= shr_m (shr_1 mrs).
Proof.
  destruct mrs as [m r s]. cbn [shr_m]. intros H.
  destruct m as [|p|p]; [cbn; lia | destruct p; cbn; lia | lia].
Qed.

Lemma iter_pos_shr_1_nonneg p : forall mrs,
  0 <= shr_m mrs -> 0 <= shr_m (SpecFloat.iter_pos shr_1 p mrs).
Proof.
  induction p as [p IH|p IH|]; intros mrs H; cbn [SpecFloat.iter_pos].
  - apply IH, IH, shr_1_nonneg, H.
  - apply IH, IH, H.
  - apply shr_1_nonneg, H.
Qed.

Lemma shr_record_of_loc_m m l : shr_m (shr_record_of_loc m l) = m.
Proof. destruct l as [|[]]; reflexivity. Qed.

Lemma shr_fexp_nonneg m e l :
  0 <= m -> 0 <= shr_m (fst (shr_fexp JS.prec JS.emax m e l)).
Proof.
  intros H. unfold shr_fexp, shr.
  destruct (fexp JS.prec JS.emax (Zdigits2 m + e) - e) as [|p|p];
    cbn [fst]; rewrite ?shr_record_of_loc_m; try exact H.
  apply iter_pos_shr_1_nonneg. rewrite shr_record_of_loc_m. exact H.
Qed.

Lemma round_nearest_even_nonneg m l : 0 <= m -> 0 <= round_nearest_even m l.
Proof.
  intros H. destruct l as [|[]]; cbn; try lia. destruct (Z.even m); lia.
Qed.

Lemma binary_round_aux_not_NaN sx mx ex lx :
  0 <= mx -> JS.isNaN (binary_round_aux JS.prec JS.emax sx mx ex lx) = false.
Proof.
  intros H. unfold binary_round_aux.
  pose proof (shr_fexp_nonneg mx ex lx H) as H1.
  destruct (shr_fexp JS.prec JS.emax mx ex lx) as [mrs' e']. cbn [fst] in H1.
  pose proof (shr_fexp_nonneg
                (round_nearest_even (shr_m mrs') (loc_of_shr_record mrs'))
                e' loc_Exact (round_nearest_even_nonneg _ _ H1)) as H2.
  destruct (shr_fexp JS.prec JS.emax _ e' loc_Exact) as [mrs'' e''].
  cbn [fst] in H2.
  destruct (shr_m mrs'') as [|p|p]; [reflexivity | | lia].
  destruct (e'' <=? JS.emax - JS.prec); reflexivity.
Qed.

Lemma binary_round_not_NaN sx mx ex :
  JS.isNaN (binary_round JS.prec JS.emax sx mx ex) = false.
Proof.
  unfold binary_round. destruct (shl_align _ _ _) as [mz ez].
  apply binary_round_aux_not_NaN. lia.
Qed.

Lemma decimalToNumber_not_NaN neg m e :
  JS.isNaN (JS.decimalToNumber neg m e) = false.
Proof.
  unfold JS.decimalToNumber. destruct m as [|p]; [reflexivity|].
  destruct e as [|k|k]; try apply binary_round_not_NaN.
  unfold SFdiv_core_binary.
  set (m' := match _ with Z0 => _ | Zpos _ => _ | Zneg _ => _ end).
  assert (Hm' : 0 <= m').
  { subst m'. destruct (_ - _ - _); [lia | | lia].
    apply Z.shiftl_nonneg. lia. }
  pose proof (Z_div_mod m' (Z.pow_pos 10 k)) as Hdiv.
  destruct (Z.div_eucl m' (Z.pow_pos 10 k)) as [q r].
  apply binary_round_aux_not_NaN.
  assert (Hpos : Z.pow_pos 10 k > 0).
  { rewrite Z.pow_pos_fold. apply Z.lt_gt. apply Z.pow_pos_nonneg; lia. }
  destruct (Hdiv Hpos) as [Heq Hr]. nia.
Qed.

End NumberConversion.

(** [parseFloat] gives NaN exactly on the strings that do not start, after
    white space and a sign, with a numeric literal. *)
Lemma parseFloat_NaN_iff (s : JS.JSString) :
  JS.isNaN (JS.parseFloat s) = true <->
  JS.scanUnsigned (snd (JS.stripSign (JS.trimStart s))) = None.
Proof.
  unfold JS.parseFloat.
  destruct (JS.stripSign (JS.trimStart s)) as [neg u]. cbn [snd].
  destruct (JS.scanUnsigned u) as [[|m e]|].
  - split; intros H; discriminate H.
  - rewrite decimalToNumber_not_NaN. split; intros H; discriminate H.
  - split; reflexivity.
Qed.

(** The poses right after mounting, with [initialMeasurements]. *)
Example poses_after_mount :
  proximalPoseAfter [] = Some (Vector3.mk 0 (-75) 0, Matrix3.identity) /\
  distalPoseAfter [] = Some (Vector3.mk 0 (-225) 0, Matrix3.identity).
Proof.
  destruct (run_Good []) as (s & p & d & Hrun & HG & Hm).
  unfold proximalPoseAfter, distalPoseAfter. rewrite Hrun.
  destruct (Good_poses _ _ _ _ HG) as (Hp & Hd). rewrite Hp, Hd, Hm.
  cbn [List.last]. unfold initialMeasurements, initialMeasurementsOf.
  rewrite pivotRotation_zero. unfold distalWorldPosition.
  rewrite pivotRotation_zero, apply_identity.
  split; do 2 f_equal; apply Vector3_ext; cbn; lra.
Qed.

(* ---------------------------------------------------------------------- *)
(** ** The order in which the rotation components are assigned *)
(* ---------------------------------------------------------------------- *)

Lemma applyDeformityAssigning_source scene distalBone :
  applyDeformityAssigning ZXY scene distalBone = applyDeformity scene distalBone.
Proof. reflexivity. Qed.

Lemma bind_ext {A B} (c : M A) (k1 k2 : A -> M B) s :
  (forall a s', k1 a s' = k2 a s') -> bind c k1 s = bind c k2 s.
Proof. intros H. unfold bind. destruct (c s) as [[a s']|]; [apply H | reflexivity]. Qed.

Lemma three_updates i (f1 f2 f3 : Object3D -> Object3D) (rest : M unit) s :
  (update i f1 ;; update i f2 ;; update i f3 ;; rest) s =
  match heap s !! i with
  | Some o => rest (setHeap (<[i := f3 (f2 (f1 o))]> (heap s)) (nextId s) s)
  | None => None
  end.
Proof.
  destruct (heap s !! i) as [o|] eqn:E.
  - eapply bind_run; [apply update_run; exact E|].
    eapply bind_run; [apply update_run; st; apply lookup_insert_eq|].
    eapply bind_run; [apply update_run; st; apply lookup_insert_eq|].
    destruct s as [m h n scr pr dr]. st. rewrite !insert_insert_eq. reflexivity.
  - unfold bind, update. rewrite E. reflexivity.
Qed.

Lemma assignRotation_any_order (order : AxisOrder) m o :
  let '(a1, a2, a3) := axesOf order in
  assignRotation a3 m (assignRotation a2 m (assignRotation a1 m o)) =
  setRotation (pivotEuler m) o.
Proof. destruct order, o; reflexivity. Qed.

Lemma applyDeformityAssigning_eq (order : AxisOrder) scene distalBone s :
  applyDeformityAssigning order scene distalBone s =
  applyDeformity scene distalBone s.
Proof.
  pose proof (assignRotation_any_order order) as Ho.
  pose proof (assignRotation_any_order ZXY) as Hz.
  rewrite <- applyDeformityAssigning_source.
  unfold applyDeformityAssigning.
  destruct (axesOf order) as [[a1 a2] a3]. cbn [axesOf] in Hz |- *.
  apply bind_ext; intros s0 s0'. cbv zeta.
  apply bind_ext; intros pivot s1.
  apply bind_ext; intros ? s2.
  apply bind_ext; intros ? s3.
  apply bind_ext; intros ? s4.
  apply bind_ext; intros ? s5.
  apply bind_ext; intros ? s6.
  rewrite !three_updates.
  destruct (heap s6 !! pivot) as [o|]; [|reflexivity].
  rewrite Ho, Hz. reflexivity.
Qed.

(* ====================================================================== *)
(** * Part VII: the properties of the specification                        *)
(* ====================================================================== *)

(** C1.  The three displacements are added to the distal bone's local
    position while it hangs under the rotated pivot, so they act in the
    rotated frame: for every measurement set the final world position differs
    from the one without displacements by the pivot rotation applied to the
    displacement vector.  With all angulations 0 and medialDisplacement = 10
    the final world x is 10.  With rotationalAngulation = 90 (other
    angulations 0) the world position is (anterior, y, - medial): an anterior
    displacement of 10 alone moves the bone by (10, 0, 0), along x, and not by
    (0, 0, 10) along the unrotated z axis. *)
Theorem displacement_in_rotated_frame (ms : list (Measurements R)) :
  (forall m, exists p p0,
      distalPoseAfter (ms ++ [m]) = Some (p, pivotRotation m) /\
      distalPoseAfter (ms ++ [withoutDisplacement m]) =
        Some (p0, pivotRotation m) /\
      Vector3.sub p p0 = Matrix3.apply (pivotRotation m) (displacement m)) /\
  (forall fl fp ad pd, exists p q,
      distalPoseAfter (ms ++ [mkMeasurements fl fp 10 ad pd 0 0 0]) =
        Some (p, q) /\
      Vector3.x p = 10) /\
  (forall fl fp md ad pd,
      distalPoseAfter (ms ++ [mkMeasurements fl fp md ad pd 0 0 90]) =
        Some (Vector3.mk ad (- fp - (fl - fp) / 2 - pd) (- md),
              Matrix3.makeRotationY (PI / 2))) /\
  (forall fl fp,
      distalPoseAfter (ms ++ [mkMeasurements fl fp 0 10 0 0 0 90]) =
        Some (Vector3.add
                (anatomicalPosition (mkMeasurements fl fp 0 10 0 0 0 90))
                (Vector3.mk 10 0 0),
              Matrix3.makeRotationY (PI / 2)) /\
      Vector3.mk 10 0 0 <> Vector3.mk 0 0 10).
Proof.
  assert (Hlong : forall fl fp md ad pd,
      distalPoseAfter (ms ++ [mkMeasurements fl fp md ad pd 0 0 90]) =
        Some (Vector3.mk ad (- fp - (fl - fp) / 2 - pd) (- md),
              Matrix3.makeRotationY (PI / 2))).
  { intros. rewrite distalPoseAfter_last. unfold distalWorldPosition.
    rewrite pivotRotation_long_axis_90. f_equal. f_equal.
    - apply Vector3_ext; cbn; lra.
    - unfold Matrix3.makeRotationY. trig. apply Matrix3_ext; cbn; lra. }
  split; [|split; [|split]].
  - intros m. eexists. eexists. rewrite !distalPoseAfter_last.
    split; [reflexivity|]. split; [reflexivity|].
    apply Vector3_ext; cbn; ring.
  - intros. eexists. eexists. rewrite distalPoseAfter_last.
    split; [reflexivity|]. unfold distalWorldPosition.
    rewrite pivotRotation_zero, apply_identity. cbn. lra.
  - exact Hlong.
  - intros. split.
    + rewrite Hlong. do 2 f_equal. apply Vector3_ext; cbn; lra.
    + intros H. apply (f_equal Vector3.x) in H. cbn in H. lra.
Qed.

(** C2, as stated, fails.  With all three angulations at 90 degrees the
    rotation of the placed bone is neither Z-then-X-then-Y about fixed axes
    nor Z-then-X-then-Y about the axes carried along. *)
Lemma pivot_rotation_is_not_ZXY :
  exists p q,
    distalPoseAfter [combined90] = Some (p, q) /\
    q <> specRotationFixedAxes combined90 /\
    q <> specRotationMovingAxes combined90.
Proof.
  exists (distalWorldPosition combined90), (pivotRotation combined90).
  split; [exact (distalPoseAfter_last [] combined90)|].
  rewrite pivotRotation_XYZ, specRotationFixedAxes_YXZ,
    specRotationMovingAxes_ZXY.
  rewrite !composeInOrder_combined90. split; intros H.
  - apply (f_equal Matrix3.n11) in H. cbn in H. lra.
  - apply (f_equal Matrix3.n11) in H. cbn in H. lra.
Qed.

(** C2, amended.  For every measurement set the rotation given to the pivot,
    and through it to the distal bone, is the product
    Rx(anteversion) * Ry(rotation) * Rz(valgus) of the three single-axis
    rotations, each angle converted from degrees to radians: the Euler order
    XYZ of the scene library.  The order in which the three components are
    assigned does not matter: the placement that assigns them in any of the
    six orders returns, from every state, what the source's placement
    (z, then x, then y) returns, and so gives the same pose.  The order of
    composition does matter in general: with all three angulations at 90
    degrees each of the five other products differs from the XYZ product.
    It does not matter for every measurement set: with valgusAngulation 0
    the products XZY and ZXY equal the XYZ product. *)
Theorem pivot_rotation_is_XYZ (ms : list (Measurements R))
    (m : Measurements R) :
  distalPoseAfter (ms ++ [m]) =
    Some (Vector3.add
            (Matrix3.apply (composeInOrder XYZ m) (distalLocalPosition m))
            (pivotPosition m),
          composeInOrder XYZ m) /\
  (forall (order : AxisOrder) scene distalBone s,
     applyDeformityAssigning order scene distalBone s =
     applyDeformity scene distalBone s) /\
  (forall order : AxisOrder, exists s0 s1 s2 scene distalBone,
     run ms = Some s0 /\ rebuildGeometry m s0 = Some s1 /\
     sceneRef s1 = Some scene /\ distalBoneRef s1 = Some distalBone /\
     applyDeformityAssigning order scene distalBone s1 = Some (tt, s2) /\
     run (ms ++ [m]) = Some s2 /\
     bonePose distalBoneRef s2 =
       Some (Vector3.add
               (Matrix3.apply (composeInOrder XYZ m) (distalLocalPosition m))
               (pivotPosition m),
             composeInOrder XYZ m)) /\
  (forall o, o <> XYZ ->
     composeInOrder o combined90 <> composeInOrder XYZ combined90) /\
  (valgusAngulation m = 0 ->
   composeInOrder XZY m = composeInOrder XYZ m /\
   composeInOrder ZXY m = composeInOrder XYZ m).
Proof.
  assert (Hpose : distalPoseAfter (ms ++ [m]) =
    Some (Vector3.add
            (Matrix3.apply (composeInOrder XYZ m) (distalLocalPosition m))
            (pivotPosition m),
          composeInOrder XYZ m)).
  { rewrite distalPoseAfter_last. unfold distalWorldPosition.
    rewrite pivotRotation_XYZ. reflexivity. }
  split; [exact Hpose|]. split; [exact applyDeformityAssigning_eq|].
  split; [|split].
  - intros order.
    destruct (setMeasurements_split ms m)
      as (s0 & s1 & s2 & sc & p & d & H0 & H1 & Hsc & _ & Hd1 & _ & _ & _ & _
          & Happ & H2 & _).
    exists s0, s1, s2, sc, d.
    split; [exact H0|]. split; [exact H1|]. split; [exact Hsc|].
    split; [exact Hd1|]. split.
    { rewrite applyDeformityAssigning_eq. exact Happ. }
    split; [exact H2|].
    unfold distalPoseAfter in Hpose. rewrite H2 in Hpose. exact Hpose.
  - intros o Ho. rewrite !composeInOrder_combined90.
    destruct o; try congruence; intros H.
    + apply (f_equal Matrix3.n12) in H. cbn in H. lra.
    + apply (f_equal Matrix3.n11) in H. cbn in H. lra.
    + apply (f_equal Matrix3.n12) in H. cbn in H. lra.
    + apply (f_equal Matrix3.n11) in H. cbn in H. lra.
    + apply (f_equal Matrix3.n22) in H. cbn in H. lra.
  - intros Hv. unfold composeInOrder, Matrix3.makeRotationZ.
    rewrite Hv, toRad_0, cos_0, sin_0.
    split; apply Matrix3_ext; cbn; ring.
Qed.

(** C3.  Applying the transform twice with the same measurement set leaves
    the distal bone where one application leaves it.  This holds for the
    whole effect (which also rebuilds the bones) and for the placement alone,
    run a second time on the bone already placed: it starts by resetting the
    bone to its anatomical position and zero rotation. *)
Theorem applyDeformity_idempotent (ms : list (Measurements R))
    (m : Measurements R) :
  exists s1 s2 pose,
    run (ms ++ [m]) = Some s1 /\
    bonePose distalBoneRef s1 = Some pose /\
    setMeasurements m s1 = Some s2 /\
    bonePose distalBoneRef s2 = Some pose /\
    exists scene distalBone s1',
      sceneRef s1 = Some scene /\ distalBoneRef s1 = Some distalBone /\
      applyDeformity scene distalBone s1 = Some (tt, s1') /\
      bonePose distalBoneRef s1' = Some pose.
Proof.
  destruct (run_last ms m) as (s1 & p & d & Hrun & HG & Hm).
  destruct (setMeasurements_Good _ _ _ m _ HG) as (s2 & Hs2 & HG2 & Hm2).
  exists s1, s2, (distalWorldPosition m, pivotRotation m).
  split; [exact Hrun|].
  split; [rewrite (proj2 (Good_poses _ _ _ _ HG)), Hm; reflexivity|].
  split; [exact Hs2|].
  split; [rewrite (proj2 (Good_poses _ _ _ _ HG2)), Hm2; reflexivity|].
  destruct (Good_two _ _ _ _ HG) as (Hn & Hdsc).
  destruct HG as (HI & Hp & Hd & Hpo & Hdo & Hroot).
  destruct (applyDeformity_frame 0%nat d s1 _ HI Hdo)
    as (s1' & Happ & HI' & Hm' & _ & Hd' & Hdo' & _);
    [reflexivity | reflexivity | exact Hroot |].
  exists 0%nat, d, s1'. split; [apply HI|]. split; [exact Hd|].
  split; [exact Happ|].
  destruct HI' as (_ & (root' & Hroot' & Hr' & _) & Hdom').
  unfold bonePose. rewrite Hd', Hd.
  rewrite (worldPose_child 0%nat s1' d root' _ Hroot' Hr' Hdo');
    [ rewrite Hm; reflexivity | reflexivity | reflexivity
    | apply isRotation_Euler | ].
  assert ((0 < nextId s1')%nat) by (apply Hdom'; rewrite Hroot'; eauto).
  assert ((d < nextId s1')%nat) by (apply Hdom'; rewrite Hdo'; eauto).
  lia.
Qed.

(** C4.  With the six displacement and angulation fields at 0 the distal
    bone ends at (0, -(fracturePosition + distalLength / 2), 0), where
    distalLength = fractureLength - fracturePosition, with the identity as
    its world rotation. *)
Theorem zero_deformity_identity (ms : list (Measurements R)) (fl fp : R) :
  distalPoseAfter (ms ++ [mkMeasurements fl fp 0 0 0 0 0 0]) =
  Some (Vector3.mk 0 (- (fp + (fl - fp) / 2)) 0, Matrix3.identity).
Proof.
  rewrite distalPoseAfter_last. unfold distalWorldPosition.
  rewrite pivotRotation_zero, apply_identity. do 2 f_equal.
  apply Vector3_ext; cbn; lra.
Qed.

(** C5.  For every measurement set [updateBoneGeometries] builds a proximal
    frustum of length fracturePosition, radii R and 0.9 R, centred at
    y = - fracturePosition / 2, and a distal frustum of length
    fractureLength - fracturePosition, radii 0.9 R and 0.8 R, centred at
    y = -(fracturePosition + distalLength / 2).  For fractureLength = 300 and
    fracturePosition = 150 both lengths are 150; for fracturePosition = 300
    the distal length is 0. *)
Theorem rebuildGeometry_frusta (ms : list (Measurements R)) :
  (forall m, exists proximalBone distalBone,
      rebuiltBones ms m = Some (proximalBone, distalBone) /\
      geometry proximalBone =
        Some (mkCylinderGeometry radius (9 / 10 * radius) (fracturePosition m)
                radialSegmentsOfBone) /\
      position proximalBone = Vector3.mk 0 (- (fracturePosition m / 2)) 0 /\
      geometry distalBone =
        Some (mkCylinderGeometry (9 / 10 * radius) (8 / 10 * radius)
                (fractureLength m - fracturePosition m)
                radialSegmentsOfBone) /\
      position distalBone =
        Vector3.mk 0
          (- (fracturePosition m
              + (fractureLength m - fracturePosition m) / 2)) 0) /\
  (forall md ad pd va aa ra, exists proximalBone distalBone,
      rebuiltBones ms (mkMeasurements 300 150 md ad pd va aa ra) =
        Some (proximalBone, distalBone) /\
      (height <$> geometry proximalBone) = Some 150 /\
      (height <$> geometry distalBone) = Some 150) /\
  (forall md ad pd va aa ra, exists proximalBone distalBone,
      rebuiltBones ms (mkMeasurements 300 300 md ad pd va aa ra) =
        Some (proximalBone, distalBone) /\
      (height <$> geometry distalBone) = Some 0).
Proof.
  split; [|split].
  - intros m. destruct (rebuiltBones_eq ms m) as (sc & H).
    exists (proximalMesh sc m), (distalMesh sc m). split; [exact H|].
    cbn [geometry position proximalMesh distalMesh].
    rewrite (Rmult_comm (9 / 10) radius), (Rmult_comm (8 / 10) radius).
    split; [reflexivity|]. split; [f_equal; lra|].
    split; [reflexivity|]. unfold anatomicalPosition. f_equal. lra.
  - intros. destruct (rebuiltBones_eq ms
                        (mkMeasurements 300 150 md ad pd va aa ra))
      as (sc & H).
    eexists. eexists. split; [exact H|].
    cbn. split; f_equal; lra.
  - intros. destruct (rebuiltBones_eq ms
                        (mkMeasurements 300 300 md ad pd va aa ra))
      as (sc & H).
    eexists. eexists. split; [exact H|].
    cbn. f_equal; lra.
Qed.

(** C6.  [updateBoneGeometries] has no failure path: for every
    fractureLength and fracturePosition it returns, and the distal geometry
    has height fractureLength - fracturePosition, negative when
    fracturePosition > fractureLength (-50 for 100 and 150). *)
Theorem rebuildGeometry_total (ms : list (Measurements R)) :
  (forall m, exists proximalBone distalBone g,
      rebuiltBones ms m = Some (proximalBone, distalBone) /\
      geometry distalBone = Some g /\
      height g = fractureLength m - fracturePosition m) /\
  (exists proximalBone distalBone g,
      rebuiltBones ms (mkMeasurements 100 150 0 0 0 0 0 0) =
        Some (proximalBone, distalBone) /\
      geometry distalBone = Some g /\
      height g = -50 /\ height g < 0).
Proof.
  split.
  - intros m. destruct (rebuiltBones_eq ms m) as (sc & H).
    do 3 eexists. split; [exact H|]. split; reflexivity.
  - destruct (rebuiltBones_eq ms (mkMeasurements 100 150 0 0 0 0 0 0))
      as (sc & H).
    do 3 eexists. split; [exact H|]. split; [reflexivity|].
    cbn. split; lra.
Qed.

(** C7.  When the edited string does not parse as a number ([parseFloat]
    gives NaN, as it does for the empty string), [handleMeasurementChange]
    sets the edited field to exactly 0 and leaves the other fields as they
    were. *)
Theorem handleMeasurementChange_parse_fallback (key : MeasurementKey)
    (value : JS.JSString) (prev : Measurements JS.number) :
  JS.isNaN (JS.parseFloat value) = true ->
  getField key (handleMeasurementChange key value prev) = JS.zero /\
  forall k, k <> key ->
            getField k (handleMeasurementChange key value prev) =
            getField k prev.
Proof.
  intros HNaN. unfold handleMeasurementChange.
  rewrite (logicalOr_NaN _ _ HNaN). split.
  - apply getField_setField_same.
  - intros k Hk. apply getField_setField_other. exact Hk.
Qed.

Lemma handleMeasurementChange_parse_fallback_witness :
  JS.isNaN (JS.parseFloat []) = true /\
  (getField KmedialDisplacement
     (handleMeasurementChange KmedialDisplacement [] initialMeasurementsJS) =
   JS.zero /\
   forall k, k <> KmedialDisplacement ->
     getField k
       (handleMeasurementChange KmedialDisplacement [] initialMeasurementsJS) =
     getField k initialMeasurementsJS).
Proof.
  split; [reflexivity|].
  apply (handleMeasurementChange_parse_fallback KmedialDisplacement []
           initialMeasurementsJS). reflexivity.
Defined.

(** C8.  The transform keeps no history: whatever measurement sets were
    applied before, after the measurement set [m] both bones have the same
    world position and rotation. *)
Theorem transform_history_free (ms1 ms2 : list (Measurements R))
    (m : Measurements R) :
  proximalPoseAfter (ms1 ++ [m]) = proximalPoseAfter (ms2 ++ [m]) /\
  distalPoseAfter (ms1 ++ [m]) = distalPoseAfter (ms2 ++ [m]) /\
  is_Some (proximalPoseAfter (ms1 ++ [m])) /\
  is_Some (distalPoseAfter (ms1 ++ [m])).
Proof.
  rewrite !proximalPoseAfter_last, !distalPoseAfter_last. eauto.
Qed.

(** C9.  After the transform the proximal bone is at
    (0, - fracturePosition / 2, 0) with the identity rotation, whatever the
    six displacement and angulation fields are.  The effect is
    [updateBoneGeometries] followed by the placement, and the placement
    leaves every object other than the distal bone and the scene as it was;
    the scene keeps its transform (only its list of children changes), and
    the pivot is an object allocated by the placement. *)
Theorem proximal_pose_frame (ms : list (Measurements R))
    (m : Measurements R) :
  proximalPoseAfter (ms ++ [m]) =
    Some (Vector3.mk 0 (- fracturePosition m / 2) 0, Matrix3.identity) /\
  exists s0 s1 s2 scene distalBone,
    run ms = Some s0 /\ rebuildGeometry m s0 = Some s1 /\
    sceneRef s1 = Some scene /\ distalBoneRef s1 = Some distalBone /\
    applyDeformity scene distalBone s1 = Some (tt, s2) /\
    run (ms ++ [m]) = Some s2 /\
    boneObject proximalBoneRef s2 = boneObject proximalBoneRef s1 /\
    is_Some (boneObject proximalBoneRef s1) /\
    (exists r1 r2, heap s1 !! scene = Some r1 /\ heap s2 !! scene = Some r2 /\
                   matrix r2 = matrix r1) /\
    heap s1 !! nextId s1 = None /\
    forall i o, heap s1 !! i = Some o -> i <> distalBone -> i <> scene ->
                heap s2 !! i = Some o.
Proof.
  split; [apply proximalPoseAfter_last|].
  destruct (setMeasurements_split ms m)
    as (s0 & s1 & s2 & sc & p & d & H0 & H1 & Hsc & Hp1 & Hd1 & Hpo & Hdo
        & Hpd & Hpsc & Happ & H2 & Hp2 & Hd2 & Hfresh & HI1 & HI2 & Hframe).
  exists s0, s1, s2, sc, d. repeat (split; [assumption|]).
  unfold boneObject. rewrite Hp1, Hp2, Hpo.
  split; [apply Hframe; assumption|]. split; [eauto|].
  split; [|split; [exact Hfresh | exact Hframe]].
  destruct HI1 as (_ & (r1 & Hr1 & Hroot1 & _) & _).
  destruct HI2 as (_ & (r2 & Hr2 & Hroot2 & _) & _).
  exists r1, r2. split; [exact Hr1|]. split; [exact Hr2|].
  rewrite (matrix_root r1 Hroot1), (matrix_root r2 Hroot2). reflexivity.
Qed.

(** C10.  After any sequence of edits no field of the measurement set is
    NaN: a parse that yields NaN is replaced by 0 before it is stored. *)
Theorem measurements_never_NaN (edits : list (MeasurementKey * JS.JSString))
    (k : MeasurementKey) :
  JS.isNaN (getField k (afterEdits edits)) = false.
Proof.
  unfold afterEdits. revert k.
  generalize initialMeasurementsJS_not_NaN. generalize initialMeasurementsJS.
  induction edits as [|[key value] edits IH]; intros m Hm k; [apply Hm|].
  cbn [fold_left fst snd]. apply IH.
  apply handleMeasurementChange_not_NaN. exact Hm.
Qed.

(* ====================================================================== *)
(** * Part VIII: further properties of the code                            *)
(* ====================================================================== *)

(* ---------------------------------------------------------------------- *)
(** ** The placement, with every object written out *)
(* ---------------------------------------------------------------------- *)

Lemma spliceFirst_eq b l : spliceFirst b (b :: l) = l.
Proof. cbn [spliceFirst]. rewrite Nat.eqb_refl. reflexivity. Qed.

Lemma spliceFirst_ne b x l :
  x <> b -> spliceFirst b (x :: l) = x :: spliceFirst b l.
Proof.
  intros H. cbn [spliceFirst]. rewrite (proj2 (Nat.eqb_neq x b) H). reflexivity.
Qed.

(** Computes [spliceFirst] on a list whose elements are told apart by
    [lia]. *)
Ltac splice :=
  repeat (cbn [app];
          first [ rewrite spliceFirst_eq | rewrite spliceFirst_ne by lia ]);
  cbn [app].

Lemma applyDeformity_explicit sc d s root od :
  heap s !! sc = Some root -> isRoot root ->
  (sc < nextId s)%nat -> (d < nextId s)%nat ->
  heap s !! d = Some od -> parent od = Some sc -> In d (children root) ->
  scale od = Vector3.one ->
  applyDeformity sc d s =
    Some (tt, setHeap
      (<[sc := setChildren
               (spliceFirst (nextId s)
                  (spliceFirst d (children root ++ [nextId s]) ++ [d])) root]>
         (<[d := placed sc (measurements s) od]>
            (<[nextId s := spentPivot (measurements s)]> (heap s))))
      (S (nextId s)) s).
Proof.
  intros Hroot Hr Hsc Hd Hod Hpar Hin Hscale.
  assert (Hdsc : d <> sc).
  { intros ->. destruct Hr as (Hp & _). congruence. }
  destruct s as [m h n scr pr dr]. st_in_all.
  destruct n as [|n0]; [lia|]. set (n := S n0) in *.
  destruct Hr as (Hrp & Hrpos & Hrq & Hrs).
  destruct root as [rp rc rpos rrot rq rs rg].
  destruct od as [odp odc odpos odrot odq ods odg].
  cbn [parent position quaternion scale children] in *. subst rp rpos rq rs odp ods.
  unfold applyDeformity.
  eapply bind_run; [reflexivity|]. norm.
  eapply bind_run; [reflexivity|]. norm.
  eapply bind_run; [apply update_run; lk|]. norm.
  eapply bind_run.
  { eapply add_fresh_run; [lia | lk | reflexivity | lk]. }
  norm.
  eapply bind_run; [apply update_run; lk|]. norm.
  eapply bind_run; [apply update_run; lk|]. norm.
  rewrite makeRotationFromEuler_zero.
  eapply bind_run.
  { eapply attach_run with (p := sc); st.
    - eapply matrixWorld_child; [lk | reflexivity |].
      eapply matrixWorld_root; [lk | reflexivity].
    - lk.
    - reflexivity.
    - eapply matrixWorld_root; [lk | reflexivity].
    - lk.
    - ob. apply in_or_app. left. exact Hin.
    - lk.
    - lia.
    - lia.
    - lia.
    - rewrite !matrix_rigid by reflexivity. ob.
      rewrite Matrix4_multiply_id_l.
      rewrite applyMatrix4_from_translated;
        [ | apply isRotation_identity | reflexivity | reflexivity ].
      rewrite apply_identity. reflexivity. }
  norm.
  eapply bind_run; [apply update_run; lk|]. norm.
  eapply bind_run; [apply update_run; lk|]. norm.
  eapply bind_run; [apply update_run; lk|]. norm.
  eapply bind_run; [apply update_run; lk|]. norm.
  eapply bind_run; [apply update_run; lk|]. norm.
  eapply bind_run; [apply update_run; lk|]. norm.
  eapply bind_run.
  { eapply attach_run with (p := n); st.
    - eapply matrixWorld_root; [lk | reflexivity].
    - lk.
    - reflexivity.
    - eapply matrixWorld_child; [lk | reflexivity |].
      eapply matrixWorld_root; [lk | reflexivity].
    - lk.
    - ob. simpl. left. reflexivity.
    - lk.
    - lia.
    - lia.
    - lia.
    - rewrite !matrix_rigid by reflexivity. ob.
      rewrite Matrix4_multiply_id_l.
      rewrite applyMatrix4_from_translated;
        [ | apply isRotation_Euler | reflexivity | reflexivity ].
      reflexivity. }
  norm.
  erewrite remove_in_run; [ | lk | | lia | lk ].
  2:{ ob. apply in_or_app. left. apply In_spliceFirst_ne; [lia|].
      apply in_or_app. right. left. reflexivity. }
  norm.
  apply (f_equal (fun H => Some (tt, mkState m H (S n) scr pr dr))).
  apply map_eq. intros i. rewrite !lookup_insert.
  repeat case_decide; subst; try lia; try reflexivity.
  - f_equal. unfold spentPivot. cbn [app]. rewrite spliceFirst_eq. reflexivity.
  - f_equal. unfold placed. ob. f_equal.
    apply Vector3_ext; cbn; ring.
Qed.

(** [updateBoneGeometries] after its two removals, whatever they did. *)
Lemma updateBoneGeometries_steps sc s h1 h2 root2 :
  (match proximalBoneRef s with Some b => remove sc b | None => ret tt end) s =
    Some (tt, setHeap h1 (nextId s) s) ->
  (match distalBoneRef s with Some b => remove sc b | None => ret tt end)
    (setHeap h1 (nextId s) s) = Some (tt, setHeap h2 (nextId s) s) ->
  h2 !! sc = Some root2 -> isRoot root2 -> (sc < nextId s)%nat ->
  updateBoneGeometries sc s =
    Some (tt, mkState (measurements s)
      (<[sc := setChildren (children root2 ++ [nextId s; S (nextId s)]) root2]>
         (<[S (nextId s) := distalMesh sc (measurements s)]>
            (<[nextId s := proximalMesh sc (measurements s)]> h2)))
      (S (S (nextId s))) (sceneRef s) (Some (nextId s)) (Some (S (nextId s)))).
Proof.
  intros E1 E2 Hroot2 Hr2 Hsc.
  destruct s as [m h n scr pr dr]. st_in_all.
  unfold updateBoneGeometries.
  eapply bind_run; [reflexivity|]. st.
  eapply bind_run; [exact E1|].
  eapply bind_run; [exact E2|].
  destruct Hr2 as (Hrp & Hrpos & Hrq & Hrs).
  destruct root2 as [rp rc rpos rrot rq rs rg].
  cbn [parent position quaternion scale children] in *. subst rp rpos rq rs.
  unfold newMesh.
  eapply bind_run; [reflexivity|]. norm.
  eapply bind_run; [apply update_run; lk|]. norm.
  eapply bind_run.
  { eapply add_fresh_run; [lia | lk | reflexivity | lk]. }
  norm.
  eapply bind_run; [reflexivity|]. norm.
  eapply bind_run; [reflexivity|]. norm.
  eapply bind_run; [apply update_run; lk|]. norm.
  eapply bind_run.
  { eapply add_fresh_run; [lia | lk | reflexivity | lk]. }
  norm. unfold modify. norm.
  apply (f_equal (fun H => Some (tt, mkState m H (S (S n)) scr (Some n) (Some (S n))))).
  apply map_eq. intros i. rewrite !lookup_insert.
  repeat case_decide; subst; try lia; try reflexivity.
  rewrite <- app_assoc. reflexivity.
Qed.

(* ---------------------------------------------------------------------- *)
(** ** The scene graph stays tidy *)
(* ---------------------------------------------------------------------- *)

(** One run of the effect on [measurements] from a tidy state: the old bones
    and the pivot end up detached, the new bones take their place. *)
Lemma measurementsEffect_Tidy p d s :
  Tidy p d s ->
  exists s',
    measurementsEffect s = Some (tt, s') /\
    Tidy (nextId s) (S (nextId s)) s' /\
    nextId s' = S (S (S (nextId s))) /\
    measurements s' = measurements s /\
    heap s' !! S (S (nextId s)) = Some (spentPivot (measurements s)).
Proof.
  intros (Hscr & Hpr & Hdr & Hp4 & Hpd & Hdn & (root & Hroot & Hr & Hch) & Ha & Hdl
          & Hg & Hax & Hall & Hdom).
  destruct (proj2 (Hdom p)) as [op Hop]; [lia|].
  destruct (proj2 (Hdom d)) as [od Hod]; [lia|].
  destruct s as [m h n scr pr dr]. st_in_all. subst scr pr dr.
  set (r1 := setChildren (spliceFirst p (children root)) root).
  set (h1 := <[0%nat := r1]> (<[p := setParent None op]> h)).
  set (r2 := setChildren (spliceFirst d (children r1)) r1).
  set (h2 := <[0%nat := r2]> (<[d := setParent None od]> h1)).
  assert (E1 : remove 0%nat p (mkState m h n (Some 0%nat) (Some p) (Some d)) =
               Some (tt, mkState m h1 n (Some 0%nat) (Some p) (Some d))).
  { erewrite remove_in_run; [reflexivity | exact Hroot | | lia | exact Hop].
    rewrite Hch. simpl. tauto. }
  assert (E2 : remove 0%nat d (mkState m h1 n (Some 0%nat) (Some p) (Some d)) =
               Some (tt, mkState m h2 n (Some 0%nat) (Some p) (Some d))).
  { erewrite remove_in_run with (t := r1) (o := od); [reflexivity | | | lia | ].
    - subst h1. lk.
    - subst r1. cbn [children setChildren]. rewrite Hch. splice. simpl. tauto.
    - subst h1. st. rewrite !lookup_insert_ne by lia. exact Hod. }
  assert (Hr2 : isRoot r2).
  { subst r2 r1. apply isRoot_setChildren, isRoot_setChildren, Hr. }
  assert (Hc2 : children r2 = [1; 2; 3; 4]%nat).
  { subst r2 r1. cbn [children setChildren]. rewrite Hch. splice. reflexivity. }
  pose proof (updateBoneGeometries_steps 0%nat
    (mkState m h n (Some 0%nat) (Some p) (Some d)) h1 h2 r2 E1 E2) as Hrun1.
  st_in_all. specialize (Hrun1 ltac:(subst h2; lk) Hr2 ltac:(lia)).
  match type of Hrun1 with _ = Some (_, ?x) => set (s1 := x) in * end.
  pose proof (applyDeformity_explicit 0%nat (S n) s1
    (setChildren (children r2 ++ [n; S n]) r2) (distalMesh 0%nat m)) as Hrun2.
  subst s1. st_in_all.
  specialize (Hrun2 ltac:(lk) ltac:(apply isRoot_setChildren, Hr2) ltac:(lia)
    ltac:(lia) ltac:(lk) eq_refl
    ltac:(cbn [children setChildren]; rewrite Hc2; simpl; tauto) eq_refl).
  eexists. split.
  { eapply measurementsEffect_unfold;
      [reflexivity | reflexivity | exact Hrun1 | reflexivity | exact Hrun2]. }
  cbn [children setChildren] in *. rewrite Hc2.
  replace (spliceFirst (S (S n))
            (spliceFirst (S n) (([1; 2; 3; 4] ++ [n; S n]) ++ [S (S n)]) ++ [S n]))%nat
    with [1; 2; 3; 4; n; S n]%nat by (splice; reflexivity).
  split; [|split; [reflexivity|split; [reflexivity|lk]]].
  unfold Tidy. st.
  split; [reflexivity|]. split; [reflexivity|]. split; [reflexivity|].
  split; [lia|]. split; [lia|]. split; [lia|].
  split.
  { eexists. rewrite lookup_insert_eq. split; [reflexivity|].
    split; [|reflexivity]. apply isRoot_setChildren, isRoot_setChildren, Hr2. }
  assert (Hfr : forall i : nat, i <> 0%nat -> i <> p -> i <> d -> (i < n)%nat ->
     (<[0%nat := setChildren [1; 2; 3; 4; n; S n]%nat (setChildren ([1; 2; 3; 4] ++ [n; S n])%nat r2)]>
       (<[S n := placed 0%nat m (distalMesh 0%nat m)]>
        (<[S (S n) := spentPivot m]>
         (<[0%nat := setChildren ([1; 2; 3; 4] ++ [n; S n])%nat r2]>
          (<[S n := distalMesh 0%nat m]>
           (<[n := proximalMesh 0%nat m]> h2)))))) !! i = h !! i).
  { intros i H0 H1 H2 H3. subst h2 h1. rewrite !lookup_insert_ne by lia. reflexivity. }
  split; [rewrite Hfr by lia; exact Ha|].
  split; [rewrite Hfr by lia; exact Hdl|].
  split; [rewrite Hfr by lia; exact Hg|].
  split; [rewrite Hfr by lia; exact Hax|].
  split.
  - intros i o Hi Hi0.
    destruct (decide (i = S (S n))) as [->|H1].
    { rewrite lookup_insert_ne, lookup_insert_ne, lookup_insert_eq in Hi by lia.
      injection Hi as <-. split; [reflexivity|].
      cbn [existsb]. rewrite !(proj2 (Nat.eqb_neq _ _)) by lia. reflexivity. }
    destruct (decide (i = S n)) as [->|H2].
    { rewrite lookup_insert_ne, lookup_insert_eq in Hi by lia.
      injection Hi as <-. split; [reflexivity|].
      cbn [existsb]. rewrite Nat.eqb_refl, !orb_true_r. reflexivity. }
    destruct (decide (i = n)) as [->|H3].
    { rewrite !lookup_insert_ne in Hi by lia. subst h2 h1.
      rewrite lookup_insert_eq in Hi.
      injection Hi as <-. split; [reflexivity|].
      cbn [existsb]. rewrite Nat.eqb_refl, !orb_true_r. reflexivity. }
    rewrite !lookup_insert_ne in Hi by lia. subst h2 h1.
    rewrite lookup_insert_ne in Hi by lia.
    assert (Hnotin : existsb (Nat.eqb i) [1; 2; 3; 4; n; S n]%nat =
                     existsb (Nat.eqb i) [1; 2; 3; 4]%nat).
    { cbn [existsb]. rewrite (proj2 (Nat.eqb_neq i n)), (proj2 (Nat.eqb_neq i (S n))) by lia.
      rewrite !orb_false_r. reflexivity. }
    destruct (decide (i = d)) as [->|H4].
    { rewrite lookup_insert_eq in Hi. injection Hi as <-.
      destruct (Hall d od Hod ltac:(lia)) as [Hc _].
      split; [exact Hc|]. rewrite Hnotin. cbn [existsb].
      rewrite !(proj2 (Nat.eqb_neq _ _)) by lia. reflexivity. }
    rewrite lookup_insert_ne in Hi by lia.
    rewrite lookup_insert_ne in Hi by lia.
    destruct (decide (i = p)) as [->|H5].
    { rewrite lookup_insert_eq in Hi. injection Hi as <-.
      destruct (Hall p op Hop ltac:(lia)) as [Hc _].
      split; [exact Hc|]. rewrite Hnotin. cbn [existsb].
      rewrite !(proj2 (Nat.eqb_neq _ _)) by lia. reflexivity. }
    rewrite lookup_insert_ne in Hi by lia.
    destruct (Hall i o Hi Hi0) as [Hc Hpar]. split; [exact Hc|].
    rewrite Hpar, Hnotin. cbn [existsb].
    rewrite (proj2 (Nat.eqb_neq i p)), (proj2 (Nat.eqb_neq i d)) by lia.
    rewrite !orb_false_r. reflexivity.
  - intros i. subst h2 h1. rewrite !lookup_insert_is_Some. rewrite Hdom. lia.
Qed.

Lemma setupEffect_Tidy :
  exists s,
    setupEffect initialState = Some (tt, s) /\ Tidy 5 6 s /\
    nextId s = 7%nat /\ measurements s = initialMeasurements.
Proof.
  eexists. split.
  { unfold setupEffect, initialState.
    eapply bind_run; [reflexivity|]. norm.
    eapply bind_run; [reflexivity|]. norm.
    eapply bind_run; [reflexivity|]. norm.
    eapply bind_run.
    { eapply add_fresh_run; [lia | lk | reflexivity | lk]. }
    norm.
    eapply bind_run; [reflexivity|]. norm.
    eapply bind_run; [apply update_run; lk|]. norm.
    eapply bind_run.
    { eapply add_fresh_run; [lia | lk | reflexivity | lk]. }
    norm.
    eapply bind_run; [reflexivity|]. norm.
    eapply bind_run; [apply update_run; lk|]. norm.
    eapply bind_run.
    { eapply add_fresh_run; [lia | lk | reflexivity | lk]. }
    norm.
    eapply bind_run; [reflexivity|]. norm.
    eapply bind_run.
    { eapply add_fresh_run; [lia | lk | reflexivity | lk]. }
    norm.
    erewrite updateBoneGeometries_steps;
      [ reflexivity | reflexivity | reflexivity | lk | repeat split | st; lia ]. }
  st. split; [|split; reflexivity].
  unfold Tidy. st.
  split; [reflexivity|]. split; [reflexivity|]. split; [reflexivity|].
  split; [lia|]. split; [lia|]. split; [lia|].
  split.
  { eexists. rewrite lookup_insert_eq. split; [reflexivity|].
    split; [repeat split | reflexivity]. }
  split; [lk|]. split; [lk|]. split; [lk|]. split; [lk|].
  split.
  - intros i o Hi Hi0.
    destruct i as [|[|[|[|[|[|[|i]]]]]]]; [lia |..];
      repeat first [ rewrite lookup_insert_eq in Hi
                   | rewrite lookup_insert_ne in Hi by lia ];
      try (rewrite lookup_empty in Hi; discriminate Hi);
      injection Hi as <-; split; reflexivity.
  - intros i. rewrite !lookup_insert_is_Some, lookup_empty. split.
    + intros H. repeat (destruct H as [H|[_ H]]; [lia|]).
      destruct H as [? H]. discriminate H.
    + intros H. destruct i as [|[|[|[|[|[|[|i]]]]]]]; try lia;
        repeat first [ left; lia | right; split; [lia|] ].
Qed.

Lemma mount_Tidy :
  exists s, mount = Some s /\ Tidy 7 8 s /\ nextId s = 10%nat /\
            measurements s = initialMeasurements /\
            heap s !! 9%nat = Some (spentPivot initialMeasurements).
Proof.
  destruct setupEffect_Tidy as (s0 & Hrun0 & HT0 & Hn0 & Hm0).
  destruct (measurementsEffect_Tidy _ _ _ HT0) as (s & Hrun & HT & Hn & Hm & Hpv).
  exists s. unfold mount.
  erewrite bind_run; [ | exact Hrun0 | exact Hrun ].
  rewrite Hn0, Hm0 in *. split; [reflexivity|]. split; [exact HT|].
  split; [exact Hn|]. split; [exact Hm | exact Hpv].
Qed.

Lemma Tidy_setMeasurementsField p d m s :
  Tidy p d s -> Tidy p d (setMeasurementsField m s).
Proof. destruct s. exact (fun H => H). Qed.

Lemma setMeasurements_Tidy p d m s :
  Tidy p d s ->
  exists s', setMeasurements m s = Some s' /\
             Tidy (nextId s) (S (nextId s)) s' /\
             nextId s' = S (S (S (nextId s))) /\ measurements s' = m /\
             heap s' !! S (S (nextId s)) = Some (spentPivot m).
Proof.
  intros HT.
  destruct (measurementsEffect_Tidy p d _ (Tidy_setMeasurementsField p d m s HT))
    as (s' & Hrun & HT' & Hn & Hm & Hpv).
  exists s'. unfold setMeasurements.
  erewrite bind_run; [ | reflexivity | exact Hrun ].
  destruct s; split; [reflexivity|]. split; [exact HT'|].
  split; [exact Hn|]. split; [exact Hm | exact Hpv].
Qed.

Lemma runFrom_Tidy ms : forall p d s,
  Tidy p d s -> S (S (S p)) = nextId s -> d = S p ->
  heap s !! S d = Some (spentPivot (measurements s)) ->
  exists s' p', runFrom s ms = Some s' /\ Tidy p' (S p') s' /\
    nextId s' = (nextId s + 3 * List.length ms)%nat /\
    S (S (S p')) = nextId s' /\
    heap s' !! S (S p') = Some (spentPivot (measurements s')) /\
    measurements s' = List.last ms (measurements s).
Proof.
  induction ms as [|m ms IH]; intros p d s HT Hp Hd Hpv.
  - exists s, p. subst d. cbn [runFrom List.length List.last].
    split; [reflexivity|]. split; [exact HT|]. split; [lia|].
    split; [exact Hp|]. split; [exact Hpv | reflexivity].
  - destruct (setMeasurements_Tidy p d m s HT) as (s1 & Hs1 & HT1 & Hn1 & Hm1 & Hpv1).
    destruct (IH _ _ _ HT1 ltac:(lia) eq_refl ltac:(rewrite Hm1; exact Hpv1))
      as (s' & p' & Hrun & HT' & Hn' & Hp' & Hpv' & Hm').
    exists s', p'. cbn [runFrom]. rewrite Hs1. split; [exact Hrun|].
    split; [exact HT'|]. split; [cbn [List.length]; lia|].
    split; [exact Hp'|]. split; [exact Hpv'|].
    rewrite Hm', Hm1, last_cons. reflexivity.
Qed.


Lemma run_Tidy ms :
  exists s p, run ms = Some s /\ Tidy p (S p) s /\
    nextId s = (10 + 3 * List.length ms)%nat /\ S (S (S p)) = nextId s /\
    heap s !! S (S p) = Some (spentPivot (measurements s)) /\
    measurements s = List.last ms initialMeasurements.
Proof.
  destruct mount_Tidy as (s0 & Hm & HT & Hn & Hms & Hpv).
  destruct (runFrom_Tidy ms 7 8 s0 HT)
    as (s & p & Hrun & HT' & Hn' & Hp & Hpv' & Hm');
    [lia | reflexivity | rewrite Hms; exact Hpv |].
  exists s, p. unfold run. rewrite Hm. split; [exact Hrun|].
  split; [exact HT'|]. split; [lia|]. split; [exact Hp|].
  split; [exact Hpv' | congruence].
Qed.

(* ---------------------------------------------------------------------- *)
(** ** The placement stage by stage *)
(* ---------------------------------------------------------------------- *)

(** World pose of a rigid object whose parent is a rigid child of the
    scene. *)
Lemma worldPose_grandchild sc s p b root po o :
  heap s !! sc = Some root -> isRoot root ->
  heap s !! p = Some po -> parent po = Some sc -> scale po = Vector3.one ->
  heap s !! b = Some o -> parent o = Some p -> scale o = Vector3.one ->
  isRotation (Matrix3.multiply (quaternion po) (quaternion o)) ->
  (3 <= nextId s)%nat ->
  worldPose s b =
    Some (Vector3.add (Matrix3.apply (quaternion po) (position o)) (position po),
          Matrix3.multiply (quaternion po) (quaternion o)).
Proof.
  intros Hroot Hr Hp Hpp Hps Hb Hbp Hbs Hq Hn. unfold worldPose.
  destruct (nextId s) as [|[|[|k]]]; [lia | lia | lia |].
  rewrite (matrixWorld_child _ _ b o p (matrix po) Hb Hbp).
  - rewrite (matrix_rigid po Hps), (matrix_rigid o Hbs).
    unfold Matrix4.multiply. cbn [Matrix4.linear Matrix4.translation].
    rewrite (decompose_rotation _ _ Hq). reflexivity.
  - rewrite (matrixWorld_child _ _ p po sc (matrix root) Hp Hpp)
      by (apply matrixWorld_root; [exact Hroot | apply Hr]).
    rewrite (matrix_root root Hr), Matrix4_multiply_identity_l. reflexivity.
Qed.

Lemma placement_stages_run sc d s root od :
  heap s !! sc = Some root -> isRoot root ->
  (sc < nextId s)%nat -> (d < nextId s)%nat ->
  heap s !! d = Some od -> parent od = Some sc -> In d (children root) ->
  scale od = Vector3.one ->
  exists sa sb s2,
    hangOnPivot sc d s = Some (nextId s, sa) /\
    rotateAndDisplace (nextId s) d sa = Some (tt, sb) /\
    backToScene sc (nextId s) d sb = Some (tt, s2) /\
    applyDeformity sc d s = Some (tt, s2) /\
    worldPose sa d = Some (anatomicalPosition (measurements s), Matrix3.identity) /\
    (parent <$> heap sa !! d) = Some (Some (nextId s)) /\
    worldPose sb d =
      Some (distalWorldPosition (measurements s), pivotRotation (measurements s)) /\
    (parent <$> heap sb !! d) = Some (Some (nextId s)) /\
    worldPose s2 d =
      Some (distalWorldPosition (measurements s), pivotRotation (measurements s)) /\
    (parent <$> heap s2 !! d) = Some (Some sc).
Proof.
  intros Hroot Hr Hsc Hd Hod Hpar Hin Hscale.
  pose proof (applyDeformity_explicit sc d s root od Hroot Hr Hsc Hd Hod Hpar Hin Hscale)
    as Hwhole.
  assert (Hdsc : d <> sc).
  { intros ->. destruct Hr as (Hp & _). congruence. }
  destruct s as [m h n scr pr dr]. st_in_all.
  destruct n as [|n0]; [lia|]. set (n := S n0) in *.
  destruct Hr as (Hrp & Hrpos & Hrq & Hrs).
  destruct root as [rp rc rpos rrot rq rs rg].
  destruct od as [odp odc odpos odrot odq ods odg].
  cbn [parent position quaternion scale children] in *. subst rp rpos rq rs odp ods.
  do 3 eexists.
  split.
  { unfold hangOnPivot.
    eapply bind_run; [reflexivity|]. norm.
    eapply bind_run; [reflexivity|]. norm.
    eapply bind_run; [apply update_run; lk|]. norm.
    eapply bind_run.
    { eapply add_fresh_run; [lia | lk | reflexivity | lk]. }
    norm.
    eapply bind_run; [apply update_run; lk|]. norm.
    eapply bind_run; [apply update_run; lk|]. norm.
    rewrite makeRotationFromEuler_zero.
    eapply bind_run.
    { eapply attach_run with (p := sc); st.
      - eapply matrixWorld_child; [lk | reflexivity |].
        eapply matrixWorld_root; [lk | reflexivity].
      - lk.
      - reflexivity.
      - eapply matrixWorld_root; [lk | reflexivity].
      - lk.
      - ob. apply in_or_app. left. exact Hin.
      - lk.
      - lia.
      - lia.
      - lia.
      - rewrite !matrix_rigid by reflexivity. ob.
        rewrite Matrix4_multiply_id_l.
        rewrite applyMatrix4_from_translated;
          [ | apply isRotation_identity | reflexivity | reflexivity ].
        rewrite apply_identity. reflexivity. }
    norm. reflexivity. }
  split.
  { unfold rotateAndDisplace.
    eapply bind_run; [reflexivity|]. norm.
    eapply bind_run; [apply update_run; lk|]. norm.
    eapply bind_run; [apply update_run; lk|]. norm.
    eapply bind_run; [apply update_run; lk|]. norm.
    eapply bind_run; [apply update_run; lk|]. norm.
    eapply bind_run; [apply update_run; lk|]. norm.
    erewrite update_run by lk. norm. reflexivity. }
  split.
  { unfold backToScene.
    eapply bind_run.
    { eapply attach_run with (p := n); st.
      - eapply matrixWorld_root; [lk | reflexivity].
      - lk.
      - reflexivity.
      - eapply matrixWorld_child; [lk | reflexivity |].
        eapply matrixWorld_root; [lk | reflexivity].
      - lk.
      - ob. simpl. left. reflexivity.
      - lk.
      - lia.
      - lia.
      - lia.
      - rewrite !matrix_rigid by reflexivity. ob.
        rewrite Matrix4_multiply_id_l.
        rewrite applyMatrix4_from_translated;
          [ | apply isRotation_Euler | reflexivity | reflexivity ].
        reflexivity. }
    norm.
    erewrite remove_in_run; [ | lk | | lia | lk ].
    2:{ ob. apply in_or_app. left. apply In_spliceFirst_ne; [lia|].
        apply in_or_app. right. left. reflexivity. }
    norm. reflexivity. }
  split.
  { rewrite Hwhole. st.
    apply (f_equal (fun H => Some (tt, mkState m H (S n) scr pr dr))).
    apply map_eq. intros i. rewrite !lookup_insert.
    repeat case_decide; subst; try lia; try reflexivity.
    - f_equal. unfold placed. ob. f_equal. apply Vector3_ext; cbn; ring.
    - f_equal. unfold spentPivot. cbn [app]. rewrite spliceFirst_eq. reflexivity. }
  assert (Hn3 : (3 <= S n)%nat) by lia.
  split.
  { erewrite worldPose_grandchild with (sc := sc) (p := n);
      [ | lk | repeat split | lk | reflexivity | reflexivity | lk | reflexivity
        | reflexivity | ob; rewrite multiply_identity_l; apply isRotation_identity
        | exact Hn3 ].
    ob. rewrite multiply_identity_l, apply_identity. f_equal. f_equal.
    apply Vector3_ext; cbn; ring. }
  split.
  { st. repeat first [ rewrite lookup_insert_eq | rewrite lookup_insert_ne by lia ].
    reflexivity. }
  split.
  { erewrite worldPose_grandchild with (sc := sc) (p := n);
      [ | lk | repeat split | lk | reflexivity | reflexivity | lk | reflexivity
        | reflexivity | ob; rewrite multiply_identity_r; apply isRotation_Euler
        | exact Hn3 ].
    ob. rewrite multiply_identity_r. f_equal. f_equal.
    unfold distalWorldPosition, distalLocalPosition, anatomicalPosition,
      pivotPosition, displacement, pivotRotation, pivotEuler.
    f_equal. f_equal. apply Vector3_ext; cbn; ring. }
  split.
  { st. repeat first [ rewrite lookup_insert_eq | rewrite lookup_insert_ne by lia ].
    reflexivity. }
  split.
  { erewrite worldPose_child with (sc := sc);
      [ | lk | repeat split | lk | reflexivity | reflexivity
        | ob; apply isRotation_Euler | st; lia ].
    ob. f_equal. f_equal.
    unfold distalWorldPosition, distalLocalPosition, anatomicalPosition,
      pivotPosition, displacement, pivotRotation, pivotEuler.
    apply Vector3_ext; cbn; ring. }
  st. repeat first [ rewrite lookup_insert_eq | rewrite lookup_insert_ne by lia ].
  reflexivity.
Qed.


(* ---------------------------------------------------------------------- *)
(** ** The ends of the bones *)
(* ---------------------------------------------------------------------- *)

Lemma localToWorld_child sc s b root o v :
  heap s !! sc = Some root -> isRoot root ->
  heap s !! b = Some o -> parent o = Some sc ->
  scale o = Vector3.one -> (2 <= nextId s)%nat ->
  localToWorld s b v =
    Some (Vector3.add (Matrix3.apply (quaternion o) v) (position o)).
Proof.
  intros Hroot Hr Hb Hp Hs Hn. unfold localToWorld.
  destruct (nextId s) as [|[|k]]; [lia | lia |].
  rewrite (matrixWorld_child _ _ b o sc (matrix root) Hb Hp)
    by (apply matrixWorld_root; [exact Hroot | apply Hr]).
  rewrite (matrix_root root Hr), Matrix4_multiply_identity_l.
  rewrite (matrix_rigid o Hs). reflexivity.
Qed.

Lemma boneEndAfter_last ms m e :
  boneEndAfter proximalBoneRef e (ms ++ [m]) =
    Some (Vector3.add
       (e (mkCylinderGeometry radius (radius * (9 / 10)) (fracturePosition m)
             radialSegmentsOfBone))
       (Vector3.mk 0 (- fracturePosition m / 2) 0)) /\
  boneEndAfter distalBoneRef e (ms ++ [m]) =
    Some (Vector3.add
       (Matrix3.apply (pivotRotation m)
          (e (mkCylinderGeometry (radius * (9 / 10)) (radius * (8 / 10))
                (fractureLength m - fracturePosition m) radialSegmentsOfBone)))
       (distalWorldPosition m)).
Proof.
  destruct (run_last ms m) as (s & p & d & Hrun & HG & Hm).
  destruct (Good_two _ _ _ _ HG) as (Hn & _).
  destruct HG as ((_ & (root & Hroot & Hr & _) & _) & Hp & Hd & Hpo & Hdo & _).
  unfold boneEndAfter, boneObject. rewrite Hrun, Hp, Hd, Hpo, Hdo, Hm.
  cbn [geometry proximalMesh placed setParent setScale setQuaternion
       setPosition distalMesh].
  split.
  - rewrite (localToWorld_child 0%nat s p root _ _ Hroot Hr Hpo);
      [ | reflexivity | reflexivity | exact Hn ].
    rewrite Hm. cbn [quaternion position proximalMesh].
    rewrite apply_identity. reflexivity.
  - rewrite (localToWorld_child 0%nat s d root _ _ Hroot Hr Hdo);
      [ | reflexivity | reflexivity | exact Hn ].
    rewrite Hm. reflexivity.
Qed.

Lemma distalEnds ms m :
  boneEndAfter distalBoneRef topCentre (ms ++ [m]) =
    Some (Vector3.add (pivotPosition m)
            (Matrix3.apply (pivotRotation m) (displacement m))) /\
  boneEndAfter distalBoneRef bottomCentre (ms ++ [m]) =
    Some (Vector3.add (pivotPosition m)
            (Matrix3.apply (pivotRotation m)
               (Vector3.add (displacement m)
                  (Vector3.mk 0 (- (fractureLength m - fracturePosition m)) 0)))).
Proof.
  rewrite (proj2 (boneEndAfter_last ms m topCentre)).
  rewrite (proj2 (boneEndAfter_last ms m bottomCentre)).
  unfold distalWorldPosition, distalLocalPosition, anatomicalPosition,
    pivotPosition, displacement, topCentre, bottomCentre.
  cbn [height].
  split; f_equal; destruct (pivotRotation m); apply Vector3_ext; cbn; lra.
Qed.

Lemma pivotRotation_none m :
  valgusAngulation m = 0 -> anteversionAngulation m = 0 ->
  rotationalAngulation m = 0 -> pivotRotation m = Matrix3.identity.
Proof.
  intros H1 H2 H3. unfold pivotRotation, pivotEuler.
  rewrite H1, H2, H3, toRad_0. apply makeRotationFromEuler_zero.
Qed.

Lemma rotation_preserves_length q v :
  isRotation q -> Vector3.length (Matrix3.apply q v) = Vector3.length v.
Proof.
  intros [Ho _]. unfold Vector3.length. f_equal.
  pose proof (f_equal Matrix3.n11 Ho) as E11.
  pose proof (f_equal Matrix3.n12 Ho) as E12.
  pose proof (f_equal Matrix3.n13 Ho) as E13.
  pose proof (f_equal Matrix3.n22 Ho) as E22.
  pose proof (f_equal Matrix3.n23 Ho) as E23.
  pose proof (f_equal Matrix3.n33 Ho) as E33.
  destruct q as [a b c d e f g h i], v as [x y z]. cbn in *.
  replace ((a * x + b * y + c * z) * (a * x + b * y + c * z) +
           (d * x + e * y + f * z) * (d * x + e * y + f * z) +
           (g * x + h * y + i * z) * (g * x + h * y + i * z))
    with ((a * a + d * d + g * g) * (x * x) + (b * b + e * e + h * h) * (y * y)
          + (c * c + f * f + i * i) * (z * z)
          + 2 * (a * b + d * e + g * h) * (x * y)
          + 2 * (a * c + d * f + g * i) * (x * z)
          + 2 * (b * c + e * f + h * i) * (y * z)) by ring.
  rewrite E11, E12, E13, E22, E23, E33. ring.
Qed.




Lemma toRad_opp x : toRad (- x) = - toRad x.
Proof. unfold toRad. lra. Qed.

(* ---------------------------------------------------------------------- *)
(** ** Without a container *)
(* ---------------------------------------------------------------------- *)

Lemma setMeasurements_no_scene m s :
  sceneRef s = None -> setMeasurements m s = Some (setMeasurementsField m s).
Proof.
  intros H. unfold setMeasurements, measurementsEffect, bind, modify, get.
  cbn [sceneRef setMeasurementsField]. rewrite H. reflexivity.
Qed.

Lemma runFrom_no_scene ms : forall s,
  sceneRef s = None ->
  runFrom s ms = Some (setMeasurementsField (List.last ms (measurements s)) s).
Proof.
  induction ms as [|m ms IH]; intros s H.
  - destruct s; reflexivity.
  - cbn [runFrom]. rewrite (setMeasurements_no_scene m s H).
    rewrite IH by (destruct s; exact H). rewrite last_cons.
    destruct s; reflexivity.
Qed.

(* ---------------------------------------------------------------------- *)
(** ** The camera *)
(* ---------------------------------------------------------------------- *)

Lemma toggleView_cameraAt b p :
  toggleView (mkView b (Some (cameraAt p))) =
  mkView (negb b) (Some (cameraAt (viewPosition (negb b)))).
Proof. destruct b; reflexivity. Qed.

Lemma toggleView_iter n :
  Nat.iter n toggleView (setupCamera initialView) =
  mkView (Nat.even n) (Some (cameraAt (viewPosition (Nat.even n)))).
Proof.
  induction n as [|n IH]; [reflexivity|].
  rewrite Nat.iter_succ, IH, toggleView_cameraAt.
  rewrite Nat.even_succ, <- Nat.negb_even. reflexivity.
Qed.

Lemma normalize_scaled a l :
  0 < l -> Vector3.lengthSq a = l * l ->
  Vector3.normalize a = Vector3.multiplyScalar (1 / l) a.
Proof.
  intros Hl H. unfold Vector3.normalize, Vector3.divideScalar.
  assert (E : Vector3.length a = l).
  { unfold Vector3.length. unfold Vector3.lengthSq in H. rewrite H.
    apply sqrt_square. lra. }
  rewrite E. destruct (Req_dec_T l 0); [lra | reflexivity].
Qed.

(** [Matrix4.lookAt] away from its two degenerate cases. *)
Lemma lookAt_regular eye target up l k :
  0 < l -> Vector3.lengthSq (Vector3.sub eye target) = l * l ->
  0 < k ->
  Vector3.lengthSq
    (Vector3.crossVectors up
       (Vector3.multiplyScalar (1 / l) (Vector3.sub eye target))) = k * k ->
  Matrix4.lookAt eye target up =
  let z := Vector3.multiplyScalar (1 / l) (Vector3.sub eye target) in
  let x := Vector3.multiplyScalar (1 / k) (Vector3.crossVectors up z) in
  let y := Vector3.crossVectors z x in
  Matrix3.mk (Vector3.x x) (Vector3.x y) (Vector3.x z)
             (Vector3.y x) (Vector3.y y) (Vector3.y z)
             (Vector3.z x) (Vector3.z y) (Vector3.z z).
Proof.
  intros Hl El Hk Ek. unfold Matrix4.lookAt.
  destruct (Req_dec_T (Vector3.lengthSq (Vector3.sub eye target)) 0) as [E|_].
  { rewrite El in E. nra. }
  rewrite (normalize_scaled _ l Hl El).
  destruct (Req_dec_T _ 0) as [E|_].
  { rewrite Ek in E. nra. }
  rewrite (normalize_scaled _ k Hk Ek). reflexivity.
Qed.

Lemma viewDistance_pos : 0 < viewDistance.
Proof. apply sqrt_lt_R0. lra. Qed.

Lemma viewDistance_sq : viewDistance * viewDistance = 272500.
Proof. apply sqrt_sqrt. lra. Qed.

Ltac v3 := cbv beta iota zeta delta [Vector3.lengthSq Vector3.multiplyScalar
  Vector3.crossVectors Vector3.sub Vector3.x Vector3.y Vector3.z DEFAULT_UP].

Lemma lookAt_front :
  Matrix4.lookAt (Vector3.mk 0 0 500) (Vector3.mk 0 (-150) 0) DEFAULT_UP =
  Matrix3.mk 1 0 0
             0 (500 / viewDistance) (150 / viewDistance)
             0 (- (150 / viewDistance)) (500 / viewDistance).
Proof.
  pose proof viewDistance_pos as Hp. pose proof viewDistance_sq as Hs.
  rewrite (lookAt_regular _ _ _ viewDistance (500 / viewDistance)).
  - v3. apply Matrix3_ext; cbv beta iota delta [Matrix3.n11 Matrix3.n12
      Matrix3.n13 Matrix3.n21 Matrix3.n22 Matrix3.n23 Matrix3.n31 Matrix3.n32
      Matrix3.n33]; field_simplify_eq; try lra; nra.
  - exact Hp.
  - v3. lra.
  - apply Rdiv_lt_0_compat; lra.
  - v3. field. lra.
Qed.

Lemma lookAt_side :
  Matrix4.lookAt (Vector3.mk 500 0 0) (Vector3.mk 0 (-150) 0) DEFAULT_UP =
  Matrix3.mk 0 (- (150 / viewDistance)) (500 / viewDistance)
             0 (500 / viewDistance) (150 / viewDistance)
             (-1) 0 0.
Proof.
  pose proof viewDistance_pos as Hp. pose proof viewDistance_sq as Hs.
  rewrite (lookAt_regular _ _ _ viewDistance (500 / viewDistance)).
  - v3. apply Matrix3_ext; cbv beta iota delta [Matrix3.n11 Matrix3.n12
      Matrix3.n13 Matrix3.n21 Matrix3.n22 Matrix3.n23 Matrix3.n31 Matrix3.n32
      Matrix3.n33]; field_simplify_eq; try lra; nra.
  - exact Hp.
  - v3. lra.
  - apply Rdiv_lt_0_compat; lra.
  - v3. field. lra.
Qed.

Lemma cameraAt_facts b :
  position (cameraAt (viewPosition b)) = viewPosition b /\
  Vector3.add
    (Matrix3.apply (quaternion (cameraAt (viewPosition b)))
       (Vector3.mk 0 0 (- viewDistance)))
    (position (cameraAt (viewPosition b))) = Vector3.mk 0 (-150) 0 /\
  isRotation (quaternion (cameraAt (viewPosition b))) /\
  Matrix3.n21 (quaternion (cameraAt (viewPosition b))) = 0 /\
  0 < Matrix3.n22 (quaternion (cameraAt (viewPosition b))).
Proof.
  pose proof viewDistance_pos as Hp. pose proof viewDistance_sq as Hs.
  assert (Hd : 0 < 500 / viewDistance) by (apply Rdiv_lt_0_compat; lra).
  unfold cameraAt, lookAt.
  cbn [position quaternion setQuaternion setPosition newObject3D].
  destruct b; cbn [viewPosition]; rewrite ?lookAt_front, ?lookAt_side.
  - split; [reflexivity|]. split.
    { apply Vector3_ext; cbn; field_simplify_eq; lra. }
    split; [|split; [reflexivity | exact Hd]].
    split; [apply Matrix3_ext | unfold Matrix3.determinant]; cbn;
      field_simplify_eq; try lra; nra.
  - split; [reflexivity|]. split.
    { apply Vector3_ext; cbn; field_simplify_eq; lra. }
    split; [|split; [reflexivity | exact Hd]].
    split; [apply Matrix3_ext | unfold Matrix3.determinant]; cbn;
      field_simplify_eq; try lra; nra.
Qed.

(* ---------------------------------------------------------------------- *)
(** ** Edits of the form *)
(* ---------------------------------------------------------------------- *)

Lemma logicalOr_zero_cases x :
  JS.ToBoolean (JS.logicalOr x JS.zero) = true \/
  JS.logicalOr x JS.zero = JS.zero.
Proof. destruct x; simpl; auto. Qed.

Lemma trimStart_app ws s :
  forallb JS.isWhiteSpace ws = true -> JS.trimStart (ws ++ s) = JS.trimStart s.
Proof.
  induction ws as [|c ws IH]; [reflexivity|]. cbn [forallb app JS.trimStart].
  intros H. apply andb_true_iff in H as [Hc Hws]. rewrite Hc. apply IH, Hws.
Qed.

(** The sign of a literal only decides the sign of the rounded result. *)
Lemma binary_round_aux_opp mx ex lx :
  binary_round_aux JS.prec JS.emax true mx ex lx =
  SFopp (binary_round_aux JS.prec JS.emax false mx ex lx).
Proof.
  unfold binary_round_aux.
  destruct (shr_fexp JS.prec JS.emax mx ex lx) as [mrs' e'].
  destruct (shr_fexp JS.prec JS.emax _ e' loc_Exact) as [mrs'' e''].
  destruct (shr_m mrs'') as [|p|p]; [reflexivity | | reflexivity].
  destruct (Z.leb e'' (JS.emax - JS.prec)); reflexivity.
Qed.

Lemma decimalToNumber_opp m e :
  JS.decimalToNumber true m e = SFopp (JS.decimalToNumber false m e).
Proof.
  unfold JS.decimalToNumber. destruct m as [|p]; [reflexivity|].
  destruct e as [|k|k].
  - unfold binary_round. destruct (shl_align _ _ _) as [mz ez].
    apply binary_round_aux_opp.
  - unfold binary_round. destruct (shl_align _ _ _) as [mz ez].
    apply binary_round_aux_opp.
  - destruct (SFdiv_core_binary _ _ _ _ _ _) as [[q e'] l].
    apply binary_round_aux_opp.
Qed.

Lemma parseFloat_minus (u : JS.JSString) :
  JS.parseFloat (45%N :: u) = SFopp (JS.parseFloat (43%N :: u)).
Proof.
  unfold JS.parseFloat. cbn [JS.trimStart].
  change (JS.isWhiteSpace 45) with false. change (JS.isWhiteSpace 43) with false.
  cbn [JS.stripSign]. destruct (JS.scanUnsigned u) as [[|m e]|]; try reflexivity.
  apply decimalToNumber_opp.
Qed.

Lemma isDigit_cases c :
  JS.isDigit c = true ->
  (c = 48 \/ c = 49 \/ c = 50 \/ c = 51 \/ c = 52 \/ c = 53 \/ c = 54 \/
   c = 55 \/ c = 56 \/ c = 57)%N.
Proof.
  unfold JS.isDigit. intros H. apply andb_true_iff in H as [H1 H2].
  apply N.leb_le in H1, H2. lia.
Qed.

Lemma takeDigits_all ds :
  forallb JS.isDigit ds = true ->
  JS.takeDigits ds = (map (fun c => (c - 48)%N) ds, []).
Proof.
  induction ds as [|c ds IH]; [reflexivity|]. cbn [forallb JS.takeDigits map].
  intros H. apply andb_true_iff in H as [Hc Hds]. rewrite Hc, (IH Hds).
  reflexivity.
Qed.

Lemma binary_round_aux_zero_sign sx mx ex lx s :
  binary_round_aux JS.prec JS.emax sx mx ex lx = S754_zero s -> s = sx.
Proof.
  unfold binary_round_aux.
  destruct (shr_fexp JS.prec JS.emax mx ex lx) as [mrs' e'].
  destruct (shr_fexp JS.prec JS.emax _ e' loc_Exact) as [mrs'' e''].
  destruct (shr_m mrs'') as [|p|p]; [congruence | | discriminate].
  destruct (Z.leb e'' (JS.emax - JS.prec)); discriminate.
Qed.

Lemma logicalOr_binary_round p e :
  JS.logicalOr (binary_round JS.prec JS.emax false p e) JS.zero =
  binary_round JS.prec JS.emax false p e.
Proof.
  pose proof (binary_round_not_NaN false p e) as HN.
  destruct (binary_round JS.prec JS.emax false p e) as [s| s| |s m e'] eqn:E;
    try reflexivity; [|discriminate HN].
  unfold binary_round in E. destruct (shl_align _ _ _) as [mz ez].
  apply binary_round_aux_zero_sign in E. subst s. reflexivity.
Qed.

(** A string of decimal digits parses to the integer it spells. *)
Lemma parseFloat_digits (c : N) (ds : JS.JSString) :
  forallb JS.isDigit (c :: ds) = true ->
  JS.parseFloat (c :: ds) =
  JS.decimalToNumber false
    (JS.digitsValue (map (fun c => (c - 48)%N) (c :: ds))) 0.
Proof.
  intros H.
  assert (Hc : JS.isDigit c = true).
  { cbn [forallb] in H. apply andb_true_iff in H. apply H. }
  assert (Hds : forallb JS.isDigit ds = true).
  { cbn [forallb] in H. apply andb_true_iff in H. apply H. }
  pose proof (takeDigits_all ds Hds) as Htd.
  destruct (isDigit_cases c Hc)
    as [->|[->|[->|[->|[->|[->|[->|[->|[->| ->]]]]]]]]];
    unfold JS.parseFloat;
    match goal with
    | |- context [JS.trimStart (?c0 :: ds)] =>
      change (JS.trimStart (c0 :: ds)) with (c0 :: ds);
      change (JS.stripSign (c0 :: ds)) with (false, c0 :: ds);
      cbv beta iota; unfold JS.scanUnsigned;
      change (JS.startsWith (JS.ofString "Infinity") (c0 :: ds)) with false;
      cbv iota; cbn [JS.takeDigits]; change (JS.isDigit c0) with true;
      cbv iota; rewrite Htd; reflexivity
    end.
Qed.

Lemma takeDigits_app ds x rest :
  forallb JS.isDigit ds = true -> JS.isDigit x = false ->
  JS.takeDigits (ds ++ x :: rest) = (map (fun c => (c - 48)%N) ds, x :: rest).
Proof.
  intros H Hx. induction ds as [|c ds IH].
  - cbn [app JS.takeDigits map]. rewrite Hx. reflexivity.
  - cbn [forallb] in H. apply andb_true_iff in H as [Hc Hds].
    cbn [app JS.takeDigits map]. rewrite Hc, (IH Hds). reflexivity.
Qed.

Lemma scanExponent_other x rest :
  N.eqb x 101 = false -> N.eqb x 69 = false -> JS.scanExponent (x :: rest) = 0%Z.
Proof. intros H1 H2. cbn [JS.scanExponent]. rewrite H1, H2. reflexivity. Qed.

(** After the digits, a code unit that is not the decimal point ends the
    literal. *)
Lemma afterDigits_other (ip : list N) (x : N) (rest : JS.JSString) :
  ip <> [] -> continuesLiteral x = false ->
  match x :: rest with
  | 46%N :: r2 =>
    let '(fp, r3) := JS.takeDigits r2 in
    match ip, fp with
    | [], [] => None
    | _, _ =>
      Some (JS.LitDecimal (JS.digitsValue (ip ++ fp))
              (JS.scanExponent r3 - Z.of_nat (List.length fp)))
    end
  | _ =>
    match ip with
    | [] => None
    | _ => Some (JS.LitDecimal (JS.digitsValue ip) (JS.scanExponent (x :: rest)))
    end
  end = Some (JS.LitDecimal (JS.digitsValue ip) 0).
Proof.
  intros Hip Hx. unfold continuesLiteral in Hx.
  apply orb_false_iff in Hx as [Hx H69].
  apply orb_false_iff in Hx as [Hx H101].
  apply orb_false_iff in Hx as [Hx H46].
  pose proof (scanExponent_other x rest H101 H69) as He.
  destruct ip as [|d ip]; [congruence|].
  destruct x as [|p]; [rewrite He; reflexivity|].
  do 6 (destruct p as [p|p|]; try (rewrite He; reflexivity)).
  discriminate H46.
Qed.

Lemma parseFloat_digits_then (c : N) (ds : JS.JSString) x rest :
  forallb JS.isDigit (c :: ds) = true -> continuesLiteral x = false ->
  JS.parseFloat (c :: ds ++ x :: rest) =
  JS.decimalToNumber false
    (JS.digitsValue (map (fun c => (c - 48)%N) (c :: ds))) 0.
Proof.
  intros H Hx.
  assert (Hxd : JS.isDigit x = false).
  { unfold continuesLiteral in Hx. repeat (apply orb_false_iff in Hx as [Hx _]).
    exact Hx. }
  assert (Hc : JS.isDigit c = true).
  { cbn [forallb] in H. apply andb_true_iff in H. apply H. }
  pose proof (takeDigits_app (c :: ds) x rest H Hxd) as Htd.
  change ((c :: ds) ++ x :: rest) with (c :: ds ++ x :: rest) in Htd.
  assert (Hscan : JS.scanUnsigned (c :: ds ++ x :: rest) =
                  Some (JS.LitDecimal
                          (JS.digitsValue (map (fun c => (c - 48)%N) (c :: ds))) 0)).
  { unfold JS.scanUnsigned. rewrite Htd.
    replace (JS.startsWith (JS.ofString "Infinity") (c :: ds ++ x :: rest))
      with false.
    - apply afterDigits_other; [discriminate | exact Hx].
    - destruct (isDigit_cases c Hc)
        as [->|[->|[->|[->|[->|[->|[->|[->|[->| ->]]]]]]]]]; reflexivity. }
  unfold JS.parseFloat.
  replace (JS.trimStart (c :: ds ++ x :: rest)) with (c :: ds ++ x :: rest).
  2:{ destruct (isDigit_cases c Hc)
        as [->|[->|[->|[->|[->|[->|[->|[->|[->| ->]]]]]]]]]; reflexivity. }
  replace (JS.stripSign (c :: ds ++ x :: rest))
    with (false, c :: ds ++ x :: rest).
  2:{ destruct (isDigit_cases c Hc)
        as [->|[->|[->|[->|[->|[->|[->|[->|[->| ->]]]]]]]]]; reflexivity. }
  rewrite Hscan. reflexivity.
Qed.

(* ---------------------------------------------------------------------- *)
(** ** The properties *)
(* ---------------------------------------------------------------------- *)

(** X1.  Whatever measurement sets the mounted component has gone through,
    the scene graph holds no leftovers: the scene has exactly six children,
    the two lights and the two helpers, unchanged since the mount, and the
    two bones the refs point to; the bones of earlier renders and every
    pivot are detached (no parent), and no object but the scene has
    children. *)
Theorem scene_graph_tidy (ms : list (Measurements R)) :
  exists s p, run ms = Some s /\ Tidy p (S p) s.
Proof.
  destruct (run_Tidy ms) as (s & p & Hrun & HT & _).
  exists s, p. split; [exact Hrun | exact HT].
Qed.

(** X2.  Every run of the effect on [measurements] creates three objects, two
    meshes and a pivot, and reuses none: after the mount and [n] measurement
    sets 10 + 3 n objects have been created, the refs point to the two
    meshes created last, and the object created last of all is the pivot,
    left detached at the fracture site with the rotation of the last
    measurement set. *)
Theorem effect_allocates_three (ms : list (Measurements R)) :
  exists s p,
    run ms = Some s /\
    nextId s = (10 + 3 * List.length ms)%nat /\
    S (S (S p)) = nextId s /\
    proximalBoneRef s = Some p /\ distalBoneRef s = Some (S p) /\
    heap s !! S (S p) =
      Some (spentPivot (List.last ms initialMeasurements)).
Proof.
  destruct (run_Tidy ms) as (s & p & Hrun & HT & Hn & Hp & Hpv & Hm).
  destruct HT as (_ & Hpr & Hdr & _).
  exists s, p. rewrite <- Hm.
  split; [exact Hrun|]. split; [exact Hn|]. split; [exact Hp|].
  split; [exact Hpr|]. split; [exact Hdr | exact Hpv].
Qed.

(** X3.  The two bones after the effect, field by field.  The proximal bone
    is the mesh [updateBoneGeometries] built.  The distal bone is a child of
    the scene again, keeps the geometry it was built with and the scale
    (1, 1, 1), and carries the rotation of the pivot; its Euler angles are
    the ones the library reads back from that rotation. *)
Theorem bones_after_effect (ms : list (Measurements R)) (m : Measurements R) :
  exists s,
    run (ms ++ [m]) = Some s /\
    boneObject proximalBoneRef s =
      Some (mkObject3D (Some 0%nat) []
              (Vector3.mk 0 (- fracturePosition m / 2) 0)
              Euler.zero Matrix3.identity Vector3.one
              (Some (mkCylinderGeometry radius (radius * (9 / 10))
                       (fracturePosition m) radialSegmentsOfBone))) /\
    boneObject distalBoneRef s =
      Some (mkObject3D (Some 0%nat) [] (distalWorldPosition m)
              (Euler.setFromRotationMatrix (pivotRotation m)) (pivotRotation m)
              Vector3.one
              (Some (mkCylinderGeometry (radius * (9 / 10)) (radius * (8 / 10))
                       (fractureLength m - fracturePosition m)
                       radialSegmentsOfBone))).
Proof.
  destruct (run_last ms m) as (s & p & d & Hrun & HG & Hm).
  destruct HG as (_ & Hp & Hd & Hpo & Hdo & _).
  exists s. split; [exact Hrun|]. unfold boneObject.
  rewrite Hp, Hd, Hpo, Hdo, Hm. split; reflexivity.
Qed.

(** X4.  The placement is its three stages run one after the other, and the
    two calls of [attach] change the parent of the distal bone without
    moving it: hung on the pivot it is still in its anatomical pose; the
    rotations of the pivot and the displacements then take it to its final
    world pose, which it keeps when it goes back under the scene. *)
Theorem placement_stages (ms : list (Measurements R)) (m : Measurements R) :
  exists s0 s1 sa sb s2 distalBone pivot,
    run ms = Some s0 /\ rebuildGeometry m s0 = Some s1 /\
    distalBoneRef s1 = Some distalBone /\
    hangOnPivot 0 distalBone s1 = Some (pivot, sa) /\
    rotateAndDisplace pivot distalBone sa = Some (tt, sb) /\
    backToScene 0 pivot distalBone sb = Some (tt, s2) /\
    applyDeformity 0 distalBone s1 = Some (tt, s2) /\
    run (ms ++ [m]) = Some s2 /\
    worldPose s1 distalBone = Some (anatomicalPosition m, Matrix3.identity) /\
    (parent <$> heap s1 !! distalBone) = Some (Some 0%nat) /\
    worldPose sa distalBone = Some (anatomicalPosition m, Matrix3.identity) /\
    (parent <$> heap sa !! distalBone) = Some (Some pivot) /\
    worldPose sb distalBone = Some (distalWorldPosition m, pivotRotation m) /\
    (parent <$> heap sb !! distalBone) = Some (Some pivot) /\
    worldPose s2 distalBone = Some (distalWorldPosition m, pivotRotation m) /\
    (parent <$> heap s2 !! distalBone) = Some (Some 0%nat).
Proof.
  destruct (run_Good ms) as (s0 & p0 & d0 & Hrun0 & HG0 & _).
  destruct HG0 as (HI0 & _ & Hd0 & _).
  destruct (rebuild_facts 0%nat (setMeasurementsField m s0) HI0)
    as (s1 & Hrun1 & HI1 & Hm1 & Hp1 & Hd1 & Hpo1 & Hdo1 & (root & Hroot & Hin)).
  cbn [measurements nextId setMeasurementsField] in *.
  destruct HI1 as (Hsc1 & (root' & Hroot' & Hr & _) & Hdom1).
  assert (root' = root) as -> by congruence.
  assert (H0n : (0 < nextId s1)%nat) by (apply Hdom1; rewrite Hroot; eauto).
  assert (Hdn : (S (nextId s0) < nextId s1)%nat)
    by (apply Hdom1; rewrite Hdo1; eauto).
  destruct (placement_stages_run 0%nat (S (nextId s0)) s1 root
              (distalMesh 0%nat m) Hroot Hr H0n Hdn Hdo1 eq_refl Hin eq_refl)
    as (sa & sb & s2 & Ha & Hb & Hc & Hwhole & Hwa & Hpa & Hwb & Hpb & Hw2 & Hp2).
  rewrite Hm1 in *.
  exists s0, s1, sa, sb, s2, (S (nextId s0)), (nextId s1).
  split; [exact Hrun0|]. split.
  { unfold rebuildGeometry. rewrite (proj1 HI0), Hrun1. reflexivity. }
  split; [exact Hd1|]. split; [exact Ha|]. split; [exact Hb|].
  split; [exact Hc|]. split; [exact Hwhole|]. split.
  { rewrite (run_snoc ms m s0 Hrun0). unfold setMeasurements.
    erewrite bind_run;
      [ | reflexivity
      | eapply measurementsEffect_unfold;
          [apply HI0 | exact Hd0 | exact Hrun1 | exact Hd1 | exact Hwhole] ].
    reflexivity. }
  split.
  { rewrite (worldPose_child 0%nat s1 _ root _ Hroot Hr Hdo1);
      [reflexivity | reflexivity | reflexivity | apply isRotation_identity | lia]. }
  split; [rewrite Hdo1; reflexivity|].
  split; [exact Hwa|]. split; [exact Hpa|]. split; [exact Hwb|].
  split; [exact Hpb|]. split; [exact Hw2 | exact Hp2].
Qed.

(** X5.  Where the ends of the bones are in the world after the effect.  The
    proximal bone runs from the origin to the fracture site
    (0, - fracturePosition, 0).  The end of the distal bone that faces the
    fracture is at the fracture site plus the rotated displacement, and its
    far end lies fractureLength - fracturePosition further along the rotated
    long axis. *)
Theorem bone_ends (ms : list (Measurements R)) (m : Measurements R) :
  boneEndAfter proximalBoneRef topCentre (ms ++ [m]) = Some Vector3.zero /\
  boneEndAfter proximalBoneRef bottomCentre (ms ++ [m]) =
    Some (pivotPosition m) /\
  boneEndAfter distalBoneRef topCentre (ms ++ [m]) =
    Some (Vector3.add (pivotPosition m)
            (Matrix3.apply (pivotRotation m) (displacement m))) /\
  boneEndAfter distalBoneRef bottomCentre (ms ++ [m]) =
    Some (Vector3.add (pivotPosition m)
            (Matrix3.apply (pivotRotation m)
               (Vector3.add (displacement m)
                  (Vector3.mk 0 (- (fractureLength m - fracturePosition m)) 0)))).
Proof.
  destruct (boneEndAfter_last ms m topCentre) as [Hpt Hdt].
  destruct (boneEndAfter_last ms m bottomCentre) as [Hpb Hdb].
  rewrite Hpt, Hpb, Hdt, Hdb.
  unfold distalWorldPosition, distalLocalPosition, anatomicalPosition,
    pivotPosition, displacement, topCentre, bottomCentre.
  cbn [height].
  repeat split; f_equal; apply Vector3_ext; cbn -[pivotRotation]; try lra.
  all: destruct (pivotRotation m); cbn; lra.
Qed.

(** X6.  The angulations turn the distal bone about the fracture site: with
    the three displacements at 0, whatever the three angulations are, the
    end of the distal bone that faces the fracture stays at
    (0, - fracturePosition, 0), where the proximal bone ends. *)
Theorem fragments_hinge (ms : list (Measurements R)) (m : Measurements R) :
  medialDisplacement m = 0 -> anteriorDisplacement m = 0 ->
  proximalDisplacement m = 0 ->
  boneEndAfter distalBoneRef topCentre (ms ++ [m]) =
    boneEndAfter proximalBoneRef bottomCentre (ms ++ [m]) /\
  boneEndAfter distalBoneRef topCentre (ms ++ [m]) =
    Some (Vector3.mk 0 (- fracturePosition m) 0).
Proof.
  intros H1 H2 H3.
  pose proof (proj1 (boneEndAfter_last ms m bottomCentre)) as Hpb.
  destruct (distalEnds ms m) as (Hdt & _).
  rewrite Hpb, Hdt. unfold bottomCentre. cbn [height]. unfold displacement, pivotPosition. rewrite H1, H2, H3.
  split; f_equal; destruct (pivotRotation m); apply Vector3_ext; cbn; lra.
Qed.

Lemma fragments_hinge_witness :
  medialDisplacement (mkMeasurements 300 150 0 0 0 10 20 30) = 0 /\
  anteriorDisplacement (mkMeasurements 300 150 0 0 0 10 20 30) = 0 /\
  proximalDisplacement (mkMeasurements 300 150 0 0 0 10 20 30) = 0 /\
  (boneEndAfter distalBoneRef topCentre
     ([] ++ [mkMeasurements 300 150 0 0 0 10 20 30]) =
   boneEndAfter proximalBoneRef bottomCentre
     ([] ++ [mkMeasurements 300 150 0 0 0 10 20 30]) /\
   boneEndAfter distalBoneRef topCentre
     ([] ++ [mkMeasurements 300 150 0 0 0 10 20 30]) =
   Some (Vector3.mk 0
           (- fracturePosition (mkMeasurements 300 150 0 0 0 10 20 30)) 0)).
Proof.
  split; [reflexivity|]. split; [reflexivity|]. split; [reflexivity|].
  apply (fragments_hinge [] (mkMeasurements 300 150 0 0 0 10 20 30));
    reflexivity.
Defined.

(** X7.  Without angulation the displacements move the distal bone along the
    world axes: both its ends are shifted by medialDisplacement along x, by
    anteriorDisplacement along z and by - proximalDisplacement along y.  A
    positive proximalDisplacement thus takes the distal bone towards
    negative y, away from the proximal bone, which lies between y = 0 and
    y = - fracturePosition. *)
Theorem displacement_without_angulation (ms : list (Measurements R))
    (m : Measurements R) :
  valgusAngulation m = 0 -> anteversionAngulation m = 0 ->
  rotationalAngulation m = 0 ->
  boneEndAfter distalBoneRef topCentre (ms ++ [m]) =
    Some (Vector3.mk (medialDisplacement m)
            (- fracturePosition m - proximalDisplacement m)
            (anteriorDisplacement m)) /\
  boneEndAfter distalBoneRef bottomCentre (ms ++ [m]) =
    Some (Vector3.mk (medialDisplacement m)
            (- fractureLength m - proximalDisplacement m)
            (anteriorDisplacement m)).
Proof.
  intros H1 H2 H3.
  destruct (distalEnds ms m) as (Hdt & Hdb).
  rewrite Hdt, Hdb, (pivotRotation_none m H1 H2 H3), !apply_identity.
  unfold displacement, pivotPosition.
  split; f_equal; apply Vector3_ext; cbn; lra.
Qed.

Lemma displacement_without_angulation_witness :
  valgusAngulation (mkMeasurements 300 150 5 7 3 0 0 0) = 0 /\
  anteversionAngulation (mkMeasurements 300 150 5 7 3 0 0 0) = 0 /\
  rotationalAngulation (mkMeasurements 300 150 5 7 3 0 0 0) = 0 /\
  (boneEndAfter distalBoneRef topCentre
     ([] ++ [mkMeasurements 300 150 5 7 3 0 0 0]) =
   Some (Vector3.mk (medialDisplacement (mkMeasurements 300 150 5 7 3 0 0 0))
           (- fracturePosition (mkMeasurements 300 150 5 7 3 0 0 0)
            - proximalDisplacement (mkMeasurements 300 150 5 7 3 0 0 0))
           (anteriorDisplacement (mkMeasurements 300 150 5 7 3 0 0 0))) /\
   boneEndAfter distalBoneRef bottomCentre
     ([] ++ [mkMeasurements 300 150 5 7 3 0 0 0]) =
   Some (Vector3.mk (medialDisplacement (mkMeasurements 300 150 5 7 3 0 0 0))
           (- fractureLength (mkMeasurements 300 150 5 7 3 0 0 0)
            - proximalDisplacement (mkMeasurements 300 150 5 7 3 0 0 0))
           (anteriorDisplacement (mkMeasurements 300 150 5 7 3 0 0 0)))).
Proof.
  split; [reflexivity|]. split; [reflexivity|]. split; [reflexivity|].
  apply (displacement_without_angulation []
           (mkMeasurements 300 150 5 7 3 0 0 0)); reflexivity.
Defined.

(** X8.  The sense of each angulation, the displacements and the two other
    angulations at 0, read off the far end of the distal bone, which without
    deformity is at (0, - fractureLength, 0).  With
    h = fractureLength - fracturePosition: a valgus angulation v swings it in
    the plane z = 0 to x = h sin v (towards positive x for 0 < v < 180); an
    anteversion angulation a swings it in the plane x = 0 to z = - h sin a;
    a long-axis rotation leaves it where it is. *)
Theorem angulation_directions (ms : list (Measurements R))
    (m : Measurements R) :
  medialDisplacement m = 0 -> anteriorDisplacement m = 0 ->
  proximalDisplacement m = 0 ->
  (anteversionAngulation m = 0 -> rotationalAngulation m = 0 ->
   boneEndAfter distalBoneRef bottomCentre (ms ++ [m]) =
     Some (Vector3.mk
             ((fractureLength m - fracturePosition m)
              * sin (toRad (valgusAngulation m)))
             (- fracturePosition m
              - (fractureLength m - fracturePosition m)
                * cos (toRad (valgusAngulation m)))
             0)) /\
  (valgusAngulation m = 0 -> rotationalAngulation m = 0 ->
   boneEndAfter distalBoneRef bottomCentre (ms ++ [m]) =
     Some (Vector3.mk 0
             (- fracturePosition m
              - (fractureLength m - fracturePosition m)
                * cos (toRad (anteversionAngulation m)))
             (- ((fractureLength m - fracturePosition m)
                 * sin (toRad (anteversionAngulation m)))))) /\
  (valgusAngulation m = 0 -> anteversionAngulation m = 0 ->
   boneEndAfter distalBoneRef bottomCentre (ms ++ [m]) =
     Some (Vector3.mk 0 (- fractureLength m) 0)).
Proof.
  intros H1 H2 H3.
  destruct (distalEnds ms m) as (_ & Hdb). rewrite Hdb.
  unfold displacement, pivotPosition, pivotRotation, pivotEuler.
  rewrite H1, H2, H3.
  split; [|split]; intros Ha Hb; rewrite Ha, Hb, toRad_0; f_equal;
    apply Vector3_ext; cbn; rewrite ?cos_0, ?sin_0; ring.
Qed.

Lemma angulation_directions_witness :
  medialDisplacement (mkMeasurements 300 150 0 0 0 30 0 0) = 0 /\
  anteriorDisplacement (mkMeasurements 300 150 0 0 0 30 0 0) = 0 /\
  proximalDisplacement (mkMeasurements 300 150 0 0 0 30 0 0) = 0 /\
  ((anteversionAngulation (mkMeasurements 300 150 0 0 0 30 0 0) = 0 ->
    rotationalAngulation (mkMeasurements 300 150 0 0 0 30 0 0) = 0 ->
    boneEndAfter distalBoneRef bottomCentre ([] ++ [mkMeasurements 300 150 0 0 0 30 0 0]) =
      Some (Vector3.mk
              ((fractureLength (mkMeasurements 300 150 0 0 0 30 0 0) - fracturePosition (mkMeasurements 300 150 0 0 0 30 0 0))
               * sin (toRad (valgusAngulation (mkMeasurements 300 150 0 0 0 30 0 0))))
              (- fracturePosition (mkMeasurements 300 150 0 0 0 30 0 0)
               - (fractureLength (mkMeasurements 300 150 0 0 0 30 0 0) - fracturePosition (mkMeasurements 300 150 0 0 0 30 0 0))
                 * cos (toRad (valgusAngulation (mkMeasurements 300 150 0 0 0 30 0 0))))
              0)) /\
   (valgusAngulation (mkMeasurements 300 150 0 0 0 30 0 0) = 0 ->
    rotationalAngulation (mkMeasurements 300 150 0 0 0 30 0 0) = 0 ->
    boneEndAfter distalBoneRef bottomCentre ([] ++ [mkMeasurements 300 150 0 0 0 30 0 0]) =
      Some (Vector3.mk 0
              (- fracturePosition (mkMeasurements 300 150 0 0 0 30 0 0)
               - (fractureLength (mkMeasurements 300 150 0 0 0 30 0 0) - fracturePosition (mkMeasurements 300 150 0 0 0 30 0 0))
                 * cos (toRad (anteversionAngulation (mkMeasurements 300 150 0 0 0 30 0 0))))
              (- ((fractureLength (mkMeasurements 300 150 0 0 0 30 0 0) - fracturePosition (mkMeasurements 300 150 0 0 0 30 0 0))
                  * sin (toRad (anteversionAngulation (mkMeasurements 300 150 0 0 0 30 0 0))))))) /\
   (valgusAngulation (mkMeasurements 300 150 0 0 0 30 0 0) = 0 ->
    anteversionAngulation (mkMeasurements 300 150 0 0 0 30 0 0) = 0 ->
    boneEndAfter distalBoneRef bottomCentre ([] ++ [mkMeasurements 300 150 0 0 0 30 0 0]) =
      Some (Vector3.mk 0 (- fractureLength (mkMeasurements 300 150 0 0 0 30 0 0)) 0))).
Proof.
  split; [reflexivity|]. split; [reflexivity|]. split; [reflexivity|].
  apply (angulation_directions [] (mkMeasurements 300 150 0 0 0 30 0 0)); reflexivity.
Defined.

(** X9.  The placement is a rigid motion: whatever the measurement set, the
    two ends of the distal bone are as far apart in the world as in the
    geometry, |fractureLength - fracturePosition|. *)
Theorem distal_length_preserved (ms : list (Measurements R))
    (m : Measurements R) :
  exists top bottom,
    boneEndAfter distalBoneRef topCentre (ms ++ [m]) = Some top /\
    boneEndAfter distalBoneRef bottomCentre (ms ++ [m]) = Some bottom /\
    Vector3.length (Vector3.sub top bottom) =
      Rabs (fractureLength m - fracturePosition m).
Proof.
  destruct (distalEnds ms m) as (Hdt & Hdb).
  do 2 eexists. split; [exact Hdt|]. split; [exact Hdb|].
  set (h := fractureLength m - fracturePosition m).
  replace (Vector3.sub _ _)
    with (Matrix3.apply (pivotRotation m) (Vector3.mk 0 h 0)).
  2:{ destruct (pivotRotation m), (displacement m).
      apply Vector3_ext; cbn; ring. }
  rewrite rotation_preserves_length by apply isRotation_Euler.
  unfold Vector3.length. cbn.
  replace (0 * 0 + h * h + 0 * 0) with (Rsqr h) by (unfold Rsqr; ring).
  apply sqrt_Rsqr_abs.
Qed.


(** X11.  Left and right are treated alike: negating medialDisplacement,
    valgusAngulation and rotationalAngulation gives the mirror image, in the
    plane x = 0, of the pose of the distal bone. *)
Theorem mirror_symmetry (ms : list (Measurements R)) (m : Measurements R) :
  distalPoseAfter (ms ++ [mirrored m]) =
  Some (reflectX (distalWorldPosition m), reflectRotationX (pivotRotation m)) /\
  distalPoseAfter (ms ++ [m]) =
  Some (distalWorldPosition m, pivotRotation m).
Proof.
  rewrite !distalPoseAfter_last. split; [|reflexivity].
  assert (E : pivotRotation (mirrored m) = reflectRotationX (pivotRotation m)).
  { unfold pivotRotation, pivotEuler, Euler.makeRotationFromEuler, mirrored,
      reflectRotationX.
    cbn [valgusAngulation anteversionAngulation rotationalAngulation
         Euler.x Euler.y Euler.z Matrix3.n11 Matrix3.n12 Matrix3.n13
         Matrix3.n21 Matrix3.n22 Matrix3.n23 Matrix3.n31 Matrix3.n32
         Matrix3.n33].
    rewrite !toRad_opp, !cos_neg, !sin_neg. apply Matrix3_ext; cbn; ring. }
  unfold distalWorldPosition. rewrite E. f_equal. f_equal.
  unfold reflectX, reflectRotationX, distalLocalPosition, anatomicalPosition,
    pivotPosition, displacement, mirrored.
  destruct (pivotRotation m). apply Vector3_ext; cbn; ring.
Qed.

(** X12.  Without a container the mount effect returns before it creates
    anything, and the effect on [measurements] then returns at its guard
    every time: after any sequence of measurement sets the store is empty and
    the three refs are null, only [measurements] has changed, and no run
    fails.  With a container the run is the one of the mounted component. *)
Theorem nothing_built_without_container (ms : list (Measurements R)) :
  runIn false ms =
    Some (mkState (List.last ms initialMeasurements) ∅ 0 None None None) /\
  runIn true ms = run ms.
Proof.
  split; [|reflexivity].
  unfold runIn. change (mountIn false) with (Some initialState).
  cbv beta iota. rewrite runFrom_no_scene by reflexivity. reflexivity.
Qed.

(** X13.  The view toggle.  Before the mount, when there is no camera, a
    click changes nothing, not even [isAnteriorView].  After [n] clicks, each handled in a render of its
    own, [isAnteriorView] holds exactly when [n] is even, and the camera is
    at (0, 0, 500) when it holds and at (500, 0, 0) when it does not.  In both
    places the camera is aimed at (0, -150, 0), which lies straight ahead
    (along its -z axis) at distance sqrt 272500; its orientation is a proper
    rotation, its right-hand axis is horizontal and its up axis points
    upwards. *)
Theorem camera_after_toggles (n : nat) :
  toggleView initialView = initialView /\
  exists camera,
    Nat.iter n toggleView (setupCamera initialView) =
      mkView (Nat.even n) (Some camera) /\
    position camera = viewPosition (Nat.even n) /\
    Vector3.add
      (Matrix3.apply (quaternion camera) (Vector3.mk 0 0 (- viewDistance)))
      (position camera) = Vector3.mk 0 (-150) 0 /\
    isRotation (quaternion camera) /\
    Matrix3.n21 (quaternion camera) = 0 /\
    0 < Matrix3.n22 (quaternion camera).
Proof.
  split; [reflexivity|].
  exists (cameraAt (viewPosition (Nat.even n))).
  split; [apply toggleView_iter | apply cameraAt_facts].
Qed.

(** X14.  After any sequence of edits every field holds what its own last
    edit stored, the parsed number or 0, and a field that was never edited
    holds its initial value: an edit touches no field but its own, and a
    later edit of a field overrides the earlier ones. *)
Theorem field_holds_last_edit (edits : list (MeasurementKey * JS.JSString))
    (k : MeasurementKey) :
  getField k (afterEdits edits) =
  match lastEdit k edits with
  | Some value => JS.logicalOr (JS.parseFloat value) JS.zero
  | None => getField k initialMeasurementsJS
  end.
Proof.
  unfold afterEdits, lastEdit.
  induction edits as [|[key value] edits IH] using rev_ind; [reflexivity|].
  rewrite !fold_left_app. cbn [fold_left fst snd].
  unfold handleMeasurementChange at 1.
  destruct (decide (key = k)) as [->|Hne].
  - apply getField_setField_same.
  - rewrite getField_setField_other by congruence. exact IH.
Qed.

(** X15.  After any sequence of edits every field is either a truthy number
    (not NaN and not a zero) or exactly +0: the fallback also replaces -0, so
    the form never stores a negative zero. *)
Theorem fields_truthy_or_zero (edits : list (MeasurementKey * JS.JSString))
    (k : MeasurementKey) :
  JS.ToBoolean (getField k (afterEdits edits)) = true \/
  getField k (afterEdits edits) = JS.zero.
Proof.
  unfold afterEdits.
  induction edits as [|[key value] edits IH] using rev_ind.
  - destruct k; vm_compute; auto.
  - rewrite fold_left_app. cbn [fold_left fst snd].
    unfold handleMeasurementChange at 1 3.
    destruct (decide (key = k)) as [->|Hne].
    + rewrite getField_setField_same. apply logicalOr_zero_cases.
    + rewrite getField_setField_other by congruence. exact IH.
Qed.

(** X16.  White space in front of the edited string changes nothing:
    [parseFloat] skips it. *)
Theorem leading_white_space_ignored (key : MeasurementKey)
    (ws value : JS.JSString) (prev : Measurements JS.number) :
  forallb JS.isWhiteSpace ws = true ->
  handleMeasurementChange key (ws ++ value) prev =
  handleMeasurementChange key value prev.
Proof.
  intros H. unfold handleMeasurementChange, JS.parseFloat.
  rewrite (trimStart_app ws value H). reflexivity.
Qed.

Lemma leading_white_space_ignored_witness :
  forallb JS.isWhiteSpace (JS.ofString "  ") = true /\
  handleMeasurementChange KvalgusAngulation
    (JS.ofString "  " ++ JS.ofString "12") initialMeasurementsJS =
  handleMeasurementChange KvalgusAngulation (JS.ofString "12")
    initialMeasurementsJS.
Proof.
  split; [reflexivity|].
  apply (leading_white_space_ignored KvalgusAngulation (JS.ofString "  ")
           (JS.ofString "12") initialMeasurementsJS). reflexivity.
Defined.

(** X17.  A minus sign in front of a string negates what the string with a
    plus sign stores, bit for bit, rounding included; when that is 0 (the
    string does not parse, or parses to a zero) the field is +0 either
    way. *)
Theorem minus_sign_negates (key : MeasurementKey) (u : JS.JSString)
    (prev : Measurements JS.number) :
  getField key (handleMeasurementChange key (45%N :: u) prev) =
  if JS.ToBoolean
       (getField key (handleMeasurementChange key (43%N :: u) prev))
  then SFopp (getField key (handleMeasurementChange key (43%N :: u) prev))
  else JS.zero.
Proof.
  unfold handleMeasurementChange. rewrite !getField_setField_same.
  rewrite parseFloat_minus.
  destruct (JS.parseFloat (43%N :: u)) as [s| s| |s m e]; reflexivity.
Qed.

(** X18.  An edit to a string of decimal digits stores the integer the
    digits spell, rounded to binary64 as the integer literals of the source
    are: typing 300 into fractureLength gives back its initial value. *)
Theorem digits_store_integer (key : MeasurementKey) (c : N)
    (ds : JS.JSString) (prev : Measurements JS.number) :
  forallb JS.isDigit (c :: ds) = true ->
  getField key (handleMeasurementChange key (c :: ds) prev) =
  JS.ofZ (Z.of_N (JS.digitsValue (map (fun c => (c - 48)%N) (c :: ds)))).
Proof.
  intros H. unfold handleMeasurementChange. rewrite getField_setField_same.
  rewrite (parseFloat_digits c ds H). unfold JS.decimalToNumber, JS.ofZ.
  destruct (JS.digitsValue _) as [|p]; [reflexivity|].
  cbn [Z.of_N binary_normalize]. change (Z.to_pos (10 ^ 0)) with 1%positive.
  rewrite Pos.mul_1_r. apply logicalOr_binary_round.
Qed.

Lemma digits_store_integer_witness :
  forallb JS.isDigit (51%N :: JS.ofString "00") = true /\
  getField KfractureLength
    (handleMeasurementChange KfractureLength (51%N :: JS.ofString "00")
       initialMeasurementsJS) =
  JS.ofZ (Z.of_N (JS.digitsValue
     (map (fun c => (c - 48)%N) (51%N :: JS.ofString "00")))).
Proof.
  split; [reflexivity|].
  apply (digits_store_integer KfractureLength 51%N (JS.ofString "00")
           initialMeasurementsJS). reflexivity.
Defined.

(** X19.  Once the string starts with digits, whatever follows them, if it
    is not a digit, the decimal point or an [e], is ignored: the edit stores
    what the digits alone store.  A decimal comma is such a follower. *)
Theorem trailing_text_ignored (key : MeasurementKey) (c : N)
    (ds : JS.JSString) (x : N) (rest : JS.JSString)
    (prev : Measurements JS.number) :
  forallb JS.isDigit (c :: ds) = true -> continuesLiteral x = false ->
  handleMeasurementChange key (c :: ds ++ x :: rest) prev =
  handleMeasurementChange key (c :: ds) prev.
Proof.
  intros H Hx. unfold handleMeasurementChange.
  rewrite (parseFloat_digits_then c ds x rest H Hx), (parseFloat_digits c ds H).
  reflexivity.
Qed.

Lemma trailing_text_ignored_witness :
  forallb JS.isDigit (49%N :: []) = true /\
  continuesLiteral 44 = false /\
  handleMeasurementChange KvalgusAngulation (49%N :: [] ++ 44%N :: JS.ofString "5")
    initialMeasurementsJS =
  handleMeasurementChange KvalgusAngulation (49%N :: []) initialMeasurementsJS.
Proof.
  split; [reflexivity|]. split; [reflexivity|].
  apply (trailing_text_ignored KvalgusAngulation 49%N [] 44%N (JS.ofString "5")
           initialMeasurementsJS); reflexivity.
Defined.
